(** * Quickhull: a shallow embedding of [quickhull.hpp] and its verification

    The C++ class [quick_hull<point_iterator, value_type>] is embedded as
    pure functions over an explicit state.  The numeric type [value_type]
    is an arbitrary ordered field [F] together with the square root the
    program finds for it ([sqrtF]); point handles ([point_iterator]) are an
    arbitrary type with decidable equality, dereferenced by [coords].

    - [std::valarray<value_type>] is a [seq F], [std::vector<vector>] a
      [seq (seq F)]; indexing is [nth], assignment through an index is
      [set_nth].
    - [for] loops are folds over [iota]; a loop whose body can [return] is
      a fold with a sum type ([for_return]).
    - member functions take the part of the object they touch and give it
      back ([quick_hull] collects the members).
    - [assert]s do not change the state; they appear as hypotheses of the
      theorems where a claim depends on them.                              *)

From HB Require Import structures.
From mathcomp Require Import boot order algebra.
From mathcomp Require Import perm ring_tactic field_tactic lra.
From Stdlib Require Import Lia.

Set Implicit Arguments.
Unset Strict Implicit.
Unset Printing Implicit Defensive.

Import Order.TTheory GRing.Theory Num.Theory.
Local Open Scope ring_scope.

(** ** Loops *)

Section Loops.

Variables (S R : Type).

(** [for (i = lo; i < hi; ++i) body] *)
Definition for_loop (lo hi : nat) (body : nat -> S -> S) (s : S) : S :=
  foldl (fun s i => body i s) s (iota lo (hi - lo)).

(** A loop whose body may leave the enclosing function: [inl r] is
    [return r], [inr s] falls through to the next iteration. *)
Fixpoint for_return (js : seq nat) (body : nat -> S -> R + S) (s : S) : R + S :=
  if js is i :: js' then
    match body i s with
    | inl r => inl r
    | inr s' => for_return js' body s'
    end
  else inr s.

End Loops.

(** ** Ridge records

    [struct ridge { facet & facet_; size_type f; size_type v; size_type hash_; }].
    The reference [facet_] always designates [facets_[f]] (see the only
    constructor call, in [find_adjacent_facets]), so a record keeps the
    index and the facet is read from the store. *)

Record ridge := Ridge { ridge_f : nat; ridge_v : nat; hash_ : nat }.

Definition ridge_to_tuple (r : ridge) := (ridge_f r, ridge_v r, hash_ r).
Definition tuple_to_ridge (t : nat * nat * nat) := Ridge t.1.1 t.1.2 t.2.

Lemma ridge_tupleK : cancel ridge_to_tuple tuple_to_ridge.
Proof. by case. Qed.

HB.instance Definition _ := Equality.copy ridge (can_type ridge_tupleK).

Section QuickHull.

(** [value_type], its [sqrt], [point_iterator] (with a value-initialised
    iterator as the default of [nth]), dereferencing, and
    [std::hash<point const *>]. *)
Variable F : realFieldType.
Variable sqrtF : F -> F.
Variable point : eqType.
Variable nil_point : point.
Variable coords : point -> seq F.
Variable point_hash_ : point -> nat.

(** The constant members [dimension_] and [eps]. *)
Variable dimension_ : nat.
Variable eps : F.

(** ** Vectors and matrices *)

Definition vector := seq F.
Definition matrix := seq vector.

Definition mget (m : matrix) (r c : nat) : F := nth 0 (nth [::] m r) c.

Definition mset (m : matrix) (r c : nat) (x : F) : matrix :=
  set_nth [::] m r (set_nth 0 (nth [::] m r) c x).

(** [std::copy_n(src, n, dst)] *)
Definition copy_n (src : vector) (n : nat) (dst : vector) : vector :=
  take n src ++ drop n dst.

(** [a -= b], [a *= a], [a * x], [a /= x] and [a = x] on valarrays: the
    size of [a] is kept. *)
Definition vsub (a b : vector) : vector :=
  mkseq (fun k => nth 0 a k - nth 0 b k) (size a).

Definition vmul (a b : vector) : vector :=
  mkseq (fun k => nth 0 a k * nth 0 b k) (size a).

Definition vscale (x : F) (a : vector) : vector := [seq x * y | y <- a].

Definition vdiv (a : vector) (x : F) : vector := [seq y / x | y <- a].

Definition vfill (a : vector) (x : F) : vector := nseq (size a) x.

(** [a.sum()] *)
Definition vsum (a : vector) : F := foldl +%R 0 a.

(** [std::inner_product(begin(a), end(a), begin(b), init)] *)
Definition inner_product (a b : vector) (init : F) : F :=
  foldl (fun acc k => acc + nth 0 a k * nth 0 b k) init (iota 0 (size a)).

(** ** Facets *)

Record facet := Facet {
  vertices_ : seq point;
  neighbours_ : seq nat;
  outside_ : seq point;
  coplanar_ : seq point;
  normal_ : vector;
  D : F
}.

Definition facet0 : facet := Facet [::] [::] [::] [::] [::] 0.

Definition set_neighbours_ (fc : facet) (ns : seq nat) : facet :=
  Facet (vertices_ fc) ns (outside_ fc) (coplanar_ fc) (normal_ fc) (D fc).

Definition set_outside_ (fc : facet) (o : seq point) : facet :=
  Facet (vertices_ fc) (neighbours_ fc) o (coplanar_ fc) (normal_ fc) (D fc).

Definition set_coplanar_ (fc : facet) (c : seq point) : facet :=
  Facet (vertices_ fc) (neighbours_ fc) (outside_ fc) c (normal_ fc) (D fc).

Definition set_equation (fc : facet) (n : vector) (d : F) : facet :=
  Facet (vertices_ fc) (neighbours_ fc) (outside_ fc) (coplanar_ fc) n d.

(** [std::swap(s.front(), s.back())] *)
Definition swap_front_back (T : Type) (s : seq T) : seq T :=
  if s is x :: s' then
    set_nth x (set_nth x s 0 (last x s')) (size s).-1 x
  else s.

(** The simplex constructor
    [facet(_dimension, sbeg, _vertex, _swap)]: [v] and [sbeg] advance
    together, so the loop runs over the simplex zipped with its indices.
    [normal_] is value-initialised; [D] is left uninitialised by the
    constructor and is 0 here. *)
Definition facet_simplex (simplex : seq point) (vertex : nat) (swap : bool) : facet :=
  let: (vs, ns) :=
    foldl (fun acc vp =>
             let: (vs, ns) := acc in
             if vp.1 != vertex then (rcons vs vp.2, rcons ns vp.1) else (vs, ns))
          ([::], [::]) (zip (iota 0 dimension_.+1) simplex) in
  let: (vs, ns) :=
    if swap == ((dimension_ - vertex) %% 2 == 0)%N
    then (swap_front_back vs, swap_front_back ns) else (vs, ns) in
  Facet vs ns [::] [::] (nseq dimension_ 0) 0.

(** The cone constructor [facet(_dimension, _vertices, _against, _apex, _neighbour)]
    and [reuse]. *)
Definition facet_cone (vs : seq point) (against : nat) (apex : point)
    (neighbour : nat) : facet :=
  Facet (set_nth nil_point vs against apex)
        (set_nth 0%N (nseq dimension_ 0%N) against neighbour)
        [::] [::] (nseq dimension_ 0) 0.

Definition reuse (fc : facet) (vs : seq point) (against : nat) (apex : point)
    (neighbour : nat) : facet :=
  Facet (set_nth nil_point vs against apex)
        (set_nth 0%N (neighbours_ fc) against neighbour)
        (outside_ fc) (coplanar_ fc) (normal_ fc) (D fc).

(** [facet::distance] *)
Definition distance (fc : facet) (p : vector) : F :=
  inner_product (normal_ fc) p (D fc).

Definition cos_of_dihedral_angle (this that : facet) : F :=
  inner_product (normal_ this) (normal_ that) 0.

(** ** The linear-algebra kernel *)

Definition matrix_transpose (sm : matrix) : matrix :=
  for_loop 0 dimension_ (fun r sm =>
    for_loop r.+1 dimension_ (fun c sm =>
      let x := mget sm c r in
      let y := mget sm r c in
      mset (mset sm c r y) r c x) sm) sm.

Definition matrix_restore (identity : nat) (m sm : matrix) : matrix :=
  for_loop 0 dimension_ (fun c m =>
    if c == identity then set_nth [::] m c (vfill (nth [::] m c) 1)
    else set_nth [::] m c (nth [::] sm c)) m.

(** [matrix_sqr]: entry [(r, c)] of the shadow matrix becomes the inner
    product of rows [r] and [c] of [matrix_]. *)
Definition matrix_sqr (size_ : nat) (m sm : matrix) : matrix :=
  for_loop 0 size_ (fun r sm =>
    for_loop 0 size_ (fun c sm =>
      mset sm r c (inner_product (nth [::] m r) (nth [::] m c) 0)) sm) sm.

(** [ri_.swap(_matrix[pivot])] *)
Definition swap_rows (m : matrix) (i p : nat) : matrix :=
  set_nth [::] (set_nth [::] m i (nth [::] m p)) p (nth [::] m i).

(** The pivot search of [det]: the running maximum and its row. *)
Definition find_pivot (m : matrix) (n i : nat) : F * nat :=
  for_loop i.+1 n (fun p acc =>
    let y_ := `|mget m p i| in
    if acc.1 < y_ then (y_, p) else acc) (`|mget m i i|, i).

(** The two loops of [det] over the rows below row [i]: the division of
    column [i] by [dia_] and the update of the rows. *)
Definition det_scale_column (n i : nat) (m : matrix) : matrix :=
  for_loop i.+1 n (fun j m => mset m j i (mget m j i / mget m i i)) m.

Definition det_eliminate (n i : nat) (m : matrix) : matrix :=
  for_loop i.+1 n (fun j m =>
    for_loop i.+1 n (fun k m =>
      mset m j k (mget m j k - mget m j i * mget m i k)) m) m.

(** One iteration of the outer loop of [det]; [inl] is [return zero]. *)
Definition det_step (n i : nat) (s : F * matrix) : (F * matrix) + (F * matrix) :=
  let: (det_, m) := s in
  let: (max_, pivot) := find_pivot m n i in
  if ~~ (eps < max_) then inl (0, m)
  else
    let: (det_, m) :=
      if pivot != i then (- det_, swap_rows m i pivot) else (det_, m) in
    let m := det_scale_column n i m in
    let det_ := det_ * mget m i i in
    let m := det_eliminate n i m in
    inr (det_, m).

(** [det(_matrix, _dimension)]: the value returned and the matrix left
    behind. *)
Definition det (m : matrix) (n : nat) : F * matrix :=
  match for_return (iota 0 n) (det_step n) (1, m) with
  | inl r => r
  | inr r => r
  end.

(** ** The object

    The members of [quick_hull] that the modelled functions touch.
    [ranking_] is a [std::multimap<value_type, size_type>]: the list of
    its nodes in key order, each with the identity an iterator to it
    carries; [next_node_] is the identity the next node gets.
    [ranking_meta_] is a [std::unordered_map<size_type, ranking::iterator>]:
    an association list from facet index to node identity.
    [unique_ridges_] is a [std::unordered_set<ridge, ridge_hash>]. *)

Definition ranking_node := (nat * (F * nat))%type.

Record quick_hull := QuickHull {
  matrix_ : matrix;
  shadow_matrix_ : matrix;
  facets_ : seq facet;
  removed_facets_ : seq nat;
  ranking_ : seq ranking_node;
  next_node_ : nat;
  ranking_meta_ : seq (nat * nat);
  qh_outside_ : seq point;
  unique_ridges_ : seq ridge;
  vertices_hashes_ : seq nat;
  inner_point_ : vector
}.

Definition set_matrices (st : quick_hull) (m sm : matrix) : quick_hull :=
  QuickHull m sm (facets_ st) (removed_facets_ st) (ranking_ st)
    (next_node_ st) (ranking_meta_ st) (qh_outside_ st) (unique_ridges_ st)
    (vertices_hashes_ st) (inner_point_ st).

Definition set_facets_ (st : quick_hull) (fs : seq facet) : quick_hull :=
  QuickHull (matrix_ st) (shadow_matrix_ st) fs (removed_facets_ st)
    (ranking_ st) (next_node_ st) (ranking_meta_ st) (qh_outside_ st)
    (unique_ridges_ st) (vertices_hashes_ st) (inner_point_ st).

Definition set_removed_facets_ (st : quick_hull) (rf : seq nat) : quick_hull :=
  QuickHull (matrix_ st) (shadow_matrix_ st) (facets_ st) rf
    (ranking_ st) (next_node_ st) (ranking_meta_ st) (qh_outside_ st)
    (unique_ridges_ st) (vertices_hashes_ st) (inner_point_ st).

Definition set_ranking (st : quick_hull) (rk : seq ranking_node) (nx : nat)
    (meta : seq (nat * nat)) : quick_hull :=
  QuickHull (matrix_ st) (shadow_matrix_ st) (facets_ st) (removed_facets_ st)
    rk nx meta (qh_outside_ st) (unique_ridges_ st) (vertices_hashes_ st)
    (inner_point_ st).

Definition set_qh_outside_ (st : quick_hull) (o : seq point) : quick_hull :=
  QuickHull (matrix_ st) (shadow_matrix_ st) (facets_ st) (removed_facets_ st)
    (ranking_ st) (next_node_ st) (ranking_meta_ st) o (unique_ridges_ st)
    (vertices_hashes_ st) (inner_point_ st).

Definition set_ridges (st : quick_hull) (rs : seq ridge) (vh : seq nat) : quick_hull :=
  QuickHull (matrix_ st) (shadow_matrix_ st) (facets_ st) (removed_facets_ st)
    (ranking_ st) (next_node_ st) (ranking_meta_ st) (qh_outside_ st) rs vh
    (inner_point_ st).

Definition set_inner_point_ (st : quick_hull) (p : vector) : quick_hull :=
  QuickHull (matrix_ st) (shadow_matrix_ st) (facets_ st) (removed_facets_ st)
    (ranking_ st) (next_node_ st) (ranking_meta_ st) (qh_outside_ st)
    (unique_ridges_ st) (vertices_hashes_ st) p.

(** The state the constructor [quick_hull(_dimension, _eps)] leaves. *)
Definition quick_hull_init : quick_hull :=
  QuickHull (nseq dimension_ (nseq dimension_ 0))
            (nseq dimension_ (nseq dimension_ 0))
            [::] [::] [::] 0%N [::] [::] [::] (nseq dimension_ 0%N)
            (nseq dimension_ 0).

(** ** The hyperplane fitter

    [set_hyperplane_equation(_facet)]: the matrices and the facet are
    taken and given back.  [_facet.vertices_[r]] is read for
    [r < dimension_]. *)
Definition load_vertices (vs : seq point) (sm : matrix) : matrix :=
  for_loop 0 dimension_ (fun r sm =>
    set_nth [::] sm r
      (copy_n (coords (nth nil_point vs r)) dimension_ (nth [::] sm r))) sm.

Definition set_hyperplane_equation (m sm : matrix) (fc : facet)
    : matrix * matrix * facet :=
  let sm := load_vertices (vertices_ fc) sm in
  let sm := matrix_transpose sm in
  let m := sm in
  let: (d0, m) := det m dimension_ in
  let D0 := - d0 in
  let: (m, normal, N) :=
    for_loop 0 dimension_ (fun i acc =>
      let: (m, normal, N) := acc in
      let m := matrix_restore i m sm in
      let: (n, m) := det m dimension_ in
      (m, set_nth 0 normal i n, N + n * n)) (m, normal_ fc, 0) in
  let N := sqrtF N in
  (m, sm, set_equation fc (vdiv normal N) (D0 / N)).

(** ** The affine-basis selector *)

(** [orthonormalize(_affine_space, _rank, _origin)] works on
    [shadow_matrix_].  In [orthonormalize_step], [inl sm] is [return false]
    with the shadow matrix as it is at that point. *)
Definition orthonormalize_step (rank i : nat) (sm : matrix) : matrix + matrix :=
  let norm_ :=
    for_loop i dimension_ (fun j norm_ => norm_ + mget sm i j * mget sm i j) 0 in
  let norm_ := sqrtF norm_ in
  if ~~ (eps < norm_) then inl sm
  else
    let sign_ := 0 < mget sm i i in
    let factor_ := norm_ * (norm_ + (if sign_ then mget sm i i else - mget sm i i)) in
    if ~~ (eps < factor_) then inl sm
    else
      let factor_ := 1 / sqrtF factor_ in
      let sm :=
        if sign_ then mset sm i i (mget sm i i + norm_)
        else mset sm i i (mget sm i i - norm_) in
      let sm :=
        for_loop i dimension_ (fun k sm => mset sm i k (mget sm i k * factor_)) sm in
      let sm :=
        for_loop i.+1 rank (fun j sm =>
          let s_ :=
            for_loop i dimension_ (fun k s_ => s_ + mget sm i k * mget sm j k) 0 in
          for_loop i dimension_ (fun k sm =>
            mset sm j k (mget sm j k - mget sm i k * s_)) sm) sm in
      inr sm.

Definition orthonormalize (affine_space : seq point) (rank : nat)
    (origin : vector) (sm : matrix) : bool * matrix :=
  let sm :=
    for_loop 0 rank (fun r sm =>
      let row_ :=
        copy_n (coords (nth nil_point affine_space r)) dimension_ (nth [::] sm r) in
      set_nth [::] sm r (vsub row_ origin)) sm in
  match for_return (iota 0 rank) (orthonormalize_step rank) sm with
  | inl sm => (false, sm)
  | inr sm => (true, sm)
  end.

(** [forward_transformation(_rank)]: [j] runs from [_rank - 1] down to 0. *)
Definition forward_transformation (rank : nat) (m sm : matrix) : matrix :=
  for_loop 0 rank (fun i m =>
    let m := set_nth [::] m i (vfill (nth [::] m i) 0) in
    let m := mset m i i 1 in
    foldl (fun m j =>
      let s_ :=
        for_loop j dimension_ (fun k s_ => s_ + mget sm j k * mget m i k) 0 in
      for_loop j dimension_ (fun k m =>
        mset m i k (mget m i k - mget sm j k * s_)) m) m (rev (iota 0 rank))) m.

(** [steal_best(_basis)].  [origin_] is [matrix_[rank_]], [apex_] is
    [shadow_matrix_.front()] and [projection_] is [shadow_matrix_.back()];
    they are read and written through the matrices, as the references
    are.  [furthest] is the position in [outside_] the iterator stands at.
    The result is the flag returned, the object and the basis. *)
Definition steal_best_scan (rank_ : nat) (m : matrix)
    (acc : matrix * F * option nat) (ip : nat * point) : matrix * F * option nat :=
  let: (sm, distance_, furthest) := acc in
  let back := (size sm).-1 in
  let sm := set_nth [::] sm 0 (copy_n (coords ip.2) dimension_ (nth [::] sm 0)) in
  let sm := set_nth [::] sm 0 (vsub (nth [::] sm 0) (nth [::] m rank_)) in
  let sm := set_nth [::] sm back (nth [::] sm 0) in
  let sm :=
    for_loop 0 rank_ (fun i sm =>
      let qi_ := nth [::] m i in
      set_nth [::] sm back
        (vsub (nth [::] sm back)
              (vscale (inner_product (nth [::] sm 0) qi_ 0) qi_))) sm in
  let sm := set_nth [::] sm back (vmul (nth [::] sm back) (nth [::] sm back)) in
  let d_ := sqrtF (vsum (nth [::] sm back)) in
  if distance_ < d_ then (sm, d_, Some ip.1) else (sm, distance_, furthest).

Definition steal_best (st : quick_hull) (basis : seq point)
    : bool * quick_hull * seq point :=
  let rank_ := (size basis).-1 in
  let m :=
    set_nth [::] (matrix_ st) rank_
      (copy_n (coords (last nil_point basis)) dimension_
              (nth [::] (matrix_ st) rank_)) in
  let: (ok, sm) :=
    orthonormalize basis rank_ (nth [::] m rank_) (shadow_matrix_ st) in
  if ~~ ok then (false, set_matrices st m sm, basis)
  else
    let m := forward_transformation rank_ m sm in
    let out := qh_outside_ st in
    let: (sm, _, furthest) :=
      foldl (steal_best_scan rank_ m) (sm, 0, None)
            (zip (iota 0 (size out)) out) in
    let st := set_matrices st m sm in
    if furthest is Some k then
      (true, set_qh_outside_ st (take k out ++ drop k.+1 out),
       rcons basis (nth nil_point out k))
    else (false, st, basis).

(** ** The facet store *)

Definition add_facet (st : quick_hull) (vs : seq point) (against : nat)
    (apex : point) (neighbour : nat) : quick_hull * nat :=
  if removed_facets_ st is [::] then
    let f := size (facets_ st) in
    (set_facets_ st (rcons (facets_ st) (facet_cone vs against apex neighbour)), f)
  else
    let f := last 0%N (removed_facets_ st) in
    let st' := set_removed_facets_ st (take (size (removed_facets_ st)).-1 (removed_facets_ st)) in
    (set_facets_ st'
       (set_nth facet0 (facets_ st) f
          (reuse (nth facet0 (facets_ st) f) vs against apex neighbour)), f).

(** ** Ranking *)

(** [ranking_.emplace(key, f)]: the new node goes before the first node
    with a larger key. *)
Fixpoint ranking_emplace (nd : ranking_node) (rk : seq ranking_node) : seq ranking_node :=
  if rk is y :: rk' then
    if nd.2.1 < y.2.1 then nd :: rk else y :: ranking_emplace nd rk'
  else [:: nd].

(** [ranking_.erase(it)] *)
Definition ranking_erase (it : nat) (rk : seq ranking_node) : seq ranking_node :=
  [seq nd <- rk | nd.1 != it].

(** [ranking_meta_.find], [emplace] (which leaves an entry already there
    alone) and [erase]. *)
Definition meta_find (f : nat) (meta : seq (nat * nat)) : option nat :=
  if [seq e <- meta | e.1 == f] is e :: _ then Some e.2 else None.

Definition meta_emplace (f it : nat) (meta : seq (nat * nat)) : seq (nat * nat) :=
  if meta_find f meta is Some _ then meta else rcons meta (f, it).

Definition meta_erase (f : nat) (meta : seq (nat * nat)) : seq (nat * nat) :=
  [seq e <- meta | e.1 != f].

Definition rank (orientation : F) (f : nat) (st : quick_hull) : quick_hull :=
  if eps < orientation then
    let it := next_node_ st in
    set_ranking st (ranking_emplace (it, (orientation, f)) (ranking_ st))
                it.+1 (meta_emplace f it (ranking_meta_ st))
  else st.

Definition unrank (f : nat) (st : quick_hull) : quick_hull :=
  let st :=
    if meta_find f (ranking_meta_ st) is Some it then
      set_ranking st (ranking_erase it (ranking_ st)) (next_node_ st)
                  (meta_erase f (ranking_meta_ st))
    else st in
  set_removed_facets_ st (rcons (removed_facets_ st) f).

(** [get_best_facet]: [std::prev(std::cend(ranking_))->second] *)
Definition get_best_facet (st : quick_hull) : nat :=
  (last (0%N, (0, 0%N)) (ranking_ st)).2.2.

(** ** The partitioner

    [partition(_facet)] walks [outside_]; a point spliced out leaves the
    list, a point left in place stays, in order.  The result is the value
    returned, the facet and the [outside_] list left behind. *)
Definition partition_step (acc : F * facet * seq point) (it : point)
    : F * facet * seq point :=
  let: (distance_, fc, rest) := acc in
  let d_ := distance fc (coords it) in
  if eps < d_ then
    if distance_ < d_ then (d_, set_outside_ fc (it :: outside_ fc), rest)
    else (distance_, set_outside_ fc (rcons (outside_ fc) it), rest)
  else if ~~ (d_ < - eps) then
    (distance_, set_coplanar_ fc (rcons (coplanar_ fc) it), rcons rest it)
  else (distance_, fc, rcons rest it).

Definition partition (fc : facet) (outside : seq point) : F * facet * seq point :=
  foldl partition_step (0, fc, [::]) outside.

(** ** Neighbour pointers and the ridge matcher *)

(** The range-for of [replace_neighbour], which returns after the first
    entry it rewrites. *)
Fixpoint replace_first (from to : nat) (ns : seq nat) : seq nat :=
  if ns is n :: ns' then
    if n == from then to :: ns' else n :: replace_first from to ns'
  else [::].

(** [replace_neighbour(f, _from, _to)]; [facets_[f]] is undefined for an
    [f] that is no index of the store, and the store is left as it is
    then. *)
Definition replace_neighbour (fs : seq facet) (f from to : nat) : seq facet :=
  if (from != to) && (f < size fs)%N then
    let fc := nth facet0 fs f in
    set_nth facet0 fs f (set_neighbours_ fc (replace_first from to (neighbours_ fc)))
  else fs.

(** [ridge::operator ==] *)
Definition ridge_eq (fs : seq facet) (lhs rhs : ridge) : bool :=
  let lvs := vertices_ (nth facet0 fs (ridge_f lhs)) in
  let rvs := vertices_ (nth facet0 fs (ridge_f rhs)) in
  let lskip := nth nil_point lvs (ridge_v lhs) in
  let rskip := nth nil_point rvs (ridge_v rhs) in
  all (fun l =>
         if l != lskip then has (fun r => (r != rskip) && (l == r)) rvs
         else true) lvs.

(** [unique_ridges_.insert(x)] looks for a stored record equivalent to
    [x]: one with the hash of [x] that [operator ==] identifies with
    [x]. *)
Definition ridge_lookup (fs : seq facet) (rs : seq ridge) (x : ridge) : option ridge :=
  if [seq y <- rs | (hash_ y == hash_ x) && ridge_eq fs x y] is y :: _
  then Some y else None.

(** The body of the second loop of [find_adjacent_facets] for one [v]. *)
Definition match_ridge (f v h : nat) (st : quick_hull) : quick_hull :=
  let x := Ridge f v h in
  if ridge_lookup (facets_ st) (unique_ridges_ st) x is Some y then
    let fs := facets_ st in
    let fy := nth facet0 fs (ridge_f y) in
    let fs := set_nth facet0 fs (ridge_f y)
                (set_neighbours_ fy (set_nth 0%N (neighbours_ fy) (ridge_v y) f)) in
    let fx := nth facet0 fs f in
    let fs := set_nth facet0 fs f
                (set_neighbours_ fx (set_nth 0%N (neighbours_ fx) v (ridge_f y))) in
    set_ridges (set_facets_ st fs) (rem y (unique_ridges_ st)) (vertices_hashes_ st)
  else set_ridges st (rcons (unique_ridges_ st) x) (vertices_hashes_ st).

Definition find_adjacent_facets (f skip : nat) (st : quick_hull) : quick_hull :=
  let vs := vertices_ (nth facet0 (facets_ st) f) in
  let: (vh, ridge_hash_) :=
    for_loop 0 dimension_ (fun v acc =>
      if v != skip then
        let h := point_hash_ (nth nil_point vs v) in
        (set_nth 0%N acc.1 v h, Nat.lxor acc.2 h)
      else acc) (vertices_hashes_ st, 0%N) in
  let st := set_ridges st (unique_ridges_ st) vh in
  for_loop 0 dimension_ (fun v st =>
    if v != skip then match_ridge f v (Nat.lxor ridge_hash_ (nth 0%N vh v)) st
    else st) st.

(** ** Hypervolume

    [hypervolume(first, last)]: the points of [[first, last)] are [first],
    the point [last] stands at is [lastp]. *)
Definition load_differences (first : seq point) (origin_ : vector) (m : matrix) : matrix :=
  for_loop 0 (size first) (fun r m =>
    let row_ := copy_n (coords (nth nil_point first r)) dimension_ (nth [::] m r) in
    set_nth [::] m r (vsub row_ origin_)) m.

Definition hypervolume (st : quick_hull) (first : seq point) (lastp : point)
    : F * quick_hull :=
  if first is [::] then (0, st)
  else
    let rank_ := size first in
    let sm := shadow_matrix_ st in
    let back := (size sm).-1 in
    let sm := set_nth [::] sm back (copy_n (coords lastp) dimension_ (nth [::] sm back)) in
    let m := load_differences first (nth [::] sm back) (matrix_ st) in
    if rank_ == dimension_ then
      let: (v, m) := det m dimension_ in (v, set_matrices st m sm)
    else
      let sm := matrix_sqr rank_ m sm in
      let: (v, sm) := det sm rank_ in
      (sqrtF v, set_matrices st m sm).

(** ** The driver: affine basis and initial simplex *)

(** [get_affine_basis]; the first component lists what the calls of
    [steal_best] returned, in order.  [outside_] must not be empty (the
    first splice is undefined otherwise; the model returns an empty
    basis). *)
Definition steal_best_logged (acc : seq bool * quick_hull * seq point)
    : (seq bool * quick_hull * seq point) + (seq bool * quick_hull * seq point) :=
  let: (log, st, basis) := acc in
  let: (ok, st, basis) := steal_best st basis in
  if ~~ ok then inl (rcons log ok, st, basis) else inr (rcons log ok, st, basis).

Definition get_affine_basis_run (st : quick_hull) : seq bool * quick_hull * seq point :=
  if qh_outside_ st is p :: out then
    let basis_ := [:: p] in
    let st := set_qh_outside_ st out in
    match steal_best_logged ([::], st, basis_) with
    | inl r => r
    | inr (log, st, basis_) =>
      let st := set_qh_outside_ st (head nil_point basis_ :: qh_outside_ st) in
      let basis_ := behead basis_ in
      match for_return (iota 0 dimension_) (fun _ => steal_best_logged)
                       (log, st, basis_) with
      | inl r => r
      | inr r => r
      end
    end
  else ([::], st, [::]).

Definition get_affine_basis (st : quick_hull) : seq point * quick_hull :=
  let: (_, st, basis_) := get_affine_basis_run st in (basis_, st).

(** [create_initial_simplex(first, last)] on the closed range
    [[first; last]], that is on the points [rcons first lastp].  The
    facet built in an iteration is [facets_.back()]: it is fitted and
    partitioned, and stands at the end of the store. *)
Definition centroid (first : seq point) (lastp : point) (ip : vector) : vector :=
  let ip := copy_n (coords lastp) dimension_ ip in
  let ip :=
    foldl (fun ip it =>
      for_loop 0 dimension_ (fun i ip =>
        set_nth 0 ip i (nth 0 ip i + nth 0 (coords it) i)) ip) ip first in
  vdiv ip (dimension_.+1)%:R.

Definition simplex_facet_step (simplex : seq point) (swap_ : bool) (f : nat)
    (st : quick_hull) : quick_hull :=
  let fc := facet_simplex simplex f swap_ in
  let: (m, sm, fc) := set_hyperplane_equation (matrix_ st) (shadow_matrix_ st) fc in
  let: (dist, fc, out) := partition fc (qh_outside_ st) in
  let st := set_matrices st m sm in
  let st := set_qh_outside_ st out in
  let st := set_facets_ st (rcons (facets_ st) fc) in
  rank dist f st.

Definition create_initial_simplex (st : quick_hull) (first : seq point)
    (lastp : point) : F * quick_hull :=
  let st := set_inner_point_ st (centroid first lastp (inner_point_ st)) in
  let: (volume_, st) := hypervolume st first lastp in
  let swap_ := volume_ < 0 in
  let st :=
    for_loop 0 dimension_.+1 (simplex_facet_step (rcons first lastp) swap_) st in
  (volume_, set_qh_outside_ st [::]).

(** ** Further members *)

(** [add_points(beg, end)]: the handles of the range are appended to
    [outside_], in order. *)
Definition add_points (ps : seq point) (st : quick_hull) : quick_hull :=
  set_qh_outside_ st (qh_outside_ st ++ ps).

(** [check_local_convexity(facet_, f)].  In the loop over the positions
    of a neighbour, [inl false] is [return false] and [inl true] is
    [break]; in the loop over the neighbours, [inl false] is
    [return false]. *)
Definition opposite_vertex_step (fc nb : facet) (f v : nat) (s : unit)
    : bool + unit :=
  if nth 0%N (neighbours_ nb) v == f then
    let distance_ := distance fc (coords (nth nil_point (vertices_ nb) v)) in
    if eps < distance_ then inl false else inl true
  else inr s.

Definition check_neighbour (fs : seq facet) (fc : facet) (f n : nat) (s : unit)
    : bool + unit :=
  let neighbour_ := nth facet0 fs n in
  if cos_of_dihedral_angle fc neighbour_ < 1 then
    match for_return (iota 0 dimension_) (opposite_vertex_step fc neighbour_ f) s with
    | inl false => inl false
    | inl true => inr s
    | inr s => inr s
    end
  else inr s.

Definition check_local_convexity (fs : seq facet) (fc : facet) (f : nat) : bool :=
  match for_return (neighbours_ fc) (check_neighbour fs fc f) tt with
  | inl b => b
  | inr _ => true
  end.

(** [compactify].  [std::sort] on the reverse range leaves
    [removed_facets_] in descending order.  In an iteration [source] is
    decremented first; the facet at the back is moved to [destination]
    (the moved-from facet at the back is dropped at the end of the
    iteration, and keeps its value until then here); the range-for over
    the neighbours of the moved facet reads the list position by position
    while [replace_neighbour] runs; the node of the ranking that holds
    [source] is retargeted and its entry of the side index is re-keyed. *)
Definition pop_back (T : Type) (s : seq T) : seq T := take (size s).-1 s.

Definition ranking_retarget (it destination : nat) (rk : seq ranking_node)
    : seq ranking_node :=
  [seq if nd.1 == it then (nd.1, (nd.2.1, destination)) else nd | nd <- rk].

Definition compactify_step (acc : quick_hull * nat) (destination : nat)
    : quick_hull * nat :=
  let: (st, source) := acc in
  let source := source.-1 in
  let st :=
    if destination != source then
      let fs := set_nth facet0 (facets_ st) destination (last facet0 (facets_ st)) in
      let fs :=
        for_loop 0 (size (neighbours_ (nth facet0 fs destination))) (fun k fs =>
          replace_neighbour fs (nth 0%N (neighbours_ (nth facet0 fs destination)) k)
            source destination) fs in
      let st := set_facets_ st fs in
      if meta_find source (ranking_meta_ st) is Some it then
        set_ranking st (ranking_retarget it destination (ranking_ st))
          (next_node_ st)
          (meta_erase source (meta_emplace destination it (ranking_meta_ st)))
      else st
    else st in
  (set_facets_ st (pop_back (facets_ st)), source).

Definition compactify (st : quick_hull) : quick_hull :=
  let removed := sort geq (removed_facets_ st) in
  let: (st, _) := foldl compactify_step (st, size (facets_ st)) removed in
  set_removed_facets_ st [::].

(** ** Vocabulary of the specification *)

(** The [(distance, facet)] pairs the ranking multimap holds, the facet
    indices among them, and the pairs the side index describes: an entry
    [(f, it)] stands for [(it->first, f)]. *)
Definition ranking_pairs (st : quick_hull) : seq (F * nat) :=
  [seq nd.2 | nd <- ranking_ st].

Definition ranked_facets (st : quick_hull) : seq nat :=
  [seq nd.2.2 | nd <- ranking_ st].

Definition node_deref (st : quick_hull) (it : nat) : F * nat :=
  if [seq nd <- ranking_ st | nd.1 == it] is nd :: _ then nd.2 else (0, 0%N).

Definition meta_pairs (st : quick_hull) : seq (F * nat) :=
  [seq ((node_deref st e.2).1, e.1) | e <- ranking_meta_ st].

(** The states [rank] and [unrank] lead to from an empty ranking, [rank]
    being called only for a facet index the ranking does not hold. *)
Inductive ranking_reachable : quick_hull -> Prop :=
| reachable_empty st :
    ranking_ st = [::] -> ranking_meta_ st = [::] -> ranking_reachable st
| reachable_rank st o f :
    ranking_reachable st -> f \notin ranked_facets st ->
    ranking_reachable (rank o f st)
| reachable_unrank st f :
    ranking_reachable st -> ranking_reachable (unrank f st).

(** The handles of a ridge: the vertices of its facet with the omitted
    one left out.  A record is well formed when it designates a facet of
    the store with [dimension_] distinct vertices and one of its
    positions. *)
Definition ridge_vertices (fs : seq facet) (r : ridge) : seq point :=
  let vs := vertices_ (nth facet0 fs (ridge_f r)) in
  take (ridge_v r) vs ++ drop (ridge_v r).+1 vs.

Definition ridge_wf (fs : seq facet) (r : ridge) : bool :=
  let vs := vertices_ (nth facet0 fs (ridge_f r)) in
  [&& (ridge_f r < size fs)%N, size vs == dimension_,
      (ridge_v r < dimension_)%N & uniq vs].

(** The matching rule of the specification: equal hashes and equal
    multisets of handles. *)
Definition ridge_match (fs : seq facet) (x y : ridge) : bool :=
  (hash_ y == hash_ x) && perm_eq (ridge_vertices fs x) (ridge_vertices fs y).

(** Two states that differ at most in the working matrices and the pool
    of outside points. *)
Definition same_hull (st st' : quick_hull) : Prop :=
  [/\ facets_ st' = facets_ st /\ removed_facets_ st' = removed_facets_ st,
      ranking_ st' = ranking_ st /\ next_node_ st' = next_node_ st,
      ranking_meta_ st' = ranking_meta_ st,
      unique_ridges_ st' = unique_ridges_ st /\
      vertices_hashes_ st' = vertices_hashes_ st
    & inner_point_ st' = inner_point_ st].

(** A sequence with its first and last entries exchanged. *)
Definition exchange_ends (T : Type) (s : seq T) : seq T :=
  if s is x :: s' then
    if s' is [::] then s else last x s' :: rcons (behead (belast x s')) x
  else s.


(** The [k] by [k] block of a stored matrix that starts at the diagonal
    entry [i], as a matrix of the algebra library; [block_of m 0 n] is the
    leading block [det] works on. *)
Definition block_of (m : matrix) (i k : nat) : 'M[F]_k :=
  \matrix_(a < k, b < k) mget m (i + a) (i + b).

(** A matrix with row [i] replaced by ones: the matrix whose determinant
    is component [i] of the normal. *)
Definition ones_row n (i : 'I_n) (A : 'M[F]_n) : 'M[F]_n :=
  \matrix_(r, c) if r == i then 1 else A r c.

(** The run of [det] on the leading [n] by [n] block of [m]: the matrix
    at the start of each iteration that is entered, with its index.  An
    iteration is regular when the maximum absolute value of its column, at
    and below the diagonal, exceeds [eps]; it exchanges rows when the
    pivot row is not the diagonal row; its pivot is the entry of the pivot
    row in the column. *)
Definition active_column_max (m : matrix) (n i : nat) : F :=
  foldr Num.max 0 [seq `|mget m p i| | p <- iota i (n - i)].

Fixpoint det_states (n : nat) (js : seq nat) (m : matrix) : seq (nat * matrix) :=
  if js is i :: js' then
    (i, m) :: (if det_step n i (1, m) is inr (_, m') then det_states n js' m'
               else [::])
  else [::].

Definition step_regular (n : nat) (s : nat * matrix) : bool :=
  eps < active_column_max s.2 n s.1.

Definition step_swaps (n : nat) (s : nat * matrix) : bool :=
  (find_pivot s.2 n s.1).2 != s.1.

Definition step_pivot (n : nat) (s : nat * matrix) : F :=
  mget s.2 (find_pivot s.2 n s.1).2 s.1.

(** [det] declares the block singular when it leaves through
    [return zero]. *)
Definition det_singular (m : matrix) (n : nat) : bool :=
  if for_return (iota 0 n) (det_step n) (1, m) is inl _ then true else false.

(** The working matrices as the constructor leaves them: [dimension_]
    rows of [dimension_] entries. *)
Definition matrix_wf (m : matrix) : bool :=
  (size m == dimension_) && all (fun row => size row == dimension_) m.

(** The matrices of the hyperplane fit.  [vertex_matrix vs] has the
    vertices as columns: its entry [(r, c)] is coordinate [r] of vertex
    [c].  The fit takes the determinant of this matrix and, for each axis
    [i], of the matrix with row [i] replaced by ones. *)
Definition vertex_matrix (vs : seq point) : matrix :=
  mkseq (fun r =>
    mkseq (fun c => nth 0 (coords (nth nil_point vs c)) r) dimension_)
    dimension_.

Definition with_ones_row (V : matrix) (i : nat) : matrix :=
  set_nth [::] V i (nseq dimension_ 1).

Definition fit_matrices (vs : seq point) : seq matrix :=
  vertex_matrix vs ::
  [seq with_ones_row (vertex_matrix vs) i | i <- iota 0 dimension_].

(** The normal and the offset before they are divided by the norm, and
    the number whose square root is taken. *)
Definition fit_normal (vs : seq point) : vector :=
  [seq (det (with_ones_row (vertex_matrix vs) i) dimension_).1
  | i <- iota 0 dimension_].

Definition fit_offset (vs : seq point) : F :=
  - (det (vertex_matrix vs) dimension_).1.

Definition fit_sq_norm (vs : seq point) : F :=
  foldl (fun N n => N + n * n) 0 (fit_normal vs).

(** Every determinant of the fit that [det] declares singular is zero. *)
Definition fit_exact (vs : seq point) : bool :=
  all (fun M => if det_singular M dimension_
                then \det (block_of M 0 dimension_) == 0 else true)
      (fit_matrices vs).

(** The vertices [vs] and the point [p] are affinely independent: the
    vectors from [p] to the vertices are linearly independent. *)
Definition difference_mx (p : vector) (vs : seq point) : 'M[F]_dimension_ :=
  \matrix_(j, r) (nth 0 (coords (nth nil_point vs j)) r - nth 0 p r).

Definition affinely_independent (p : vector) (vs : seq point) : bool :=
  row_free (difference_mx p vs).

(** The vectors [hypervolume] works on: one row for each point of the
    range, the point minus the origin on the [dimension_] coordinates, and
    the matrix of their pairwise inner products. *)
Definition difference_rows (first : seq point) (lastp : point) : matrix :=
  [seq [seq nth 0 (coords p) k - nth 0 (coords lastp) k | k <- iota 0 dimension_]
  | p <- first].

Definition dot (u v : vector) : F :=
  \sum_(k < dimension_) nth 0 u k * nth 0 v k.

Definition gram_matrix (rows : matrix) : matrix :=
  [seq [seq dot u v | v <- rows] | u <- rows].

(** ** Notions of the proofs *)

(** The matrix [det] goes on with after the iteration for column [i]:
    rows exchanged, column [i] divided, the rows below updated. *)
Definition det_next (n i : nat) (m : matrix) : matrix :=
  let pivot := (find_pivot m n i).2 in
  let ms := if pivot != i then swap_rows m i pivot else m in
  det_eliminate n i (det_scale_column n i ms).

(** Two stored matrices with the same leading [n] by [n] block. *)
Definition block_eq (n : nat) (m1 m2 : matrix) : Prop :=
  forall r c, (r < n)%N -> (c < n)%N -> mget m1 r c = mget m2 r c.

(** The vectors from [p] to the vertices as a stored matrix, one row for
    each vertex. *)
Definition difference_list (p : vector) (vs : seq point) : matrix :=
  mkseq (fun j =>
    mkseq (fun r => nth 0 (coords (nth nil_point vs j)) r - nth 0 p r)
      dimension_)
    dimension_.

(** Node identities paired with facet indices, on both sides. *)
Definition ranking_links (st : quick_hull) : seq (nat * nat) :=
  [seq (nd.1, nd.2.2) | nd <- ranking_ st].

Definition meta_links (st : quick_hull) : seq (nat * nat) :=
  [seq (e.2, e.1) | e <- ranking_meta_ st].

Definition ranking_inv (st : quick_hull) : Prop :=
  [/\ perm_eq (ranking_links st) (meta_links st),
      uniq [seq nd.1 | nd <- ranking_ st],
      all (fun nd => nd.1 < next_node_ st)%N (ranking_ st)
    & uniq (ranked_facets st)].

(** The difference vectors of [hypervolume] as a matrix of the algebra
    library: row [i] is point [i] of the range minus the origin. *)
Definition difference_block (first : seq point) (lastp : point) (r : nat)
    : 'M[F]_(r, dimension_) :=
  \matrix_(i < r, k < dimension_)
    (nth 0 (coords (nth nil_point first i)) k - nth 0 (coords lastp) k).

(** The order of the multimap: the nodes stand in the order of their
    keys. *)
Definition node_le (a b : ranking_node) : bool := a.2.1 <= b.2.1.

Definition ranking_sorted (st : quick_hull) : bool :=
  sorted node_le (ranking_ st).

(** The vertices of a facet that enter the hash of its ridge at position
    [v] when the facet is a cone with apex position [skip], and the hash:
    the exclusive or of their hashes. *)
Definition ridge_rest (vs : seq point) (skip v : nat) : seq point :=
  [seq nth nil_point vs u | u <- iota 0 dimension_ & (u != skip) && (u != v)].

Definition xor_all (hs : seq nat) : nat := foldr Nat.lxor 0%N hs.

Definition ridge_key (vs : seq point) (skip v : nat) : nat :=
  xor_all [seq point_hash_ p | p <- ridge_rest vs skip v].

(** A point that lies above a facet by more than the tolerance. *)
Definition above (fc : facet) (p : point) : bool :=
  eps < distance fc (coords p).

(** What the loop of [create_initial_simplex] keeps: [fcs] are the
    facets appended so far and [pool] is the pool before the loop. *)
Definition simplex_inv (facets0 : seq facet) (pool : seq point) (k : nat)
    (t : quick_hull) : Prop :=
  exists fcs,
    [/\ facets_ t = facets0 ++ fcs, size fcs = k,
        qh_outside_ t = [seq p <- pool | ~~ has (above^~ p) fcs],
        perm_eq (flatten [seq outside_ fc | fc <- fcs] ++ qh_outside_ t) pool
      & forall j, (j < size fcs)%N ->
          all (fun p => above (nth facet0 fcs j) p &&
                        ~~ has (above^~ p) (take j fcs))
              (outside_ (nth facet0 fcs j))].

(** A facet without its neighbour pointers, and the facets of a store
    that the free list does not hold, in the order of their indices. *)
Definition facet_body (fc : facet)
    : seq point * seq point * seq point * vector * F :=
  (vertices_ fc, outside_ fc, coplanar_ fc, normal_ fc, D fc).

Definition kept_bodies (fs : seq facet) (removed : seq nat) :=
  [seq facet_body (nth facet0 fs i) | i <- iota 0 (size fs) & i \notin removed].

(** The distance [steal_best] computes for a pool point: the point minus
    the origin (row [rank_] of [matrix_]), with its components along the
    rows [0 .. rank_ - 1] of [matrix_] taken off one after the other. *)
Definition projection_distance (rank_ : nat) (m : matrix) (p : point) : F :=
  let apex := vsub (take dimension_ (coords p)) (nth [::] m rank_) in
  let proj :=
    foldl (fun pr i =>
             vsub pr (vscale (inner_product apex (nth [::] m i) 0) (nth [::] m i)))
          apex (iota 0 rank_) in
  sqrtF (vsum (vmul proj proj)).

(** ** Arithmetic on indices

    [nat_lia] turns the boolean comparisons of the context into
    propositions and calls [lia]. *)

Ltac nat_norm :=
  repeat match goal with
  | H : is_true (leq _ _) |- _ => move/ssrnat.leP: H => H
  | H : leq _ _ = false |- _ => move/negbT: H; rewrite -ltnNge => /ssrnat.leP H
  | H : is_true (@eq_op _ _ _) |- _ => move/eqP: H => H
  | H : @eq_op _ _ _ = false |- _ => move/eqP: H => H
  | H : is_true (~~ (leq _ _)) |- _ => move: H; rewrite -ltnNge => /ssrnat.leP H
  | H : is_true (~~ (@eq_op _ _ _)) |- _ => move/eqP: H => H
  | H : is_true (_ && _) |- _ =>
      let h1 := fresh "h" in let h2 := fresh "h" in case/andP: H => h1 h2
  end.

Ltac nat_lia := nat_norm; rewrite -?plusE -?minusE -?multE; lia.

(** [nat_if] decides the comparisons of the goal that follow from the
    context; [nat_cases] splits on the order of two indices. *)
Ltac nat_atom :=
  match goal with
  | |- context [leq ?x ?y] =>
      first [ have -> : leq x y = true by apply/ssrnat.leP; nat_lia
            | have -> : leq x y = false
                by apply/negbTE; rewrite -ltnNge; apply/ssrnat.leP; nat_lia ]
  | |- context [@eq_op _ ?x ?y] =>
      first [ have -> : (x == y) = true by apply/eqP; nat_lia
            | have -> : (x == y) = false by apply/eqP; nat_lia ]
  end.

Ltac nat_if := repeat nat_atom; rewrite /=.

Ltac nat_cases x y :=
  let h := fresh "h" in case: (ltngtP x y) => [h|h|h] //=.

Ltac nat_done := nat_if; first [done | congruence | exfalso; nat_lia].

(** ** Loops: unfolding and invariants *)

Lemma for_return_cons (S R : Type) i js (body : nat -> S -> R + S) s :
  for_return (i :: js) body s =
  match body i s with inl r => inl r | inr s' => for_return js body s' end.
Proof. by []. Qed.

Lemma for_loop_nil (S : Type) lo hi (body : nat -> S -> S) s :
  (hi <= lo)%N -> for_loop lo hi body s = s.
Proof. by rewrite /for_loop -subn_eq0 => /eqP->. Qed.

Lemma for_loop_first (S : Type) lo hi (body : nat -> S -> S) s :
  (lo < hi)%N -> for_loop lo hi body s = for_loop lo.+1 hi body (body lo s).
Proof. by move=> lt; rewrite /for_loop subnS -[(hi - lo)%N]prednK ?subn_gt0. Qed.

Lemma for_loop_last (S : Type) lo hi (body : nat -> S -> S) s :
  (lo <= hi)%N -> for_loop lo hi.+1 body s = body hi (for_loop lo hi body s).
Proof.
move=> le; rewrite /for_loop subSn // -addn1 iotaD foldl_cat /=.
by rewrite subnKC.
Qed.

(** The invariant rule of a [for] loop. *)
Lemma for_loop_ind (S : Type) (P : nat -> S -> Prop) lo hi
    (body : nat -> S -> S) s :
  (lo <= hi)%N -> P lo s ->
  (forall i t, (lo <= i < hi)%N -> P i t -> P i.+1 (body i t)) ->
  P hi (for_loop lo hi body s).
Proof.
move=> le P0 step; elim: hi le step => [|hi IH].
  by rewrite leqn0 => /eqP e; rewrite e in P0 *.
rewrite leq_eqVlt => /orP[/eqP e|]; first by rewrite -e for_loop_nil.
rewrite ltnS => le step; rewrite for_loop_last //.
apply: (step); first by rewrite le ltnSn.
by apply: IH => // i t /andP[le1 lt1]; apply: step; rewrite le1 ltnW.
Qed.

(** ** Matrices: entries after the in-place updates *)

Lemma mget_mset m r c x r' c' :
  mget (mset m r c x) r' c' =
  if (r' == r) && (c' == c) then x else mget m r' c'.
Proof.
rewrite /mget /mset nth_set_nth /=; case: eqP => [->|_] //=.
by rewrite nth_set_nth /=.
Qed.

Lemma mget_swap_rows m i p r c :
  mget (swap_rows m i p) r c =
  mget m (if r == p then i else if r == i then p else r) c.
Proof.
rewrite /mget /swap_rows nth_set_nth /=; case: eqP => // _.
by rewrite nth_set_nth /=; case: eqP.
Qed.

Lemma for_loop_ext (S : Type) lo hi (b1 b2 : nat -> S -> S) s :
  (forall j t, (lo <= j < hi)%N -> b1 j t = b2 j t) ->
  for_loop lo hi b1 s = for_loop lo hi b2 s.
Proof.
move=> e; case: (leqP lo hi) => [le|/ltnW lt]; last by rewrite !for_loop_nil.
elim: hi le e => [|hi IH].
  by rewrite leqn0 => /eqP-> _; rewrite !for_loop_nil.
rewrite leq_eqVlt => /orP[/eqP<- _|]; first by rewrite !for_loop_nil.
rewrite ltnS => le e; rewrite !for_loop_last // IH //.
  by move=> j t /andP[l1 l2]; apply: e; rewrite l1 ltnW.
by apply: e; rewrite le ltnSn.
Qed.

(** The pivot search. *)

Lemma find_pivot_spec m n i :
  (i < n)%N ->
  let: (max_, pivot) := find_pivot m n i in
  [/\ (i <= pivot < n)%N, max_ = `|mget m pivot i|
    & forall p, (i <= p < n)%N -> `|mget m p i| <= max_].
Proof.
move=> ltin; rewrite /find_pivot.
pose P q (acc : F * nat) :=
  [/\ (i <= acc.2 < q)%N, acc.1 = `|mget m acc.2 i|
    & forall p, (i <= p < q)%N -> `|mget m p i| <= acc.1].
have: P n (for_loop i.+1 n (fun p acc =>
             let y_ := `|mget m p i| in if acc.1 < y_ then (y_, p) else acc)
           (`|mget m i i|, i)).
  apply: for_loop_ind => // [|q [mx pv] /andP[ltq ltqn] [/andP[le1 lt1] /= e2 e3]].
    split=> //=; first by rewrite leqnn ltnSn.
    by move=> p; rewrite ltnS -eqn_leq => /eqP<-.
  case: ltP => /= [lt|le]; split=> //=.
  - by rewrite (ltnW ltq) ltnSn.
  - move=> p /andP[le3]; rewrite ltnS leq_eqVlt => /orP[/eqP->|lt3] //.
    by apply: le_trans (ltW lt); apply: e3; rewrite le3.
  - by rewrite le1 ltnW.
  - move=> p /andP[le3]; rewrite ltnS leq_eqVlt => /orP[/eqP->|lt3] //.
    by apply: e3; rewrite le3.
by case: (for_loop _ _ _ _) => mx pv [].
Qed.

Lemma le_foldr_max (s : seq F) (x : F) :
  (foldr Num.max 0 s <= x) = (0 <= x) && all (fun y => y <= x) s.
Proof.
elim: s => [|y s IH] /=; first by rewrite andbT.
by rewrite ge_max IH andbCA.
Qed.

Lemma mem_le_foldr_max (s : seq F) (x : F) :
  x \in s -> x <= foldr Num.max 0 s.
Proof.
elim: s => [|y s IH] //=.
rewrite inE le_max => /orP[/eqP->|/IH->]; first by rewrite lexx.
by rewrite orbT.
Qed.

Lemma find_pivot_max m n i :
  (i < n)%N -> (find_pivot m n i).1 = active_column_max m n i.
Proof.
move=> ltin; move: (find_pivot_spec m ltin).
case: (find_pivot m n i) => mx pv [/andP[le1 lt1] e2 e3] /=.
apply/eqP; rewrite eq_le; apply/andP; split; last first.
  rewrite le_foldr_max e2 normr_ge0 /=; apply/allP => y /mapP[p].
  by rewrite mem_iota subnKC ?(ltnW ltin) // -e2 => /e3 le ->.
apply: mem_le_foldr_max.
by rewrite e2; apply: map_f; rewrite mem_iota subnKC ?(ltnW ltin) // le1.
Qed.

(** The division of column [i] and the update of the rows below row [i]. *)
Lemma mget_det_scale_column m n i r c :
  (i < n)%N ->
  mget (det_scale_column n i m) r c =
  if (i < r < n)%N && (c == i) then mget m r i / mget m i i else mget m r c.
Proof.
move=> ltin; rewrite /det_scale_column.
pose P q (t : matrix) := forall r c,
  mget t r c =
  if (i < r < q)%N && (c == i) then mget m r i / mget m i i else mget m r c.
suff: P n (for_loop i.+1 n (fun j m => mset m j i (mget m j i / mget m i i)) m).
  exact.
apply: for_loop_ind => // [r' c'|q t /andP[ltq ltqn] Pt r' c'].
  by rewrite ltnS; case: (ltngtP i r').
rewrite mget_mset !Pt ltnn andbF /= ltnn /= ltnS.
case: (altP (r' =P q)) => [->|ne] /=.
  by rewrite ltq leqnn ltnn andbF /=; case: (c' == i).
by rewrite [(r' <= q)%N]leq_eqVlt (negPf ne).
Qed.

Lemma mget_det_eliminate m n i r c :
  (i < n)%N ->
  mget (det_eliminate n i m) r c =
  if (i < r < n)%N && (i < c < n)%N
  then mget m r c - mget m r i * mget m i c else mget m r c.
Proof.
move=> ltin; rewrite /det_eliminate.
pose P q (t : matrix) := forall r c,
  mget t r c =
  if (i < r < q)%N && (i < c < n)%N
  then mget m r c - mget m r i * mget m i c else mget m r c.
suff: P n (for_loop i.+1 n (fun j m =>
             for_loop i.+1 n (fun k m =>
               mset m j k (mget m j k - mget m j i * mget m i k)) m) m).
  exact.
apply: for_loop_ind => // [r' c'|q t /andP[ltq ltqn] Pt].
  by rewrite ltnS; case: (ltngtP i r').
pose Q k (u : matrix) := forall r c,
  mget u r c =
  if (r == q) && (i < c < k)%N
  then mget m q c - mget m q i * mget m i c else mget t r c.
have: Q n (for_loop i.+1 n (fun k m =>
             mset m q k (mget m q k - mget m q i * mget m i k)) t).
  apply: for_loop_ind => // [r' c'|k u /andP[ltk ltkn] Qu r' c'].
    by rewrite ltnS; case: (ltngtP i c'); rewrite ?andbF.
  rewrite mget_mset !Qu !Pt !ltnn !andbF /= ?(gtn_eqF ltq) /= ltnS.
  case: (altP (r' =P q)) => [->|ne] //=.
  case: (altP (c' =P k)) => [->|ne'] /=; first by rewrite ltk leqnn.
  by rewrite [(c' <= k)%N]leq_eqVlt (negPf ne').
move=> Qn r' c'; rewrite Qn Pt ltnS.
case: (altP (r' =P q)) => [->|ne] /=.
  by rewrite ltq leqnn ltnn andbF /=.
by rewrite [(r' <= q)%N]leq_eqVlt (negPf ne).
Qed.

(** ** Determinants: the facts of linear algebra the kernel rests on *)

Lemma det_schur k (M : 'M[F]_(1 + k)) :
  M 0 0 != 0 ->
  \det M = M 0 0 * \det (drsubmx M - (M 0 0)^-1 *: (dlsubmx M *m ursubmx M)).
Proof.
move=> a0; set a := M 0 0 in a0 *.
set S := drsubmx M - _.
have eul : ulsubmx M = a%:M.
  by rewrite [ulsubmx M]mx11_scalar !mxE !lshift0.
have eM : M = block_mx 1%:M 0 (a^-1 *: dlsubmx M) 1%:M *m
              block_mx a%:M (ursubmx M) 0 S.
  rewrite mulmx_block !mul1mx !mul0mx ?mulmx0 !addr0 -!scalemxAl.
  rewrite /S addrCA subrr addr0 mul_mx_scalar scalerA mulVf // scale1r.
  by rewrite -eul submxK.
by rewrite {1}eM det_mulmx det_lblock det_ublock !det1 !mul1r det_scalar1.
Qed.

Lemma det_col0 k (M : 'M[F]_(1 + k)) :
  (forall i, M i 0 = 0) -> \det M = 0.
Proof.
move=> M0; rewrite (expand_det_col M 0) big1 // => i _.
by rewrite M0 mul0r.
Qed.

Lemma det_xrow0 k (M : 'M[F]_(1 + k)) (q : 'I_(1 + k)) :
  q != 0 -> \det (xrow 0 q M) = - \det M.
Proof.
move=> q0; rewrite xrowE det_mulmx det_perm odd_tperm eq_sym q0.
by rewrite expr1 mulN1r.
Qed.

Lemma cofactor_ones_row n (i : 'I_n) (A : 'M[F]_n) k :
  cofactor (ones_row i A) i k = cofactor A i k.
Proof.
rewrite /cofactor; congr (_ * \det _); apply/matrixP => r c.
by rewrite !mxE eq_sym (negPf (neq_lift i r)).
Qed.

Lemma det_ones_row n (i : 'I_n) (A : 'M[F]_n) :
  \det (ones_row i A) = \sum_k cofactor A i k.
Proof.
rewrite (expand_det_row _ i); apply: eq_bigr => k _.
by rewrite mxE eqxx mul1r cofactor_ones_row.
Qed.

(** Cramer: the vector of these determinants against every column. *)
Lemma ones_row_dot n (A : 'M[F]_n) (j : 'I_n) :
  \sum_i \det (ones_row i A) * A i j = \det A.
Proof.
have H k : (\adj A *m A) k j = (\det A) *+ (k == j).
  by rewrite mul_adj_mx mxE.
transitivity (\sum_k (\adj A *m A) k j).
  under eq_bigr do rewrite det_ones_row mulr_suml.
  rewrite exchange_big /=; apply: eq_bigr => k _.
  by rewrite mxE; apply: eq_bigr => i _; rewrite mxE.
under eq_bigr do rewrite H mulrb.
by rewrite -big_mkcond /= big_pred1_eq.
Qed.

(** The determinants with a row of ones do not change when one vector is
    subtracted from every column. *)
Lemma det_ones_row_translate n (i : 'I_n) (A : 'M[F]_n) (p : 'I_n -> F) :
  \det (ones_row i (\matrix_(r, c) (A r c - p r))) = \det (ones_row i A).
Proof.
pose U : 'M[F]_n := \matrix_(r, c) (if (c == i) && (r != i) then p r else 0).
have UB (B : 'M[F]_n) r c :
    (U *m B) r c = if r != i then p r * B i c else 0.
  rewrite mxE (bigD1 i) //= big1 ?addr0 => [k /negPf ne|].
    by rewrite [U r k]mxE ne /= mul0r.
  by rewrite [U r i]mxE eqxx /=; case: ifP => _; rewrite ?mul0r.
have -> : ones_row i (\matrix_(r, c) (A r c - p r)) = (1%:M - U) *m ones_row i A.
  apply/matrixP => r c; rewrite mulmxBl mul1mx [RHS]mxE [X in _ + X]mxE UB !mxE.
  by rewrite eqxx; case: (r == i); rewrite /= ?subr0 ?mulr1.
suff e : \det (1%:M - U) = 1 by rewrite det_mulmx e mul1r.
rewrite (expand_det_row _ i) (bigD1 i) //= big1 ?addr0 => [k /negPf ne|].
  by rewrite !mxE eq_sym ne eqxx /= subr0 mul0r.
rewrite !mxE eqxx /= subr0 mul1r /cofactor -signr_odd oddD addbb expr0 mul1r.
suff -> : row' i (col' i (1%:M - U)) = 1%:M by rewrite det1.
apply/matrixP => r c; rewrite !mxE [lift i c == i]eq_sym (negPf (neq_lift i c)) /= subr0.
by rewrite (inj_eq lift_inj).
Qed.

(** When the columns, translated by some vector, are linearly
    independent, one of the determinants with a row of ones does not
    vanish. *)
Lemma ones_row_neq0 n (A : 'M[F]_n) (p : 'I_n -> F) :
  (0 < n)%N ->
  \det (\matrix_(r, c) (A r c - p r)) != 0 ->
  exists i, \det (ones_row i A) != 0.
Proof.
move=> n0 det0; apply/existsP; apply: contraNT det0.
rewrite negb_exists => /forallP H.
rewrite -(ones_row_dot _ (Ordinal n0)) big1 // => i _.
by rewrite det_ones_row_translate; move: (H i); rewrite negbK => /eqP->; rewrite mul0r.
Qed.

(** ** [det] computes the determinant *)

Lemma block_of_swap m i k p (q : 'I_k.+1) :
  p = (i + q)%N ->
  block_of (swap_rows m i p) i k.+1 = xrow 0 q (block_of m i k.+1).
Proof.
move=> ep; apply/matrixP => a b; rewrite !mxE mget_swap_rows ep.
have e0 (x : nat) : ((i + x)%N == i) = (x == 0%N).
  by rewrite -{2}[i]addn0 eqn_add2l.
rewrite eqn_add2l e0; case: tpermP => [->|->|/eqP ne0 /eqP neq].
- by rewrite (eq_sym 0%N) /=; case: eqP => [->|]; rewrite ?addn0.
- by rewrite eqxx addn0.
- by rewrite -!val_eqE /= in ne0 neq; rewrite (negPf neq) (negPf ne0).
Qed.

Lemma det_step_regular n i k acc m acc' m' :
  (i + k.+1)%N = n -> 0 <= eps ->
  det_step n i (acc, m) = inr (acc', m') ->
  acc' * \det (block_of m' i.+1 k) = acc * \det (block_of m i k.+1).
Proof.
move=> en eps0; have ltin : (i < n)%N by rewrite -en -addn1 leq_add2l.
rewrite /det_step; move: (find_pivot_spec m ltin).
case: (find_pivot m n i) => max_ pivot [/andP[le1 lt1] e2 _].
case: ifP => // /negbFE lt_eps.
have piv0 : mget m pivot i != 0.
  by rewrite -normr_gt0 -e2 (le_lt_trans eps0 lt_eps).
set s : F := if pivot != i then -1 else 1.
set ms := if pivot != i then swap_rows m i pivot else m.
have -> : (if pivot != i then (- acc, swap_rows m i pivot) else (acc, m))
        = (s * acc, ms).
  by rewrite /s /ms; case: ifP => _; rewrite ?mulN1r ?mul1r.
case=> <- <-.
have ems : mget ms i i = mget m pivot i.
  rewrite /ms; case: (altP (pivot =P i)) => [->|ne] //=.
  by rewrite mget_swap_rows eqxx eq_sym (negPf ne).
set M : 'M[F]_(1 + k) := block_of ms i k.+1.
have M00 : M 0 0 = mget m pivot i by rewrite mxE /= addn0.
have detM : \det M = s * \det (block_of m i k.+1).
  rewrite /M /s /ms; case: (altP (pivot =P i)) => [_|ne] /=; first by rewrite mul1r.
  have ltq : (pivot - i < k.+1)%N by rewrite ltn_subLR // en.
  rewrite (@block_of_swap m i k pivot (Ordinal ltq)) /= ?subnKC //.
  rewrite (@det_xrow0 k) ?mulN1r // -val_eqE /= subn_eq0 -ltnNge.
  by rewrite ltn_neqAle le1 eq_sym ne.
have -> : block_of (det_eliminate n i (det_scale_column n i ms)) i.+1 k
        = drsubmx M - (M 0 0)^-1 *: (dlsubmx M *m ursubmx M).
  apply/matrixP => a b; rewrite !mxE big_ord1 !mxE /=.
  rewrite mget_det_eliminate // !mget_det_scale_column //.
  have lta : (i < i.+1 + a < n)%N.
    by rewrite addSn ltnS leq_addr /= -en addnS ltnS ltn_add2l.
  have ltb : (i < i.+1 + b < n)%N.
    by rewrite addSn ltnS leq_addr /= -en addnS ltnS ltn_add2l.
  rewrite lta ltb /= eqxx ltnn /= (gtn_eqF (proj1 (andP ltb))).
  by rewrite !addn0 !addnA !addn1 [_ / _]mulrC -mulrA.
rewrite mget_det_scale_column // ltnn /= ems -M00.
have s2 : s * s = 1 by rewrite /s; case: ifP => _; rewrite ?mulrNN mulr1.
have -> : \det (block_of m i k.+1) = s * \det M by rewrite detM mulrA s2 mul1r.
rewrite (@det_schur k M) ?M00 //.
by ring.
Qed.

(** An iteration of [det], by cases. *)

Lemma det_step_cases n i acc m :
  (i < n)%N ->
  det_step n i (acc, m) =
  if step_regular n (i, m)
  then inr (acc * ((if step_swaps n (i, m) then -1 else 1) * step_pivot n (i, m)),
            det_next n i m)
  else inl (0, m).
Proof.
move=> ltin; rewrite /det_step /step_regular /step_swaps /step_pivot /det_next /=.
rewrite -(find_pivot_max m ltin).
case: (find_pivot m n i) => max_ pivot /=; case: (eps < max_) => //=.
case: (altP (pivot =P i)) => [->|ne] /=; rewrite mget_det_scale_column // ltnn /=.
  by rewrite mul1r.
by rewrite mget_swap_rows eqxx eq_sym (negPf ne) mulN1r mulrN mulNr.
Qed.

Lemma step_pivot_max n i m :
  (i < n)%N -> `|step_pivot n (i, m)| = active_column_max m n i.
Proof.
move=> ltin; rewrite -find_pivot_max // /step_pivot /=.
by move: (find_pivot_spec m ltin); case: (find_pivot m n i) => mx pv [_ -> _].
Qed.

Lemma det_step_det n i k m :
  (i + k.+1)%N = n -> 0 <= eps -> step_regular n (i, m) ->
  let c := (if step_swaps n (i, m) then -1 else 1) * step_pivot n (i, m) in
  c != 0 /\ c * \det (block_of (det_next n i m) i.+1 k) = \det (block_of m i k.+1).
Proof.
move=> en eps0 reg c; have ltin : (i < n)%N by rewrite -en -addn1 leq_add2l.
have c0 : c != 0.
  rewrite mulf_neq0 //; first by case: ifP => _; rewrite ?oppr_eq0 oner_eq0.
  rewrite -normr_gt0 step_pivot_max //.
  exact: le_lt_trans eps0 reg.
split=> //.
have := @det_step_regular n i k 1 m; rewrite det_step_cases // reg mul1r.
by move/(_ _ _ en eps0 erefl); rewrite mul1r.
Qed.

Lemma block_col0 n i k m :
  (i + k.+1)%N = n -> active_column_max m n i <= 0 ->
  \det (block_of m i k.+1) = 0.
Proof.
move=> en; have ltin : (i < n)%N by rewrite -en -addn1 leq_add2l.
rewrite le_foldr_max lexx /= => /allP H.
apply: (@det_col0 k) => a; rewrite !mxE addn0.
apply/eqP; rewrite -normr_le0; apply: H; apply: map_f.
by rewrite mem_iota leq_addr /= subnKC ?(ltnW ltin) // -en ltn_add2l.
Qed.


(** The value [det] returns and the determinant of the block. *)
Lemma det_loop_det n k i acc m :
  (i + k)%N = n -> 0 <= eps ->
  match for_return (iota i k) (det_step n) (acc, m) with
  | inr r => r.1 = acc * \det (block_of m i k)
  | inl r => r.1 = 0 /\ (eps = 0 -> acc * \det (block_of m i k) = 0)
  end.
Proof.
move=> en eps0; elim: k i acc m en => [|k IH] i acc m en.
  by rewrite /= det_mx00 mulr1.
have ltin : (i < n)%N by rewrite -en -addn1 leq_add2l.
rewrite -[iota i k.+1]/(i :: iota i.+1 k) for_return_cons.
rewrite det_step_cases //; case: ifP => [reg|/negbT nreg].
  have [c0 <-] := det_step_det en eps0 reg.
  have := IH i.+1 _ (det_next n i m); rewrite addSnnS => /(_ _ en).
  move=> /(_ (acc * ((if step_swaps n (i, m) then -1 else 1) * step_pivot n (i, m)))).
  case: (for_return _ _ _) => r; rewrite !mulrA //.
split=> // e0; rewrite (@block_col0 n) ?mulr0 //.
by rewrite leNgt -e0.
Qed.

Lemma det_regular m n :
  0 <= eps -> ~~ det_singular m n -> (det m n).1 = \det (block_of m 0 n).
Proof.
move=> eps0; rewrite /det_singular /det.
have := @det_loop_det n n 0 1 m (add0n n) eps0.
by case: (for_return _ _ _) => r //; rewrite mul1r.
Qed.

Lemma det_singular_zero m n : det_singular m n -> (det m n).1 = 0.
Proof.
rewrite /det_singular /det.
have: forall js acc, match for_return js (det_step n) (acc, m) with
                     | inl r => r.1 = 0 | inr _ => True end.
  move=> js; elim: js m => [|i js IH] m' acc //.
  rewrite for_return_cons /det_step; case: (find_pivot _ _ _) => mx pv.
  by case: ifP => // _; case: ifP => _; apply: IH.
by move/(_ (iota 0 n) 1); case: (for_return _ _ _).
Qed.

Lemma det_exact m n :
  eps = 0 -> (det m n).1 = \det (block_of m 0 n).
Proof.
move=> e0; rewrite /det.
have := @det_loop_det n n 0 1 m (add0n n); rewrite e0 lexx => /(_ isT).
by case: (for_return _ _ _) => r; rewrite !mul1r // => -[-> /(_ erefl)->].
Qed.

(** ** The signed product of the pivots *)

Local Arguments det_step : simpl never.

Lemma det_states_cons n i js m :
  (i < n)%N ->
  det_states n (i :: js) m =
  (i, m) :: (if step_regular n (i, m) then det_states n js (det_next n i m)
             else [::]).
Proof. by move=> ltin; rewrite /= det_step_cases //; case: ifP. Qed.

Lemma det_states_index n js m :
  all (fun i => i < n)%N js -> all (fun s => s.1 < n)%N (det_states n js m).
Proof.
elim: js m => [|i js IH] m // /andP[ltin ltjs].
rewrite det_states_cons //= ltin /=; case: ifP => // _.
exact: IH.
Qed.

Lemma det_loop_states n js acc m :
  all (fun i => i < n)%N js ->
  let sts := det_states n js m in
  match for_return js (det_step n) (acc, m) with
  | inl r => r.1 = 0 /\ has (fun s => ~~ step_regular n s) sts
  | inr r =>
      [/\ r.1 = acc * ((-1) ^+ (count (step_swaps n) sts) *
                       \prod_(s <- sts) step_pivot n s),
          all (step_regular n) sts & size sts = size js]
  end.
Proof.
elim: js acc m => [|i js IH] acc m.
  by move=> _ /=; rewrite big_nil expr0 !mulr1.
case/andP=> ltin ltjs; rewrite for_return_cons det_states_cons // det_step_cases //.
case: ifP => [reg|/negbT nreg] /=; last by rewrite nreg.
move: (IH (acc * ((if step_swaps n (i, m) then -1 else 1) * step_pivot n (i, m)))
          (det_next n i m) ltjs) => /=.
case: (for_return _ _ _) => r; rewrite reg /=; first by case=> -> ->.
case=> -> -> ->; split=> //; rewrite big_cons.
by case: (step_swaps n (i, m)); rewrite /= ?exprS; ring.
Qed.

(** C5. [det] returns zero when some iteration it enters finds the
    largest absolute value of its column, at and below the diagonal, not
    above [eps]; otherwise it goes through [n] iterations and returns
    [(-1) ^ s] times the product of their pivots, [s] being the number of
    iterations that exchange rows; the absolute value of each pivot is the
    largest of its column. *)
Theorem det_signed_pivot_product (m : matrix) (n : nat) :
  let sts := det_states n (iota 0 n) m in
  [/\ has (fun s => ~~ step_regular n s) sts -> (det m n).1 = 0,
      all (step_regular n) sts ->
        size sts = n /\
        (det m n).1 =
          (-1) ^+ (count (step_swaps n) sts) * \prod_(s <- sts) step_pivot n s
    & forall s, s \in sts ->
        `|step_pivot n s| = active_column_max s.2 n s.1].
Proof.
have ltn : all (fun i => i < n)%N (iota 0 n).
  by apply/allP => i; rewrite mem_iota add0n.
move: (det_loop_states 1 m ltn) (det_states_index m ltn) => /=.
rewrite /det; case: (for_return _ _ _) => r.
  case=> -> /hasP[s sin nreg] idx; split=> // [reg|[i m'] /(allP idx) /= lti].
    by rewrite (allP reg) in nreg.
  exact: step_pivot_max.
case=> -> reg sz idx; split=> [/hasP[s sin]| _ |[i m'] /(allP idx) /= lti].
- by rewrite (allP reg).
- by rewrite sz size_iota mul1r.
- exact: step_pivot_max.
Qed.

(** ** Neighbour replacement *)

Lemma replace_first_notin from to ns :
  from \notin ns -> replace_first from to ns = ns.
Proof.
elim: ns => [|n ns IH] //=; rewrite inE negb_or eq_sym => /andP[/negPf-> nin].
by rewrite IH.
Qed.

Lemma replace_first_index from to ns :
  from \in ns -> replace_first from to ns = set_nth 0%N ns (index from ns) to.
Proof.
elim: ns => [|n ns IH] //=; rewrite inE eq_sym.
by case: eqP => //= _ /IH->.
Qed.

Lemma replace_first_same from ns : replace_first from from ns = ns.
Proof. by elim: ns => [|n ns IH] //=; case: eqP => [->|_] //; rewrite IH. Qed.

(** C10. [replace_neighbour f from to] rewrites the first entry equal to
    [from] of the neighbours of facet [f] to [to] and nothing else: the
    other entries, the other fields of the facet and the other facets of
    the store are as before, and with [from = to] the store is as
    before. *)
Theorem replace_neighbour_first_occurrence (fs : seq facet) (f from to : nat) :
  (f < size fs)%N ->
  let fs' := replace_neighbour fs f from to in
  let fc := nth facet0 fs f in
  let fc' := nth facet0 fs' f in
  [/\ size fs' = size fs,
      forall g, g != f -> nth facet0 fs' g = nth facet0 fs g,
      fc' = set_neighbours_ fc (neighbours_ fc'),
      neighbours_ fc' =
        (if from \in neighbours_ fc
         then set_nth 0%N (neighbours_ fc) (index from (neighbours_ fc)) to
         else neighbours_ fc)
    & from = to -> fs' = fs].
Proof.
move=> ltf /=; rewrite /replace_neighbour ltf andbT.
case: (altP (from =P to)) => [<-|neq] /=.
  split=> //; first by case: (nth facet0 fs f).
  case: ifP => // fin; apply: (@eq_from_nth _ 0%N).
    by rewrite size_set_nth; apply/esym/maxn_idPr; rewrite index_mem.
  move=> i _; rewrite nth_set_nth /=; case: eqP => // ->.
  by rewrite nth_index.
split=> //.
- by rewrite size_set_nth; apply/maxn_idPr.
- by move=> g /negPf neg; rewrite nth_set_nth /= neg.
- by rewrite nth_set_nth /= eqxx.
- rewrite nth_set_nth /= eqxx /=; case: ifP => [fin|/negbT nin].
    by rewrite replace_first_index.
  by rewrite replace_first_notin.
- by move=> e; rewrite e eqxx in neq.
Qed.

(** ** The shape of the working matrices is kept *)

Lemma matrix_wf_row m r :
  matrix_wf m -> (r < dimension_)%N -> size (nth [::] m r) = dimension_.
Proof.
case/andP=> /eqP sz /allP H ltr; apply/eqP/H/mem_nth.
by rewrite sz.
Qed.

Lemma matrix_wf_set_nth m r row :
  matrix_wf m -> (r < dimension_)%N -> size row = dimension_ ->
  matrix_wf (set_nth [::] m r row).
Proof.
case/andP=> /eqP sz /allP H ltr szr; apply/andP; split.
  by rewrite size_set_nth sz; apply/eqP/maxn_idPr.
apply/(all_nthP [::]) => k; rewrite size_set_nth sz (maxn_idPr ltr) => ltk.
rewrite nth_set_nth /=; case: ifP => _; first by rewrite szr.
by apply/H/mem_nth; rewrite sz.
Qed.

Lemma matrix_wf_mset m r c x :
  matrix_wf m -> (r < dimension_)%N -> (c < dimension_)%N ->
  matrix_wf (mset m r c x).
Proof.
move=> wf ltr ltc; apply: matrix_wf_set_nth => //.
rewrite size_set_nth matrix_wf_row //.
exact/maxn_idPr.
Qed.

Lemma matrix_wf_swap_rows m i p :
  matrix_wf m -> (i < dimension_)%N -> (p < dimension_)%N ->
  matrix_wf (swap_rows m i p).
Proof.
move=> wf lti ltp; rewrite /swap_rows.
by do 2![apply: matrix_wf_set_nth; rewrite ?matrix_wf_row //].
Qed.

Lemma matrix_wf_for_loop lo hi (body : nat -> matrix -> matrix) m :
  (forall j t, (lo <= j < hi)%N -> matrix_wf t -> matrix_wf (body j t)) ->
  matrix_wf m -> matrix_wf (for_loop lo hi body m).
Proof.
move=> step wf; case: (leqP lo hi) => [le|/ltnW lt]; last by rewrite for_loop_nil.
by apply: (@for_loop_ind _ (fun _ t => matrix_wf t)).
Qed.

Lemma matrix_wf_det_next n i m :
  (i < n <= dimension_)%N -> matrix_wf m -> matrix_wf (det_next n i m).
Proof.
case/andP=> ltin len wf; rewrite /det_next.
have ltd j : (j < n)%N -> (j < dimension_)%N by move/leq_trans; apply.
move: (find_pivot_spec m ltin); case: (find_pivot m n i) => mx pv [/andP[_ ltp] _ _] /=.
apply: matrix_wf_for_loop => [j t /andP[_ ltj] wft|].
  apply: matrix_wf_for_loop => // k u /andP[_ ltk] wfu.
  by apply: matrix_wf_mset; rewrite ?ltd.
apply: matrix_wf_for_loop => [j t /andP[_ ltj] wft|].
  by apply: matrix_wf_mset; rewrite ?ltd.
by case: ifP => // _; apply: matrix_wf_swap_rows; rewrite ?ltd.
Qed.

Lemma matrix_wf_det m n :
  (n <= dimension_)%N -> matrix_wf m -> matrix_wf (det m n).2.
Proof.
move=> len; rewrite /det.
have: all (fun i => i < n)%N (iota 0 n) by apply/allP => i; rewrite mem_iota.
move: (1 : F); elim: (iota 0 n) m => [|i js IH] m acc //= /andP[ltin ltjs] wf.
rewrite -/(det_step n i (acc, m)) det_step_cases //; case: ifP => // _.
by apply: IH => //; apply: matrix_wf_det_next; rewrite ?ltin.
Qed.

(** [matrix_restore] and [matrix_transpose]. *)
Lemma matrix_restoreE identity m sm :
  matrix_wf m -> matrix_wf sm -> (identity < dimension_)%N ->
  matrix_restore identity m sm = set_nth [::] sm identity (nseq dimension_ 1).
Proof.
move=> wfm wfsm lti; rewrite /matrix_restore.
pose P q (t : matrix) :=
  matrix_wf t /\
  forall c, (c < q)%N ->
    nth [::] t c = if c == identity then nseq dimension_ 1 else nth [::] sm c.
have [wft Ht] : P dimension_
    (for_loop 0 dimension_ (fun c m =>
       if c == identity then set_nth [::] m c (vfill (nth [::] m c) 1)
       else set_nth [::] m c (nth [::] sm c)) m).
  apply: for_loop_ind => // [q t /andP[_ ltq] [wft Ht]].
  have wft' : matrix_wf (if q == identity
                         then set_nth [::] t q (vfill (nth [::] t q) 1)
                         else set_nth [::] t q (nth [::] sm q)).
    case: ifP => _; apply: matrix_wf_set_nth => //.
      by rewrite /vfill size_nseq matrix_wf_row.
    by rewrite matrix_wf_row.
  split=> // c; rewrite ltnS leq_eqVlt => /orP[/eqP->|ltc].
    case: ifP => _; rewrite nth_set_nth /= eqxx //.
    by rewrite /vfill matrix_wf_row.
  by case: (q == identity); rewrite nth_set_nth /= (ltn_eqF ltc) Ht.
apply: (@eq_from_nth _ [::]) => [|c].
  case/andP: wft => /eqP-> _; case/andP: wfsm => /eqP sz _.
  by rewrite size_set_nth sz; apply/esym/maxn_idPr.
case/andP: (wft) => /eqP-> _ ltc.
by rewrite Ht // nth_set_nth /=.
Qed.

Lemma matrix_transpose_spec sm :
  matrix_wf sm ->
  matrix_wf (matrix_transpose sm) /\
  forall a b, (a < dimension_)%N -> (b < dimension_)%N ->
    mget (matrix_transpose sm) a b = mget sm b a.
Proof.
move=> wf; rewrite /matrix_transpose.
pose P r (t : matrix) :=
  matrix_wf t /\
  forall a b, mget t a b =
    if [&& (a < dimension_)%N, (b < dimension_)%N & (a < r)%N || (b < r)%N]
    then mget sm b a else mget sm a b.
have [wft Ht] : P dimension_
    (for_loop 0 dimension_ (fun r sm =>
       for_loop r.+1 dimension_ (fun c sm =>
         let x := mget sm c r in
         let y := mget sm r c in mset (mset sm c r y) r c x) sm) sm).
  apply: for_loop_ind => // [|r t /andP[_ ltr] [wft Ht]].
    by split=> // a b; rewrite !ltn0 !andbF.
  pose Q k (u : matrix) :=
    matrix_wf u /\
    forall a b, mget u a b =
      if ((a == r) && (r < b < k)%N) || ((b == r) && (r < a < k)%N)
      then mget t b a else mget t a b.
  have [wfu Hu] : Q dimension_
      (for_loop r.+1 dimension_ (fun c sm =>
         let x := mget sm c r in
         let y := mget sm r c in mset (mset sm c r y) r c x) t).
    apply: for_loop_ind => // [|k u /andP[ltk ltkd] [wfu Hu]].
      by split=> // a b; rewrite !ltnS; nat_cases r b; nat_cases r a; nat_done.
    split; first by do 2![apply: matrix_wf_mset => //].
    move=> a b; rewrite !mget_mset !Hu !ltnS.
    by nat_cases a r; nat_cases b r; nat_cases a k; nat_cases b k; nat_done.
  split=> // a b; rewrite Hu !Ht !ltnS.
  by nat_cases a r; nat_cases b r; nat_cases a dimension_;
     nat_cases b dimension_; nat_done.
by split=> // a b lta ltb; rewrite Ht lta ltb.
Qed.

(** ** The hyperplane fitter *)

Lemma matrix_wf_ext m1 m2 :
  matrix_wf m1 -> matrix_wf m2 ->
  (forall r c, (r < dimension_)%N -> (c < dimension_)%N ->
     mget m1 r c = mget m2 r c) ->
  m1 = m2.
Proof.
move=> wf1 wf2 H; case/andP: (wf1) => /eqP sz1 _; case/andP: (wf2) => /eqP sz2 _.
apply: (@eq_from_nth _ [::]); rewrite sz1 // => r ltr.
apply: (@eq_from_nth _ 0); rewrite !matrix_wf_row // => c ltc.
exact: H.
Qed.

Lemma matrix_wf_mkseq (f : nat -> nat -> F) :
  matrix_wf (mkseq (fun r => mkseq (f r) dimension_) dimension_).
Proof.
rewrite /matrix_wf size_mkseq eqxx /=; apply/allP => row /mapP[r _ ->].
by rewrite size_mkseq.
Qed.

Lemma mget_mkseq (f : nat -> nat -> F) r c :
  (r < dimension_)%N -> (c < dimension_)%N ->
  mget (mkseq (fun r => mkseq (f r) dimension_) dimension_) r c = f r c.
Proof. by move=> ltr ltc; rewrite /mget !nth_mkseq. Qed.

Lemma load_vertices_spec vs sm :
  matrix_wf sm ->
  (forall r, (r < dimension_)%N ->
     (dimension_ <= size (coords (nth nil_point vs r)))%N) ->
  matrix_wf (load_vertices vs sm) /\
  forall r c, (r < dimension_)%N -> (c < dimension_)%N ->
    mget (load_vertices vs sm) r c = nth 0 (coords (nth nil_point vs r)) c.
Proof.
move=> wf szc; rewrite /load_vertices.
pose P q (t : matrix) :=
  matrix_wf t /\
  forall r c, (r < q)%N -> (c < dimension_)%N ->
    mget t r c = nth 0 (coords (nth nil_point vs r)) c.
suff: P dimension_
    (for_loop 0 dimension_ (fun r sm =>
       set_nth [::] sm r
         (copy_n (coords (nth nil_point vs r)) dimension_ (nth [::] sm r))) sm).
  exact.
apply: for_loop_ind => // q t /andP[_ ltq] [wft Ht].
have szt : size (take dimension_ (coords (nth nil_point vs q))) = dimension_.
  by rewrite size_take; case: ltngtP (szc _ ltq).
have szrow : size (copy_n (coords (nth nil_point vs q)) dimension_ (nth [::] t q))
             = dimension_.
  by rewrite /copy_n size_cat szt size_drop matrix_wf_row // subnn addn0.
split; first exact: matrix_wf_set_nth.
move=> r c; rewrite ltnS leq_eqVlt /mget nth_set_nth /= => /orP[/eqP->|ltr] ltc.
  by rewrite eqxx /copy_n nth_cat szt ltc nth_take.
by rewrite (ltn_eqF ltr); apply: Ht.
Qed.

Lemma vertex_matrixE vs sm :
  matrix_wf sm ->
  (forall r, (r < dimension_)%N ->
     (dimension_ <= size (coords (nth nil_point vs r)))%N) ->
  matrix_transpose (load_vertices vs sm) = vertex_matrix vs.
Proof.
move=> wf szc; have [wf1 H1] := load_vertices_spec wf szc.
have [wf2 H2] := matrix_transpose_spec wf1.
apply: matrix_wf_ext => // [|r c ltr ltc]; first exact: matrix_wf_mkseq.
by rewrite H2 // H1 // mget_mkseq.
Qed.

Lemma with_ones_row_wf V i :
  matrix_wf V -> (i < dimension_)%N -> matrix_wf (with_ones_row V i).
Proof. by move=> wf lti; apply: matrix_wf_set_nth; rewrite ?size_nseq. Qed.

(** The loop of the fit, and the fit. *)
Lemma set_hyperplane_equationE m sm fc :
  matrix_wf sm -> size (normal_ fc) = dimension_ ->
  (forall r, (r < dimension_)%N ->
     (dimension_ <= size (coords (nth nil_point (vertices_ fc) r)))%N) ->
  let vs := vertices_ fc in
  let N := sqrtF (fit_sq_norm vs) in
  (set_hyperplane_equation m sm fc).2 =
    set_equation fc (vdiv (fit_normal vs) N) (fit_offset vs / N).
Proof.
move=> wf szn szc vs N; rewrite /set_hyperplane_equation vertex_matrixE //.
set V := vertex_matrix _.
have wfV : matrix_wf V by apply: matrix_wf_mkseq.
move: (matrix_wf_det (leqnn _) wfV).
rewrite /fit_offset -/V; case: (det V dimension_) => d0 m0 /= wf0.
pose n_ i := (det (with_ones_row V i) dimension_).1.
pose P q (acc : matrix * vector * F) :=
  [/\ matrix_wf acc.1.1, size acc.1.2 = dimension_,
      forall j, (j < dimension_)%N ->
        nth 0 acc.1.2 j = if (j < q)%N then n_ j else nth 0 (normal_ fc) j
    & acc.2 = foldl (fun N n => N + n * n) 0 [seq n_ j | j <- iota 0 q]].
have: P dimension_
    (for_loop 0 dimension_ (fun i acc =>
       let: (m, normal, N) := acc in
       let m := matrix_restore i m V in
       let: (n, m) := det m dimension_ in
       (m, set_nth 0 normal i n, N + n * n)) (m0, normal_ fc, 0)).
  apply: for_loop_ind => // [q [[mq nq] Nq] /andP[_ ltq] [/= wfq szq Hq ->]].
  rewrite matrix_restoreE // -/(with_ones_row V q).
  move: (matrix_wf_det (leqnn _) (with_ones_row_wf wfV ltq)).
  have: n_ q = (det (with_ones_row V q) dimension_).1 by [].
  case: (det _ _) => n mn /= en wfn; split=> //.
  - by rewrite /= size_set_nth szq; apply/maxn_idPr.
  - move=> j ltj; rewrite /= nth_set_nth /= ltnS leq_eqVlt.
    by case: (altP (j =P q)) => [->|ne] //=; rewrite Hq.
  - by rewrite -[q.+1]addn1 iotaD map_cat foldl_cat /= add0n en.
case: (for_loop _ _ _ _) => [[mf nf] Nf] [/= _ sznf Hnf ->].
rewrite -/(fit_sq_norm vs) -/N; congr (set_equation _ (vdiv _ _) _).
apply: (@eq_from_nth _ 0); rewrite ?sznf ?size_map ?size_iota // => j ltj.
by rewrite Hnf // ltj (nth_map 0%N) ?size_iota // nth_iota.
Qed.

Lemma foldl_sum (T : Type) (f : T -> F) (s : seq T) (init : F) :
  foldl (fun acc k => acc + f k) init s = init + \sum_(k <- s) f k.
Proof.
elim: s init => [|x s IH] init /=; first by rewrite big_nil addr0.
by rewrite IH big_cons addrA.
Qed.

Lemma inner_product_sum (a b : vector) (init : F) :
  inner_product a b init = init + \sum_(k < size a) nth 0 a k * nth 0 b k.
Proof.
rewrite /inner_product foldl_sum; congr (_ + _).
by rewrite -[X in iota 0 X]subn0 -/(index_iota 0 (size a)) big_mkord.
Qed.

Lemma det_faithful M n :
  0 <= eps ->
  (if det_singular M n then \det (block_of M 0 n) == 0 else true) ->
  (det M n).1 = \det (block_of M 0 n).
Proof.
move=> eps0; case: ifP => [sing /eqP->|/negbT reg _]; first exact: det_singular_zero.
exact: det_regular.
Qed.

Lemma block_of_vertex_matrix vs (r c : 'I_dimension_) :
  block_of (vertex_matrix vs) 0 dimension_ r c =
  nth 0 (coords (nth nil_point vs c)) r.
Proof. by rewrite mxE !add0n mget_mkseq. Qed.

Lemma block_of_with_ones_row V (i : 'I_dimension_) :
  block_of (with_ones_row V i) 0 dimension_ =
  ones_row i (block_of V 0 dimension_).
Proof.
apply/matrixP => r c; rewrite !mxE !add0n /mget /with_ones_row nth_set_nth /=.
by rewrite -val_eqE /=; case: ifP => // _; rewrite nth_nseq ltn_ord.
Qed.

Section Fit.

Variable vs : seq point.
Hypothesis eps0 : 0 <= eps.
Hypothesis fexact : fit_exact vs.

Let A : 'M[F]_dimension_ := block_of (vertex_matrix vs) 0 dimension_.

Lemma fit_offsetE : fit_offset vs = - \det A.
Proof.
rewrite /fit_offset det_faithful //.
by apply: (allP fexact (vertex_matrix vs)); rewrite /fit_matrices mem_head.
Qed.

Lemma fit_normalE (i : 'I_dimension_) :
  nth 0 (fit_normal vs) i = \det (ones_row i A).
Proof.
rewrite /fit_normal (nth_map 0%N) ?size_iota // nth_iota // add0n.
rewrite det_faithful //; last by rewrite block_of_with_ones_row.
apply: (allP fexact (with_ones_row (vertex_matrix vs) i)).
rewrite /fit_matrices inE; apply/orP; right.
by apply/mapP; exists (i : nat) => //; rewrite mem_iota add0n /=.
Qed.

Lemma size_fit_normal : size (fit_normal vs) = dimension_.
Proof. by rewrite /fit_normal size_map size_iota. Qed.

Lemma fit_sq_normE : fit_sq_norm vs = \sum_(i < dimension_) \det (ones_row i A) ^+ 2.
Proof.
rewrite /fit_sq_norm foldl_sum add0r (big_nth 0) size_fit_normal big_mkord.
by apply: eq_bigr => i _; rewrite fit_normalE expr2.
Qed.

Lemma fit_sq_norm_neq0 (p : vector) :
  (0 < dimension_)%N -> affinely_independent p vs -> fit_sq_norm vs != 0.
Proof.
move=> d0; rewrite /affinely_independent row_free_unit unitmxE unitfE -det_tr.
have -> : (difference_mx p vs)^T = \matrix_(r, c) (A r c - nth 0 p r).
  by apply/matrixP => r c; rewrite !mxE !add0n mget_mkseq.
case/(ones_row_neq0 d0) => i ni; rewrite fit_sq_normE psumr_eq0 => [j _|].
  exact: sqr_ge0.
apply/allPn; exists i; rewrite ?mem_index_enum //=.
by rewrite sqrf_eq0.
Qed.

Lemma fit_normal_dot (j : 'I_dimension_) :
  \sum_(k < dimension_) nth 0 (fit_normal vs) k * nth 0 (coords (nth nil_point vs j)) k
  = \det A.
Proof.
rewrite -(ones_row_dot A j); apply: eq_bigr => k _.
by rewrite fit_normalE block_of_vertex_matrix.
Qed.

End Fit.

Lemma affinely_independentE (p : vector) (vs : seq point) :
  affinely_independent p vs = (\det (difference_mx p vs) != 0).
Proof. by rewrite /affinely_independent row_free_unit unitmxE unitfE. Qed.

(** A test of affine independence by [det]. *)
Lemma affinely_independent_det (p : vector) (vs : seq point) :
  0 <= eps -> ~~ det_singular (difference_list p vs) dimension_ ->
  (det (difference_list p vs) dimension_).1 != 0 ->
  affinely_independent p vs.
Proof.
move=> eps0 reg; rewrite (det_regular eps0 reg) affinely_independentE.
congr (\det _ != 0); apply/matrixP => j r.
by rewrite !mxE /difference_list !add0n mget_mkseq.
Qed.

(** The fit is exact when [eps] is zero, and when no determinant is
    declared singular. *)
Lemma fit_exact_eps0 (vs : seq point) : eps = 0 -> fit_exact vs.
Proof.
move=> e0; apply/allP => M _; case: ifP => // sing.
by rewrite -(det_exact _ _ e0) det_singular_zero.
Qed.

Lemma fit_exact_regular (vs : seq point) :
  all (fun M => ~~ det_singular M dimension_) (fit_matrices vs) ->
  fit_exact vs.
Proof.
by move/allP=> H; apply/allP => M /H /negbTE->.
Qed.

(** C1, as the code has it.  For a facet whose vertices, together with
    the interior point, are affinely independent, and for which every
    determinant that [det] declares singular during the fit is zero (as
    it is when [eps] is zero, or when none is declared singular), with a
    square root that is exact on the squared norm, [set_hyperplane_equation]
    leaves a normal whose squares sum to one and an offset such that
    every vertex of the facet has distance zero. *)
Theorem set_hyperplane_equation_fit (m sm : matrix) (fc : facet) (p : vector) :
  (0 < dimension_)%N -> 0 <= eps -> matrix_wf sm ->
  size (normal_ fc) = dimension_ -> size (vertices_ fc) = dimension_ ->
  all (fun v => dimension_ <= size (coords v))%N (vertices_ fc) ->
  affinely_independent p (vertices_ fc) -> fit_exact (vertices_ fc) ->
  sqrtF (fit_sq_norm (vertices_ fc)) ^+ 2 = fit_sq_norm (vertices_ fc) ->
  let fc' := (set_hyperplane_equation m sm fc).2 in
  \sum_(x <- normal_ fc') x ^+ 2 = 1 /\
  forall v, v \in vertices_ fc' -> distance fc' (coords v) = 0.
Proof.
move=> d0 eps0 wf szn szv szc aff ex sq fc'.
have szc' r : (r < dimension_)%N ->
    (dimension_ <= size (coords (nth nil_point (vertices_ fc) r)))%N.
  by move=> ltr; apply: (allP szc); apply: mem_nth; rewrite szv.
have efc : fc' = _ := set_hyperplane_equationE m wf szn szc'.
have N0 := fit_sq_norm_neq0 eps0 ex d0 aff.
move: efc sq N0; set N := fit_sq_norm _; set s := sqrtF N => efc sq N0.
have s0 : s != 0 by rewrite -sqrf_eq0 sq.
rewrite efc /=; split.
  rewrite /vdiv big_map.
  have -> : \sum_(y <- fit_normal (vertices_ fc)) (y / s) ^+ 2
          = (\sum_(y <- fit_normal (vertices_ fc)) y * y) / s ^+ 2.
    by rewrite mulr_suml; apply: eq_bigr => y _; rewrite exprMn exprVn expr2.
  have := foldl_sum (fun y => y * y) (fit_normal (vertices_ fc)) 0.
  by rewrite add0r -/(fit_sq_norm _) -/N sq => <-; rewrite divff.
move=> v /(nthP nil_point)[j]; rewrite szv => ltj <-.
rewrite /distance /= inner_product_sum size_map size_fit_normal.
have -> : \sum_(k < dimension_)
            nth 0 (vdiv (fit_normal (vertices_ fc)) s) k *
            nth 0 (coords (nth nil_point (vertices_ fc) j)) k
        = \det (block_of (vertex_matrix (vertices_ fc)) 0 dimension_) / s.
  rewrite -(fit_normal_dot eps0 ex (Ordinal ltj)) mulr_suml.
  apply: eq_bigr => k _; rewrite (nth_map 0) ?size_fit_normal //=.
  by rewrite mulrAC.
by rewrite fit_offsetE // mulNr addNr.
Qed.

(** ** [det] reads the leading block only *)

Lemma find_pivot_block n i m1 m2 :
  (i < n)%N -> block_eq n m1 m2 -> find_pivot m1 n i = find_pivot m2 n i.
Proof.
move=> ltin H; rewrite /find_pivot H //.
apply: for_loop_ext => p acc /andP[ltp ltpn].
by rewrite H.
Qed.

Lemma det_next_block n i m1 m2 :
  (i < n)%N -> block_eq n m1 m2 ->
  block_eq n (det_next n i m1) (det_next n i m2).
Proof.
move=> ltin H r c ltr ltc; rewrite /det_next -(find_pivot_block ltin H).
move: (find_pivot_spec m1 ltin); case: (find_pivot m1 n i) => mx pv [/andP[_ ltp] _ _] /=.
have Hs : block_eq n (if pv != i then swap_rows m1 i pv else m1)
                     (if pv != i then swap_rows m2 i pv else m2).
  case: ifP => // _ r' c' ltr' ltc'; rewrite !mget_swap_rows H //.
  by case: ifP => // _; case: ifP.
rewrite !mget_det_eliminate // !mget_det_scale_column // !Hs //.
Qed.

Lemma det_loop_block n js acc m1 m2 :
  all (fun i => i < n)%N js -> block_eq n m1 m2 ->
  match for_return js (det_step n) (acc, m1),
        for_return js (det_step n) (acc, m2) with
  | inl r1, inl r2 => r1.1 = r2.1
  | inr r1, inr r2 => r1.1 = r2.1
  | _, _ => False
  end.
Proof.
elim: js acc m1 m2 => [|i js IH] acc m1 m2 //= /andP[ltin ltjs] H.
rewrite -!/(det_step n i (acc, _)) !det_step_cases //.
rewrite /step_regular /step_swaps /step_pivot /= -!find_pivot_max //.
rewrite -(find_pivot_block ltin H).
move: (find_pivot_spec m1 ltin); case: (find_pivot m1 n i) => mx pv [/andP[_ ltp] _ _] /=.
case: ifP => // _; rewrite H //.
by apply: IH => //; apply: det_next_block.
Qed.

Lemma det_block_ext n m1 m2 :
  block_eq n m1 m2 ->
  (det m1 n).1 = (det m2 n).1 /\ det_singular m1 n = det_singular m2 n.
Proof.
move=> H; rewrite /det /det_singular.
have ltn : all (fun i => i < n)%N (iota 0 n).
  by apply/allP => i; rewrite mem_iota add0n.
move: (det_loop_block 1 ltn H).
by case: (for_return _ _ _) => r1; case: (for_return _ _ _) => r2.
Qed.

(** ** Hypervolume *)

Lemma mget_matrix_sqr n m sm r c :
  mget (matrix_sqr n m sm) r c =
  if (r < n)%N && (c < n)%N
  then inner_product (nth [::] m r) (nth [::] m c) 0 else mget sm r c.
Proof.
rewrite /matrix_sqr.
pose P q (t : matrix) := forall r c,
  mget t r c =
  if (r < q)%N && (c < n)%N
  then inner_product (nth [::] m r) (nth [::] m c) 0 else mget sm r c.
suff: P n (for_loop 0 n (fun r sm =>
             for_loop 0 n (fun c sm =>
               mset sm r c (inner_product (nth [::] m r) (nth [::] m c) 0)) sm) sm).
  exact.
apply: for_loop_ind => // q t /andP[_ ltqn] Pt.
pose Q k (u : matrix) := forall r c,
  mget u r c =
  if (r == q) && (c < k)%N
  then inner_product (nth [::] m q) (nth [::] m c) 0 else mget t r c.
have: Q n (for_loop 0 n (fun c sm =>
             mset sm q c (inner_product (nth [::] m q) (nth [::] m c) 0)) t).
  apply: for_loop_ind => // [r' c'|k u /andP[_ ltkn] Qu r' c'].
    by rewrite andbF.
  rewrite mget_mset Qu ltnS.
  case: (altP (r' =P q)) => [->|ne] //=.
  case: (altP (c' =P k)) => [->|ne'] /=; first by rewrite leqnn.
  by rewrite [(c' <= k)%N]leq_eqVlt (negPf ne').
move=> Qn r' c'; rewrite Qn Pt ltnS.
case: (altP (r' =P q)) => [->|ne] /=.
  by rewrite leqnn ltnn /=; case: ifP.
by rewrite [(r' <= q)%N]leq_eqVlt (negPf ne).
Qed.

Lemma size_copy_n (src dst : vector) n :
  (n <= size src)%N -> size (copy_n src n dst) = (n + (size dst - n))%N.
Proof. by move=> le; rewrite /copy_n size_cat size_takel // size_drop. Qed.

Lemma nth_copy_n (src dst : vector) n k :
  (n <= size src)%N -> (k < n)%N -> nth 0 (copy_n src n dst) k = nth 0 src k.
Proof.
by move=> le lt; rewrite /copy_n nth_cat size_takel // lt nth_take.
Qed.

Lemma load_differences_spec first origin_ m r :
  nth [::] (load_differences first origin_ m) r =
  if (r < size first)%N
  then vsub (copy_n (coords (nth nil_point first r)) dimension_ (nth [::] m r))
            origin_
  else nth [::] m r.
Proof.
rewrite /load_differences.
pose P q (t : matrix) := forall r,
  nth [::] t r =
  if (r < q)%N
  then vsub (copy_n (coords (nth nil_point first r)) dimension_ (nth [::] m r))
            origin_
  else nth [::] m r.
suff: P (size first) (for_loop 0 (size first) (fun r m =>
        let row_ := copy_n (coords (nth nil_point first r)) dimension_
                      (nth [::] m r) in
        set_nth [::] m r (vsub row_ origin_)) m).
  exact.
apply: for_loop_ind => // q t /andP[_ ltq] Pt r'.
rewrite nth_set_nth /= Pt ltnn ltnS.
case: (altP (r' =P q)) => [->|ne]; first by rewrite leqnn.
by rewrite Pt [(r' <= q)%N]leq_eqVlt (negPf ne).
Qed.

Lemma mget_difference_rows first lastp r c :
  (r < size first)%N -> (c < dimension_)%N ->
  mget (difference_rows first lastp) r c =
  nth 0 (coords (nth nil_point first r)) c - nth 0 (coords lastp) c.
Proof.
move=> ltr ltc; rewrite /mget /difference_rows (nth_map nil_point) //.
by rewrite (nth_map 0%N) ?size_iota // nth_iota.
Qed.

Lemma hypervolumeE st first lastp :
  (0 < size first)%N ->
  hypervolume st first lastp =
  let sm := shadow_matrix_ st in
  let back := (size sm).-1 in
  let sm := set_nth [::] sm back
              (copy_n (coords lastp) dimension_ (nth [::] sm back)) in
  let m := load_differences first (nth [::] sm back) (matrix_ st) in
  if size first == dimension_ then
    let: (v, m) := det m dimension_ in (v, set_matrices st m sm)
  else
    let: (v, sm) := det (matrix_sqr (size first) m sm) (size first) in
    (sqrtF v, set_matrices st m sm).
Proof. by case: first. Qed.

Section Hypervolume.

Variables (st : quick_hull) (first : seq point) (lastp : point).
Hypothesis coords_size :
  all (fun p => dimension_ <= size (coords p))%N (lastp :: first).

Let back := (size (shadow_matrix_ st)).-1.
Let sm' := set_nth [::] (shadow_matrix_ st) back
             (copy_n (coords lastp) dimension_ (nth [::] (shadow_matrix_ st) back)).
Let m' := load_differences first (nth [::] sm' back) (matrix_ st).

Lemma size_first_coords r :
  (r < size first)%N -> (dimension_ <= size (coords (nth nil_point first r)))%N.
Proof.
by case/andP: coords_size => _ /allP H ltr; apply/H/mem_nth.
Qed.

Lemma mget_differences r c :
  (r < size first)%N -> (c < dimension_)%N ->
  mget m' r c = mget (difference_rows first lastp) r c.
Proof.
move=> ltr ltc; have le := size_first_coords ltr.
case/andP: (coords_size) => le0 _.
rewrite mget_difference_rows // /mget /m' load_differences_spec ltr.
rewrite /vsub nth_mkseq.
  by rewrite size_copy_n //; apply: leq_trans ltc _; apply: leq_addr.
rewrite nth_copy_n // /sm' nth_set_nth /= eqxx nth_copy_n //.
Qed.

Lemma size_differences r :
  matrix_wf (matrix_ st) -> (r < size first)%N -> (r < dimension_)%N ->
  size (nth [::] m' r) = dimension_.
Proof.
move=> wf ltr ltd; rewrite /m' load_differences_spec ltr /vsub size_mkseq.
by rewrite size_copy_n ?size_first_coords // matrix_wf_row // subnn addn0.
Qed.

Lemma hypervolume_full :
  (0 < size first)%N -> size first = dimension_ ->
  (hypervolume st first lastp).1 =
  (det (difference_rows first lastp) dimension_).1.
Proof.
move=> lt0 e; rewrite hypervolumeE //= -/back -/sm' -/m' e eqxx.
have Hb : block_eq dimension_ m' (difference_rows first lastp).
  by move=> r c ltr ltc; apply: mget_differences; rewrite ?e.
have [<- _] := det_block_ext Hb.
by case: (det m' dimension_).
Qed.

Lemma hypervolume_gram :
  matrix_wf (matrix_ st) -> (0 < size first < dimension_)%N ->
  (hypervolume st first lastp).1 =
  sqrtF (det (gram_matrix (difference_rows first lastp)) (size first)).1.
Proof.
move=> wf /andP[lt0 ltd]; rewrite hypervolumeE //= -/back -/sm' -/m'.
rewrite (ltn_eqF ltd); set n := size first in ltd *.
have H := mget_differences; have Hs := size_differences.
have Hb : block_eq n (matrix_sqr n m' sm')
                     (gram_matrix (difference_rows first lastp)).
  move=> r c ltr ltc.
  rewrite mget_matrix_sqr ltr ltc /= inner_product_sum add0r.
  have ltrd := ltn_trans ltr ltd; have ltcd := ltn_trans ltc ltd.
  rewrite /mget /gram_matrix (nth_map [::]) ?size_map //.
  rewrite (nth_map [::]) ?size_map // /dot.
  rewrite -(big_mkord xpredT (fun k => nth 0 (nth [::] m' r) k * nth 0 (nth [::] m' c) k)).
  rewrite Hs // big_mkord; apply: eq_bigr => k _.
  by rewrite -!/(mget _ _ _) !H.
have [<- _] := det_block_ext Hb.
by case: (det (matrix_sqr n m' sm') n).
Qed.

End Hypervolume.

(** The Gram matrix and the difference vectors as matrices of the
    algebra library. *)
Lemma block_of_gram (first : seq point) (lastp : point) :
  let V := difference_block first lastp (size first) in
  block_of (gram_matrix (difference_rows first lastp)) 0 (size first) = V *m V^T.
Proof.
apply/matrixP => i j; rewrite !mxE !add0n.
rewrite /mget /gram_matrix (nth_map [::]) ?size_map //.
rewrite (nth_map [::]) ?size_map // /dot; apply: eq_bigr => k _.
by rewrite !mxE -!/(mget _ _ _) !mget_difference_rows.
Qed.

Lemma block_of_differences (first : seq point) (lastp : point) :
  size first = dimension_ ->
  block_of (difference_rows first lastp) 0 dimension_ =
  difference_block first lastp dimension_.
Proof.
move=> e; apply/matrixP => i k; rewrite !mxE !add0n.
by rewrite mget_difference_rows // e.
Qed.

(** C9, as the code has it.  On an empty range [hypervolume] returns
    zero and leaves the state as it is, whatever the coordinates of the
    points are.  On a range of [r] points with [1 <= r < dimension_] it
    returns the square root of what [det] computes on the [r] by [r] Gram
    matrix of the difference vectors against the point [last] stands at:
    the square root of zero when [det] declares the Gram matrix singular
    (a pivot is not above [eps]), and the square root of the Gram
    determinant otherwise.  On a range of [dimension_] points it returns
    what [det] computes on the difference vectors themselves: zero when
    [det] declares them singular, their determinant otherwise. *)
Theorem hypervolume_cases (st : quick_hull) (first : seq point) (lastp : point) :
  let diffs := difference_rows first lastp in
  let G := gram_matrix diffs in
  let V := difference_block first lastp (size first) in
  [/\ first = [::] -> hypervolume st first lastp = (0, st),
      matrix_wf (matrix_ st) ->
      all (fun p => dimension_ <= size (coords p))%N (lastp :: first) ->
      (0 < size first < dimension_)%N ->
      [/\ (hypervolume st first lastp).1 = sqrtF (det G (size first)).1,
          det_singular G (size first) ->
            (hypervolume st first lastp).1 = sqrtF 0
        & 0 <= eps -> ~~ det_singular G (size first) ->
            (hypervolume st first lastp).1 = sqrtF (\det (V *m V^T))]
    & all (fun p => dimension_ <= size (coords p))%N (lastp :: first) ->
      (0 < size first)%N -> size first = dimension_ ->
      [/\ (hypervolume st first lastp).1 = (det diffs dimension_).1,
          det_singular diffs dimension_ -> (hypervolume st first lastp).1 = 0
        & 0 <= eps -> ~~ det_singular diffs dimension_ ->
            (hypervolume st first lastp).1 =
            \det (difference_block first lastp dimension_)]].
Proof.
split=> [->|wf sz lt|sz lt e] //.
- have eg := @hypervolume_gram st first lastp sz wf lt; split=> // [sing|eps0 reg].
    by rewrite eg det_singular_zero.
  by rewrite eg det_regular // block_of_gram.
- have ef := @hypervolume_full st first lastp sz lt e; split=> // [sing|eps0 reg].
    by rewrite ef det_singular_zero.
  by rewrite ef det_regular // block_of_differences.
Qed.

(** ** The partitioner *)

Section Partition.

Variable fc0 : facet.

Let dist (p : point) : F := distance fc0 (coords p).

(** What [partition] leaves alone, what stays in the pool and what goes
    to the coplanar bag, after the points [s] of the pool. *)
Lemma partition_frame (s : seq point) :
  let: (distance_, fc, rest) := partition fc0 s in
  [/\ vertices_ fc = vertices_ fc0, neighbours_ fc = neighbours_ fc0,
      normal_ fc = normal_ fc0 /\ D fc = D fc0,
      rest = [seq p <- s | ~~ (eps < dist p)]
    & coplanar_ fc = coplanar_ fc0 ++
        [seq p <- s | ~~ (eps < dist p) && ~~ (dist p < - eps)]].
Proof.
rewrite /partition.
elim/last_ind: s => [|s p IH] /=; first by rewrite cats0.
rewrite foldl_rcons; case: (foldl _ _ s) IH => [[distance_ fc] rest].
case=> ev en [enor eD] erest ecop.
rewrite /partition_step !filter_rcons.
have ->: distance fc (coords p) = dist p by rewrite /dist /distance enor eD.
case: (ltP eps (dist p)) => [lt_eps|le_eps] /=.
  by case: (ltP distance_ (dist p)).
case: (ltP (dist p) (- eps)) => [lt_neps|ge_neps] /=.
  by split=> //; rewrite erest.
by split=> //; rewrite ?erest ?ecop ?rcons_cat.
Qed.

(** The [outside_] list and the running maximum. *)
Lemma partition_invariant (s : seq point) :
  0 <= eps -> outside_ fc0 = [::] ->
  let: (distance_, fc, rest) := partition fc0 s in
  [/\ perm_eq (outside_ fc) [seq p <- s | eps < dist p],
      all (fun y => dist y <= distance_) (outside_ fc)
    & distance_ = if outside_ fc is x :: _ then dist x else 0].
Proof.
move=> eps0 out0; rewrite /partition.
elim/last_ind: s => [|s p IH] /=; first by rewrite out0.
move: (partition_frame s); rewrite /partition foldl_rcons.
case: (foldl _ _ s) IH => [[distance_ fc] rest] [eout emax edist].
case=> _ _ [enor eD] _ _.
rewrite /partition_step !filter_rcons.
have ->: distance fc (coords p) = dist p by rewrite /dist /distance enor eD.
case: (ltP eps (dist p)) => [lt_eps|le_eps] /=; last by case: ifP.
case: (ltP distance_ (dist p)) => [lt_d|le_d] /=.
  split=> //=; first by rewrite perm_sym perm_rcons perm_cons perm_sym.
  by rewrite lexx /=; apply: sub_all emax => y le_y; apply: le_trans le_y (ltW lt_d).
split=> //; first by rewrite perm_rcons perm_sym perm_rcons perm_cons perm_sym.
  by rewrite all_rcons le_d.
case: (outside_ fc) edist => [e0|x o -> //].
by move: le_d; rewrite e0 leNgt (le_lt_trans eps0 lt_eps).
Qed.

End Partition.

(** C2. With [0 <= eps] (the constructor's assertion) and a facet whose
    [outside_] list is empty, [partition] moves exactly the pool points
    whose distance exceeds [eps] into the facet's [outside_] list, the
    others stay in the pool in order; a non-empty [outside_] list starts
    with a point of largest distance, which is the value returned, and the
    value returned is zero when no distance exceeds [eps]. *)
Theorem partition_outside (fc : facet) (pool : seq point) :
  0 <= eps -> outside_ fc = [::] ->
  let: (dmax, fc', pool') := partition fc pool in
  let dist p := distance fc (coords p) in
  [/\ perm_eq (outside_ fc') [seq p <- pool | eps < dist p],
      pool' = [seq p <- pool | ~~ (eps < dist p)],
      forall x o, outside_ fc' = x :: o ->
        dmax = dist x /\ (forall y, y \in pool -> eps < dist y -> dist y <= dist x)
    & [seq p <- pool | eps < dist p] = [::] -> dmax = 0].
Proof.
move=> eps0 out0.
move: (partition_invariant pool eps0 out0) (partition_frame fc pool).
case: (partition fc pool) => [[dmax fc'] pool'] [eout emax edist] [_ _ _ erest _].
split=> //.
- move=> x o eo; rewrite eo in edist; split=> // y yin lty.
  have: y \in outside_ fc' by rewrite (perm_mem eout) mem_filter lty.
  by move/(allP emax); rewrite edist.
- by move=> e0; move: eout edist; rewrite e0 => /perm_nilP->.
Qed.

(** C3, as the code has it.  A pool point whose distance lies in
    [[-eps, eps]] is appended to the facet's coplanar bag, and it stays in
    the pool: [partition] copies the handle ([push_back]) and splices
    nothing. *)
Theorem partition_coplanar (fc : facet) (pool : seq point) (p : point) :
  p \in pool -> - eps <= distance fc (coords p) <= eps ->
  let: (_, fc', pool') := partition fc pool in
  p \in coplanar_ fc' /\ p \in pool'.
Proof.
move=> pin /andP[ge_neps le_eps]; move: (partition_frame fc pool).
case: (partition fc pool) => [[dmax fc'] pool'] [_ _ _ -> ->].
by rewrite mem_cat !mem_filter pin -!leNgt le_eps ge_neps orbT.
Qed.

(** ** Ranking *)

Lemma perm_ranking_emplace nd rk : perm_eq (ranking_emplace nd rk) (nd :: rk).
Proof.
elim: rk => [|y rk IH] //=; case: ifP => // _.
by rewrite perm_sym (perm_catCA [:: nd] [:: y] rk) /= perm_cons perm_sym.
Qed.

Lemma meta_find_none f meta :
  f \notin [seq e.1 | e <- meta] -> meta_find f meta = None.
Proof.
rewrite /meta_find => nin.
suff ->: [seq e <- meta | e.1 == f] = [::] by [].
apply/eqP; rewrite -[_ == _]negbK -has_filter; apply: contra nin => /hasP[e ein /eqP<-].
exact: map_f.
Qed.

Lemma meta_find_some f it meta :
  meta_find f meta = Some it -> (f, it) \in meta.
Proof.
rewrite /meta_find; case e: [seq e <- meta | e.1 == f] => [|[g j] s] //= [<-].
have: (g, j) \in [seq e <- meta | e.1 == f] by rewrite e mem_head.
by rewrite mem_filter /= => /andP[/eqP<-].
Qed.

Lemma meta_find_in f meta :
  f \in [seq e.1 | e <- meta] -> exists it, meta_find f meta = Some it.
Proof.
rewrite /meta_find => /mapP[[g j] ein /= ->].
case e: [seq e <- meta | e.1 == g] => [|[g' j'] s]; last by exists j'.
by have: (g, j) \in [seq e <- meta | e.1 == g]; [rewrite mem_filter /= eqxx | rewrite e].
Qed.

Lemma links_facets st : [seq l.2 | l <- ranking_links st] = ranked_facets st.
Proof. by rewrite /ranking_links -map_comp. Qed.

Lemma links_ids st : [seq l.1 | l <- ranking_links st] = [seq nd.1 | nd <- ranking_ st].
Proof. by rewrite /ranking_links -map_comp. Qed.

Lemma meta_links_keys st : [seq l.2 | l <- meta_links st] = [seq e.1 | e <- ranking_meta_ st].
Proof. by rewrite /meta_links -map_comp. Qed.

Lemma ranking_inv_keys st :
  ranking_inv st -> perm_eq (ranked_facets st) [seq e.1 | e <- ranking_meta_ st].
Proof.
by case=> /(perm_map snd); rewrite links_facets meta_links_keys.
Qed.

Lemma rank_inv o f st :
  ranking_inv st -> f \notin ranked_facets st -> ranking_inv (rank o f st).
Proof.
move=> inv nin; rewrite /rank; case: ifP => // _.
have nink : f \notin [seq e.1 | e <- ranking_meta_ st].
  by rewrite -(perm_mem (ranking_inv_keys inv)).
case: inv => plinks uid lt_next ufc.
have pe := perm_ranking_emplace (next_node_ st, (o, f)) (ranking_ st).
have fresh : next_node_ st \notin [seq nd.1 | nd <- ranking_ st].
  apply/negP => /mapP[nd /(allP lt_next) lt_nd e].
  by rewrite -e ltnn in lt_nd.
split; rewrite /ranking_links /meta_links /ranked_facets /=.
- rewrite (perm_trans (perm_map _ pe)) //= /meta_emplace meta_find_none //.
  by rewrite map_rcons perm_sym perm_rcons perm_cons perm_sym.
- by rewrite (perm_uniq (perm_map _ pe)) /= fresh.
- rewrite (perm_all _ pe) /= ltnSn /=.
  by apply: sub_all lt_next => nd /ltnW.
- by rewrite (perm_uniq (perm_map _ pe)) /= nin.
Qed.

Lemma link_id_eq it f (s : seq (nat * nat)) l :
  uniq [seq l.1 | l <- s] -> (it, f) \in s -> l \in s ->
  (l.1 == it) = (l == (it, f)).
Proof.
case: l => j g us lin jin /=; apply/eqP/eqP => [e|[]//].
rewrite e in jin *; congr (_, _).
elim: s us lin jin => [|[a b] s IH] //= /andP[ain us]; rewrite !inE.
case/orP=> [/eqP[e1 e2]|lin] /orP[/eqP[e3 e4]|jin]; rewrite ?e2 ?e4 //.
- by case/negP: ain; rewrite -e1; apply/mapP; exists (it, g).
- by case/negP: ain; rewrite -e3; apply/mapP; exists (it, f).
- exact: IH.
Qed.

Lemma link_facet_eq it f (s : seq (nat * nat)) l :
  uniq [seq l.2 | l <- s] -> (it, f) \in s -> l \in s ->
  (l.2 == f) = (l == (it, f)).
Proof.
case: l => j g us lin jin /=; apply/eqP/eqP => [e|[]//].
rewrite e in jin *; congr (_, _).
elim: s us lin jin => [|[a b] s IH] //= /andP[ain us]; rewrite !inE.
case/orP=> [/eqP[e1 e2]|lin] /orP[/eqP[e3 e4]|jin]; rewrite ?e1 ?e3 //.
- by case/negP: ain; rewrite -e2; apply/mapP; exists (j, f).
- by case/negP: ain; rewrite -e4; apply/mapP; exists (it, f).
- exact: IH.
Qed.

Lemma filter_links_id it f (s : seq (nat * nat)) :
  uniq [seq l.1 | l <- s] -> (it, f) \in s ->
  [seq l <- s | l.1 != it] = [seq l <- s | l != (it, f)].
Proof.
by move=> us lin; apply/eq_in_filter => l jin; rewrite (link_id_eq us lin).
Qed.

Lemma filter_links_facet it f (s : seq (nat * nat)) :
  uniq [seq l.2 | l <- s] -> (it, f) \in s ->
  [seq l <- s | l.2 != f] = [seq l <- s | l != (it, f)].
Proof.
by move=> us lin; apply/eq_in_filter => l jin; rewrite (link_facet_eq us lin).
Qed.

Lemma unrank_inv f st : ranking_inv st -> ranking_inv (unrank f st).
Proof.
move=> inv; rewrite /unrank.
case e: (meta_find f (ranking_meta_ st)) => [it|] //.
have /= fin := meta_find_some e.
have pk := ranking_inv_keys inv.
case: inv => plinks uid lt_next ufc.
have min : (it, f) \in meta_links st by apply/mapP; exists (f, it).
have rin : (it, f) \in ranking_links st by rewrite (perm_mem plinks).
have umeta1 : uniq [seq l.1 | l <- meta_links st].
  by rewrite -(perm_uniq (perm_map fst plinks)) links_ids.
have umeta2 : uniq [seq l.2 | l <- meta_links st].
  by rewrite -(perm_uniq (perm_map snd plinks)) links_facets.
split; rewrite /ranking_links /meta_links /ranked_facets /=.
- rewrite /ranking_erase /meta_erase.
  have ->: [seq (nd.1, nd.2.2) | nd <- [seq nd <- ranking_ st | nd.1 != it]]
         = [seq l <- ranking_links st | l.1 != it].
    by rewrite /ranking_links filter_map.
  have ->: [seq (e0.2, e0.1) | e0 <- [seq e0 <- ranking_meta_ st | e0.1 != f]]
         = [seq l <- meta_links st | l.2 != f].
    by rewrite /meta_links filter_map.
  rewrite (filter_links_id _ rin) ?links_ids //.
  by rewrite (filter_links_facet _ min) //; apply: perm_filter.
- by rewrite /ranking_erase; apply: (subseq_uniq _ uid); apply/map_subseq/filter_subseq.
- by rewrite /ranking_erase all_filter; apply: sub_all lt_next => nd /= ->; rewrite implybT.
- by rewrite /ranking_erase; apply: (subseq_uniq _ ufc); apply/map_subseq/filter_subseq.
Qed.

Lemma reachable_inv st : ranking_reachable st -> ranking_inv st.
Proof.
elim=> [st' e1 e2|st' o f _ inv nin|st' f _ inv].
- by split; rewrite /ranking_links /meta_links /ranked_facets e1 ?e2.
- exact: rank_inv.
- exact: unrank_inv.
Qed.

Lemma node_deref_in st nd :
  uniq [seq nd.1 | nd <- ranking_ st] -> nd \in ranking_ st ->
  node_deref st nd.1 = nd.2.
Proof.
rewrite /node_deref; elim: (ranking_ st) => [|y rk IH] //= /andP[yin urk].
rewrite inE; case/orP=> [/eqP->|ndin]; first by rewrite eqxx.
case: eqP => [e|_]; last exact: IH.
by case/negP: yin; rewrite e; apply: map_f.
Qed.

Lemma ranking_inv_pairs st :
  ranking_inv st -> perm_eq (ranking_pairs st) (meta_pairs st).
Proof.
case=> plinks uid _ _.
have /= := perm_map (fun l => ((node_deref st l.1).1, l.2)) plinks.
rewrite /ranking_links /meta_links -!map_comp /meta_pairs.
suff ->: [seq ((node_deref st nd.1).1, nd.2.2) | nd <- ranking_ st] = ranking_pairs st by [].
apply/eq_in_map => nd ndin /=.
by rewrite node_deref_in //; case: nd {ndin} => [? []].
Qed.

Lemma ranking_erase_facet st f it :
  ranking_inv st -> meta_find f (ranking_meta_ st) = Some it ->
  ranking_erase it (ranking_ st) = [seq nd <- ranking_ st | nd.2.2 != f].
Proof.
move=> inv /meta_find_some fin; case: inv => plinks uid _ ufc.
have rin : (it, f) \in ranking_links st.
  by rewrite (perm_mem plinks); apply/mapP; exists (f, it).
rewrite -links_ids in uid; rewrite -links_facets in ufc.
rewrite /ranking_erase; apply/eq_in_filter => nd ndin.
have lin : (nd.1, nd.2.2) \in ranking_links st by apply/mapP; exists nd.
by rewrite -[nd.1]/((nd.1, nd.2.2).1) (link_id_eq uid rin lin) -(link_facet_eq ufc rin lin).
Qed.

(** C7. In every state reached from an empty ranking by [rank] (for a
    facet index the ranking does not hold) and [unrank], the multimap and
    the side index have the same size and describe the same
    [(distance, facet)] pairs, and no facet index occurs twice; [rank]
    adds the pair exactly when the distance exceeds [eps]; [unrank]
    removes the entries of the facet on both sides and appends the index
    to the free list. *)
Theorem ranking_consistent (st : quick_hull) :
  ranking_reachable st ->
  [/\ size (ranking_ st) = size (ranking_meta_ st),
      perm_eq (ranking_pairs st) (meta_pairs st),
      uniq (ranked_facets st),
      forall o f, f \notin ranked_facets st ->
        perm_eq (ranking_pairs (rank o f st))
                (if eps < o then (o, f) :: ranking_pairs st else ranking_pairs st) /\
        [seq e.1 | e <- ranking_meta_ (rank o f st)] =
          (if eps < o then rcons [seq e.1 | e <- ranking_meta_ st] f
           else [seq e.1 | e <- ranking_meta_ st])
    & forall f,
        [/\ ranking_pairs (unrank f st) = [seq p <- ranking_pairs st | p.2 != f],
            [seq e.1 | e <- ranking_meta_ (unrank f st)] =
              [seq g <- [seq e.1 | e <- ranking_meta_ st] | g != f]
          & removed_facets_ (unrank f st) = rcons (removed_facets_ st) f]].
Proof.
move/reachable_inv => inv; split.
- case: inv => /perm_size; rewrite /ranking_links /meta_links !size_map.
  by [].
- exact: ranking_inv_pairs.
- by case: inv.
- move=> o f nin; rewrite /rank; case: ifP => // _; split.
    exact: (perm_map snd (perm_ranking_emplace (next_node_ st, (o, f)) (ranking_ st))).
  rewrite /= /meta_emplace meta_find_none ?map_rcons //.
  by rewrite -(perm_mem (ranking_inv_keys inv)).
- move=> f; rewrite /unrank /ranking_pairs.
  case e: (meta_find f (ranking_meta_ st)) => [it|] /=.
    by rewrite (ranking_erase_facet inv e) /meta_erase !filter_map.
  have nink : f \notin [seq e.1 | e <- ranking_meta_ st].
    by apply/negP => /meta_find_in[it]; rewrite e.
  have ninr : f \notin ranked_facets st.
    by rewrite (perm_mem (ranking_inv_keys inv)).
  split=> //.
    rewrite filter_map; congr map; apply/esym/all_filterP/allP => nd ndin /=.
    by apply: contra ninr => /eqP<-; apply/mapP; exists nd.
  apply/esym/all_filterP/allP => g gin.
  by apply: contra nink => /eqP<-.
Qed.

(** ** The ridge matcher *)

Lemma mem_skip_nth (vs : seq point) (v : nat) (x : point) :
  uniq vs -> (v < size vs)%N ->
  (x \in take v vs ++ drop v.+1 vs) = (x \in vs) && (x != nth nil_point vs v).
Proof.
move=> uvs ltv.
have evs : vs = take v vs ++ nth nil_point vs v :: drop v.+1 vs.
  by rewrite -drop_nth // cat_take_drop.
move: uvs; set a := nth _ _ _ in evs *; set s1 := take _ _ in evs *.
set s2 := drop _ _ in evs *; rewrite evs !mem_cat inE.
rewrite cat_uniq /= negb_or -!andbA => /and5P[_ nin1 _ nin2 _].
case: (altP (x =P a)) => [->|_]; last by rewrite andbT.
by rewrite (negPf nin1) (negPf nin2).
Qed.

Lemma skip_nth_subseq (T : eqType) (vs : seq T) (v : nat) :
  subseq (take v vs ++ drop v.+1 vs) vs.
Proof.
rewrite -{3}(cat_take_drop v vs); apply: cat_subseq => //.
by rewrite -add1n -drop_drop; apply: drop_subseq.
Qed.

Lemma ridge_vertices_uniq fs r : ridge_wf fs r -> uniq (ridge_vertices fs r).
Proof. by case/and4P=> _ _ _; apply/subseq_uniq/skip_nth_subseq. Qed.

Lemma ridge_vertices_size fs r :
  ridge_wf fs r -> size (ridge_vertices fs r) = dimension_.-1.
Proof.
case/and4P=> _ /eqP sz ltv _; rewrite /ridge_vertices size_cat size_take size_drop sz ltv.
by case: dimension_ ltv => [|d] //; rewrite ltnS subSS /= => /subnKC.
Qed.

Lemma ridge_eq_subset fs x y :
  ridge_wf fs x -> ridge_wf fs y ->
  reflect {subset ridge_vertices fs x <= ridge_vertices fs y} (ridge_eq fs x y).
Proof.
move=> wfx wfy.
case/and4P: (wfx) => _ /eqP szx ltx ux; case/and4P: (wfy) => _ /eqP szy lty uy.
rewrite -szx in ltx; rewrite -szy in lty.
apply: (iffP allP) => [H l|H l lin].
  rewrite /ridge_vertices !mem_skip_nth // => /andP[lin neq].
  move/(_ l lin): H; rewrite neq => /hasP[r rin /andP[rneq /eqP->]].
  by rewrite rin.
case: ifP => // neq; apply/hasP.
have: l \in ridge_vertices fs x by rewrite /ridge_vertices mem_skip_nth // lin neq.
move/H; rewrite /ridge_vertices mem_skip_nth // => /andP[lin' neq'].
by exists l => //; rewrite neq' eqxx.
Qed.

(** Under well-formedness [operator ==] is the multiset comparison. *)
Lemma ridge_eq_perm fs x y :
  ridge_wf fs x -> ridge_wf fs y ->
  ridge_eq fs x y = perm_eq (ridge_vertices fs x) (ridge_vertices fs y).
Proof.
move=> wfx wfy; apply/(ridge_eq_subset wfx wfy)/idP => [sub|/perm_mem e l].
  have ux := ridge_vertices_uniq wfx; have uy := ridge_vertices_uniq wfy.
  apply: uniq_perm => //.
  by have [] := uniq_min_size ux sub; rewrite ?ridge_vertices_size.
by rewrite e.
Qed.

Lemma ridge_lookup_match fs rs x :
  ridge_wf fs x -> all (ridge_wf fs) rs ->
  ridge_lookup fs rs x = ohead [seq y <- rs | ridge_match fs x y].
Proof.
move=> wfx wfrs; rewrite /ridge_lookup.
have ->: [seq y <- rs | (hash_ y == hash_ x) && ridge_eq fs x y]
       = [seq y <- rs | ridge_match fs x y].
  apply/eq_in_filter => y /(allP wfrs) wfy.
  by rewrite /ridge_match ridge_eq_perm.
by case: [seq y <- rs | _].
Qed.

(** C4. A record [x] inserted by [find_adjacent_facets] is paired with a
    stored record [y] exactly when [y] is the (first) stored record with
    the hash of [x] and the same multiset of handles; then entry
    [ridge_v y] of the neighbours of facet [ridge_f y] is the facet of
    [x], entry [v] of the neighbours of the facet of [x] is [ridge_f y],
    and [y] leaves the set.  With no such record nothing is linked and
    [x] is stored. *)
Theorem match_ridge_pairs (st : quick_hull) (f v h : nat) :
  let fs := facets_ st in
  let rs := unique_ridges_ st in
  let x := Ridge f v h in
  ridge_wf fs x -> all (ridge_wf fs) rs ->
  let st' := match_ridge f v h st in
  if [seq y <- rs | ridge_match fs x y] is y :: _ then
    [/\ nth 0%N (neighbours_ (nth facet0 (facets_ st') (ridge_f y))) (ridge_v y) = f,
        nth 0%N (neighbours_ (nth facet0 (facets_ st') f)) v = ridge_f y,
        forall g, nth facet0 (facets_ st') g =
                  set_neighbours_ (nth facet0 fs g)
                                  (neighbours_ (nth facet0 (facets_ st') g))
      & unique_ridges_ st' = rem y rs]
  else facets_ st' = fs /\ unique_ridges_ st' = rcons rs x.
Proof.
move=> fs rs x wfx wfrs /=; rewrite /match_ridge (ridge_lookup_match wfx wfrs).
rewrite -/rs -/fs; case: [seq y <- rs | _] => [|y s] //=.
split=> //.
- rewrite !nth_set_nth /=; case: (altP (ridge_f y =P f)) => [e|ne] /=.
    rewrite e eqxx /= !nth_set_nth /=; case: eqP => [//|_].
    by rewrite nth_set_nth /= eqxx.
  by do !rewrite ?(nth_set_nth, eqxx) /=.
- by do !rewrite ?(nth_set_nth, eqxx) /=.
- move=> g; rewrite !nth_set_nth /=; case: (altP (g =P f)) => [->|_] /=.
    by case: eqP => [->|_] /=.
  by rewrite !nth_set_nth /=; case: eqP => [->|_] //=; case: (nth facet0 fs g).
Qed.

(** ** The affine-basis selector *)

Lemma steal_best_scan_furthest rank_ m (n : nat) (s : seq (nat * point)) acc :
  all (fun ip => ip.1 < n)%N s ->
  (forall k, acc.2 = Some k -> (k < n)%N) ->
  forall k, (foldl (steal_best_scan rank_ m) acc s).2 = Some k -> (k < n)%N.
Proof.
elim: s acc => [|ip s IH] [[sm d_] fu] //= /andP[ltn alls] Hfu; apply: IH => //.
rewrite /steal_best_scan; case: ifP => _ //= k [<-].
exact: ltn.
Qed.

(** [steal_best] either fails and leaves basis and pool alone, or moves
    one point of the pool to the end of the basis. *)
Lemma steal_best_cases (st : quick_hull) (basis : seq point) :
  let: (ok, st', basis') := steal_best st basis in
  let out := qh_outside_ st in
  if ok then
    exists2 k, (k < size out)%N &
      basis' = rcons basis (nth nil_point out k) /\
      qh_outside_ st' = take k out ++ drop k.+1 out
  else basis' = basis /\ qh_outside_ st' = out.
Proof.
rewrite /steal_best; case: (orthonormalize _ _ _ _) => [[] sm] //=.
set s := zip _ _; set acc := (sm, 0, None).
have := @steal_best_scan_furthest (size basis).-1
          (forward_transformation (size basis).-1
             (set_nth [::] (matrix_ st) (size basis).-1
                (copy_n (coords (last nil_point basis)) dimension_
                        (nth [::] (matrix_ st) (size basis).-1))) sm)
          (size (qh_outside_ st)) s acc.
case: (foldl _ _ _) => [[sm' d_] [k|]] //= H.
exists k => //; apply: H => //.
apply/allP => ip /(map_f fst); rewrite -/(unzip1 s) unzip1_zip ?size_iota //.
by rewrite mem_iota.
Qed.

Lemma perm_steal (T : eqType) (x0 : T) (basis out : seq T) k :
  (k < size out)%N ->
  perm_eq (rcons basis (nth x0 out k) ++ (take k out ++ drop k.+1 out))
          (basis ++ out).
Proof.
move=> ltk; rewrite -cats1 -catA perm_cat2l.
rewrite -[X in perm_eq _ X](cat_take_drop k out) (drop_nth x0 ltk).
by rewrite (perm_catCA [:: nth x0 out k] (take k out)).
Qed.

Lemma steal_best_logged_cases (log : seq bool) (st : quick_hull) (basis : seq point) :
  match steal_best_logged (log, st, basis) with
  | inl (log', st', basis') =>
      [/\ log' = rcons log false, basis' = basis
        & qh_outside_ st' = qh_outside_ st]
  | inr (log', st', basis') =>
      [/\ log' = rcons log true, size basis' = (size basis).+1
        & perm_eq (basis' ++ qh_outside_ st') (basis ++ qh_outside_ st)]
  end.
Proof.
rewrite /steal_best_logged; move: (steal_best_cases st basis).
case: (steal_best st basis) => [[[] st'] basis'] /=.
  by case=> k ltk [-> ->]; split=> //; [rewrite size_rcons | apply: perm_steal].
by case=> -> ->.
Qed.

Lemma steal_best_loop (js : seq nat) (log : seq bool) (st : quick_hull)
    (basis : seq point) :
  match for_return js (fun _ => steal_best_logged) (log, st, basis) with
  | inl (log', st', basis') =>
      [/\ ~~ all id log', (size basis' < size basis + size js)%N
        & perm_eq (basis' ++ qh_outside_ st') (basis ++ qh_outside_ st)]
  | inr (log', st', basis') =>
      [/\ log' = log ++ nseq (size js) true,
          size basis' = (size basis + size js)%N
        & perm_eq (basis' ++ qh_outside_ st') (basis ++ qh_outside_ st)]
  end.
Proof.
elim: js log st basis => [|j js IH] log st basis.
  by rewrite /= cats0 addn0.
rewrite for_return_cons; move: (steal_best_logged_cases log st basis).
case: (steal_best_logged _) => [[[log1 st1] basis1]|[[log1 st1] basis1]] [e0 e1 e2].
  rewrite /=; split; rewrite ?e0 ?e1 ?e2 //; first by rewrite all_rcons.
  by rewrite -addn1 leq_add2l.
move: (IH log1 st1 basis1) => /=.
case: (for_return _ _ _) => [[[log2 st2] basis2]|[[log2 st2] basis2]] [e3 e4 e5].
- by split=> //; rewrite ?(perm_trans e5) // addnS -addSn -e1.
- split; rewrite ?(perm_trans e5) //; first by rewrite e3 e0 -cats1 -catA.
  by rewrite e4 e1 addSnnS.
Qed.

Lemma same_hull_refl st : same_hull st st.
Proof. by []. Qed.

Lemma same_hull_trans st1 st2 st3 :
  same_hull st1 st2 -> same_hull st2 st3 -> same_hull st1 st3.
Proof.
case=> -[a1 a2] [a3 a4] a5 [a6 a7] a8 [[b1 b2] [b3 b4] b5 [b6 b7] b8].
by split; rewrite ?b1 ?b2 ?b3 ?b4 ?b5 ?b6 ?b7 ?b8.
Qed.

Lemma same_hull_matrices st m sm : same_hull st (set_matrices st m sm).
Proof. by []. Qed.

Lemma same_hull_outside st o : same_hull st (set_qh_outside_ st o).
Proof. by []. Qed.

Lemma steal_best_same_hull st basis : same_hull st (steal_best st basis).1.2.
Proof.
rewrite /steal_best; case: (orthonormalize _ _ _ _) => [[] sm] //=.
by case: (foldl _ _ _) => [[sm' d_] [k|]].
Qed.

Lemma steal_best_logged_same_hull log st basis :
  match steal_best_logged (log, st, basis) with
  | inl r => same_hull st r.1.2
  | inr r => same_hull st r.1.2
  end.
Proof.
rewrite /steal_best_logged; move: (steal_best_same_hull st basis).
by case: (steal_best st basis) => [[[] st'] basis'].
Qed.

Lemma steal_best_loop_same_hull js log st basis :
  match for_return js (fun _ => steal_best_logged) (log, st, basis) with
  | inl r => same_hull st r.1.2
  | inr r => same_hull st r.1.2
  end.
Proof.
elim: js log st basis => [|j js IH] log st basis //.
rewrite for_return_cons; move: (steal_best_logged_same_hull log st basis).
case: (steal_best_logged _) => [//|[[log1 st1] basis1]] /= h1.
move: (IH log1 st1 basis1).
by case: (for_return _ _ _) => r /=; apply: same_hull_trans.
Qed.

(** C6. On a non-empty pool [get_affine_basis] returns at most
    [dimension_ + 1] handles; basis and remaining pool together are a
    permutation of the pool before the call; the basis has
    [dimension_ + 1] handles exactly when every call of [steal_best]
    returned true; and nothing but the working matrices and the pool has
    changed. *)
Theorem get_affine_basis_permutes (st : quick_hull) :
  (0 < dimension_)%N -> qh_outside_ st != [::] ->
  let: (log, st', basis) := get_affine_basis_run st in
  [/\ get_affine_basis st = (basis, st'),
      (size basis <= dimension_.+1)%N,
      perm_eq (basis ++ qh_outside_ st') (qh_outside_ st),
      (size basis == dimension_.+1) = all id log
    & same_hull st st'].
Proof.
move=> d0; rewrite /get_affine_basis /get_affine_basis_run.
case eo: (qh_outside_ st) => [|p out] // _.
move: (steal_best_logged_cases [::] (set_qh_outside_ st out) [:: p]).
move: (steal_best_logged_same_hull [::] (set_qh_outside_ st out) [:: p]).
case: (steal_best_logged _) => [[[log1 st1] basis1]|[[log1 st1] basis1]] /= h1 [e0 e1 e2].
  by rewrite e0 e1 e2 /=; split=> //; rewrite eqSS eq_sym eqn0Ngt d0.
set st2 := set_qh_outside_ st1 _.
move: (steal_best_loop (iota 0 dimension_) log1 st2 (behead basis1)).
move: (steal_best_loop_same_hull (iota 0 dimension_) log1 st2 (behead basis1)).
have sz2 : size (behead basis1) = 1%N by rewrite size_behead e1.
have p2 : perm_eq (behead basis1 ++ qh_outside_ st2) (p :: out).
  apply: perm_trans e2; rewrite /st2 /=.
  case: (basis1) e1 => [|a [|b []]] //= _.
  by rewrite (perm_catCA [:: b] [:: a]).
have h2 : same_hull st st2.
  apply: same_hull_trans (same_hull_outside _ _).
  exact: (same_hull_trans (same_hull_outside _ _) h1).
rewrite size_iota sz2 add1n.
case: (for_return _ _ _) => [[[log3 st3] basis3]|[[log3 st3] basis3]] /= h3 [e3 e4 e5].
  split=> //; first exact: ltnW.
  - exact: perm_trans e5 p2.
  - by rewrite (negPf e3) ltn_eqF.
  - exact: (same_hull_trans h2 h3).
split=> //; rewrite ?e4 ?eqxx //.
- exact: perm_trans e5 p2.
- by rewrite e3 e0 all_cat /= all_nseq orbT.
- exact: (same_hull_trans h2 h3).
Qed.

(** ** The initial simplex *)

Lemma swap_front_backE (T : Type) (s : seq T) :
  swap_front_back s = exchange_ends s.
Proof.
case: s => [|x [|y s]] //=.
elim/last_ind: s x y => [|s z _] x y //=.
rewrite last_rcons size_rcons belast_rcons /=; congr (_ :: _).
elim: s y => [|a s IH] y //=.
by rewrite IH.
Qed.

Lemma foldl_skip (vertex : nat) (s : seq (nat * point)) vs ns :
  foldl (fun acc vp =>
           let: (vs, ns) := acc in
           if vp.1 != vertex then (rcons vs vp.2, rcons ns vp.1) else (vs, ns))
        (vs, ns) s
  = (vs ++ [seq vp.2 | vp <- s & vp.1 != vertex],
     ns ++ [seq vp.1 | vp <- s & vp.1 != vertex]).
Proof.
elim: s vs ns => [|vp s IH] vs ns /=; first by rewrite !cats0.
by case: ifP => _; rewrite IH //= -!cats1 -!catA.
Qed.



Lemma set_hyperplane_equation_frame (m sm : matrix) (fc : facet) :
  let fc' := (set_hyperplane_equation m sm fc).2 in
  fc' = set_equation fc (normal_ fc') (D fc').
Proof.
rewrite /set_hyperplane_equation; case: (det _ _) => d0 m1.
by case: (for_loop _ _ _ _) => [[m2 nor] N].
Qed.

Lemma rank_facets o f st : facets_ (rank o f st) = facets_ st.
Proof. by rewrite /rank; case: ifP. Qed.



(** * Further properties

    ** The linear-algebra kernel *)

Lemma det_regular_neq0 m n :
  0 <= eps -> ~~ det_singular m n -> (det m n).1 != 0.
Proof.
move=> eps0; rewrite /det_singular /det.
have ltn : all (fun i => i < n)%N (iota 0 n).
  by apply/allP => i; rewrite mem_iota add0n.
move: (det_loop_states 1 m ltn) (det_states_index m ltn) => /=.
case: (for_return _ _ _) => r // [-> /allP reg _] /allP idx _.
rewrite mul1r mulf_neq0 //; first by rewrite expf_neq0 // oppr_eq0 oner_eq0.
rewrite prodf_seq_neq0; apply/allP => -[i m'] sin /=.
have lti : (i < n)%N := idx _ sin.
rewrite -normr_gt0 step_pivot_max //.
exact: le_lt_trans eps0 (reg _ sin).
Qed.

(** X1. With [0 <= eps], the value of [det] is zero when it declares the
    block singular; otherwise it is the determinant of the leading block
    and is not zero.  With [eps = 0] it is the determinant in both
    cases. *)
Theorem det_determinant (m : matrix) (n : nat) :
  0 <= eps ->
  [/\ det_singular m n -> (det m n).1 = 0,
      ~~ det_singular m n ->
        (det m n).1 = \det (block_of m 0 n) /\ (det m n).1 != 0
    & eps = 0 -> (det m n).1 = \det (block_of m 0 n)].
Proof.
move=> eps0; split; first exact: det_singular_zero.
- by move=> reg; split; [apply: det_regular | apply: det_regular_neq0].
- exact: det_exact.
Qed.

Lemma mget_det_next_below n i m r c :
  (i < n)%N -> (n <= r)%N -> mget (det_next n i m) r c = mget m r c.
Proof.
move=> ltin ler; rewrite /det_next.
move: (find_pivot_spec m ltin); case: (find_pivot m n i) => mx pv [/andP[_ ltp] _ _] /=.
rewrite mget_det_eliminate // mget_det_scale_column //.
rewrite [(r < n)%N]ltnNge ler !andbF /=.
case: ifP => // _; rewrite mget_swap_rows.
by rewrite (gtn_eqF (leq_trans ltp ler)) (gtn_eqF (leq_trans ltin ler)).
Qed.

Lemma mget_det_below m n r c :
  (n <= r)%N -> mget (det m n).2 r c = mget m r c.
Proof.
move=> ler; rewrite /det.
have: all (fun i => i < n)%N (iota 0 n) by apply/allP => i; rewrite mem_iota.
move: (1 : F); elim: (iota 0 n) m => [|i js IH] m acc //= /andP[ltin ltjs].
rewrite -/(det_step n i (acc, m)) det_step_cases //; case: ifP => // _.
by rewrite IH // mget_det_next_below.
Qed.

(** X2. The value of [det] and whether it declares the block singular
    depend on the leading [n] by [n] block only; [det] keeps the shape of
    the matrix and the entries of the rows from [n] on. *)
Theorem det_leading_block (m1 m2 : matrix) (n : nat) :
  block_eq n m1 m2 ->
  [/\ (det m1 n).1 = (det m2 n).1, det_singular m1 n = det_singular m2 n,
      (n <= dimension_)%N -> matrix_wf m1 -> matrix_wf (det m1 n).2
    & forall r c, (n <= r)%N -> mget (det m1 n).2 r c = mget m1 r c].
Proof.
move=> H; have [e1 e2] := det_block_ext H; split=> //.
- exact: matrix_wf_det.
- by move=> r c; apply: mget_det_below.
Qed.

(** X3. On a [dimension_] by [dimension_] matrix, [matrix_transpose]
    exchanges the entries [(a, b)] and [(b, a)], keeps the shape, and
    undoes itself. *)
Theorem matrix_transpose_involutive (sm : matrix) :
  matrix_wf sm ->
  [/\ matrix_wf (matrix_transpose sm),
      forall a b, (a < dimension_)%N -> (b < dimension_)%N ->
        mget (matrix_transpose sm) a b = mget sm b a
    & matrix_transpose (matrix_transpose sm) = sm].
Proof.
move=> wf; have [wft Ht] := matrix_transpose_spec wf.
have [wftt Htt] := matrix_transpose_spec wft.
split=> //; apply: matrix_wf_ext => // r c ltr ltc.
by rewrite Htt // Ht.
Qed.

(** X4. [matrix_restore i] makes [matrix_] a copy of [shadow_matrix_]
    with row [i] replaced by ones. *)
Theorem matrix_restore_ones (identity : nat) (m sm : matrix) :
  matrix_wf m -> matrix_wf sm -> (identity < dimension_)%N ->
  let m' := matrix_restore identity m sm in
  [/\ matrix_wf m',
      nth [::] m' identity = nseq dimension_ 1
    & forall r, r != identity -> nth [::] m' r = nth [::] sm r].
Proof.
move=> wfm wfsm lti; rewrite /= matrix_restoreE //; split.
- by apply: matrix_wf_set_nth => //; rewrite size_nseq.
- by rewrite nth_set_nth /= eqxx.
- by move=> r /negPf ne; rewrite nth_set_nth /= ne.
Qed.

(** X5. [matrix_sqr n] writes the inner products of the first [n] rows
    of [matrix_] into the leading [n] by [n] block of [shadow_matrix_],
    which is symmetric then, and leaves the other entries as they are. *)
Theorem matrix_sqr_gram (n : nat) (m sm : matrix) :
  (forall r, (r < n)%N -> size (nth [::] m r) = dimension_) ->
  [/\ forall r c, (r < n)%N -> (c < n)%N ->
        mget (matrix_sqr n m sm) r c = dot (nth [::] m r) (nth [::] m c),
      forall r c, (r < n)%N -> (c < n)%N ->
        mget (matrix_sqr n m sm) r c = mget (matrix_sqr n m sm) c r
    & forall r c, ~~ ((r < n)%N && (c < n)%N) ->
        mget (matrix_sqr n m sm) r c = mget sm r c].
Proof.
move=> sz.
have gram r c : (r < n)%N -> (c < n)%N ->
    mget (matrix_sqr n m sm) r c = dot (nth [::] m r) (nth [::] m c).
  move=> ltr ltc; rewrite mget_matrix_sqr ltr ltc /= inner_product_sum add0r /dot.
  rewrite -(big_mkord xpredT (fun k => nth 0 (nth [::] m r) k * nth 0 (nth [::] m c) k)).
  by rewrite sz // big_mkord.
split=> // [r c ltr ltc|r c /negPf nin]; last by rewrite mget_matrix_sqr nin.
by rewrite !gram // /dot; apply: eq_bigr => k _; rewrite mulrC.
Qed.

Lemma hypervolume_same_hull st first lastp :
  same_hull st (hypervolume st first lastp).2.
Proof.
rewrite /hypervolume; case: first => [|p ps]; first exact: same_hull_refl.
case: ifP => _; case: (det _ _) => v m /=; exact: same_hull_matrices.
Qed.

Lemma hypervolume_outside st first lastp :
  qh_outside_ (hypervolume st first lastp).2 = qh_outside_ st.
Proof.
rewrite /hypervolume; case: first => [|p ps] //.
by case: ifP => _; case: (det _ _).
Qed.


(** ** The ranking: order and round trips *)

Lemma node_le_trans : transitive node_le.
Proof. by move=> y x z; apply: le_trans. Qed.

Lemma path_ranking_emplace x nd rk :
  node_le x nd -> path node_le x rk -> path node_le x (ranking_emplace nd rk).
Proof.
elim: rk x => [|y rk IH] x /= lexn; first by rewrite lexn.
case/andP=> lexy pth; case: ltP => [lt|le] /=.
  by rewrite lexn /node_le (ltW lt) pth.
by rewrite lexy IH.
Qed.

Lemma sorted_ranking_emplace nd rk :
  sorted node_le rk -> sorted node_le (ranking_emplace nd rk).
Proof.
case: rk => [|y rk] //= pth; case: ltP => [lt|le] /=.
  by rewrite /node_le (ltW lt) pth.
exact: path_ranking_emplace.
Qed.

Lemma reachable_sorted st : ranking_reachable st -> ranking_sorted st.
Proof.
rewrite /ranking_sorted; elim=> [st' -> _|st' o f _ srt _|st' f _ srt] //.
- by rewrite /rank; case: ifP => // _; apply: sorted_ranking_emplace.
- rewrite /unrank; case: (meta_find _ _) => [it|] //=.
  exact: (sorted_filter node_le_trans).
Qed.

Lemma sorted_last_max (x0 x : ranking_node) (s : seq ranking_node) :
  sorted node_le s -> x \in s -> node_le x (last x0 s).
Proof.
elim: s x0 => [|y s IH] x0 //= pth; rewrite inE => /orP[/eqP->|xin].
  have /allP H := order_path_min node_le_trans pth.
  case: s {IH} pth H => [|z s] _ H /=; first exact: lexx.
  by apply: H; apply: mem_last.
by apply: IH => //; apply: path_sorted pth.
Qed.

(** X7. In a state reached by [rank] and [unrank] the nodes of the
    multimap stand in the order of their distances, and when the ranking
    is not empty [get_best_facet] returns a ranked facet whose distance
    is the largest of all. *)
Theorem get_best_facet_furthest (st : quick_hull) :
  ranking_reachable st ->
  ranking_sorted st /\
  (ranking_ st != [::] ->
   exists2 o, (o, get_best_facet st) \in ranking_pairs st
            & forall p, p \in ranking_pairs st -> p.1 <= o).
Proof.
move=> reach; have srt := reachable_sorted reach; split=> // ne.
set nd0 : ranking_node := (0%N, (0, 0%N)).
have lin : last nd0 (ranking_ st) \in ranking_ st.
  by case: (ranking_ st) ne => [|y s] //= _; apply: mem_last.
exists (last nd0 (ranking_ st)).2.1.
  apply/mapP; exists (last nd0 (ranking_ st)) => //.
  by rewrite /get_best_facet -/nd0; case: (last _ _) => [? []].
by move=> p /mapP[nd ndin ->]; apply: (sorted_last_max nd0 srt).
Qed.

Lemma ranking_erase_fresh it nd rk :
  nd.1 = it -> it \notin [seq y.1 | y <- rk] ->
  ranking_erase it (ranking_emplace nd rk) = rk.
Proof.
move=> e; rewrite /ranking_erase; elim: rk => [|y rk IH] /=.
  by rewrite e eqxx.
rewrite inE negb_or eq_sym => /andP[ne nin]; case: ifP => _ /=.
  rewrite e eqxx /= ne; congr (_ :: _).
  by apply/all_filterP/allP => z zin; apply: contraNneq nin => <-; apply: map_f.
by rewrite ne IH.
Qed.

(** X8. [unrank f] undoes [rank o f] on the multimap and on the side
    index, for a facet the ranking does not hold, whatever [o] is; the
    index [f] is appended to the free list in any case. *)
Theorem rank_unrank (st : quick_hull) (o : F) (f : nat) :
  ranking_reachable st -> f \notin ranked_facets st ->
  let st' := unrank f (rank o f st) in
  [/\ ranking_ st' = ranking_ st, ranking_meta_ st' = ranking_meta_ st
    & removed_facets_ st' = rcons (removed_facets_ st) f].
Proof.
move=> reach nin; have inv := reachable_inv reach.
have nink : f \notin [seq e.1 | e <- ranking_meta_ st].
  by rewrite -(perm_mem (ranking_inv_keys inv)).
case: inv => _ _ lt_next _.
have fresh : next_node_ st \notin [seq nd.1 | nd <- ranking_ st].
  apply/negP => /mapP[nd /(allP lt_next) lt_nd e].
  by rewrite -e ltnn in lt_nd.
rewrite /rank; case: ifP => _ /=; rewrite /unrank /=; last first.
  by rewrite (meta_find_none nink).
rewrite /meta_emplace (meta_find_none nink).
have -> : meta_find f (rcons (ranking_meta_ st) (f, next_node_ st))
          = Some (next_node_ st).
  rewrite /meta_find filter_rcons /= eqxx.
  have -> : [seq e <- ranking_meta_ st | e.1 == f] = [::].
    apply/eqP; rewrite -[_ == _]negbK -has_filter; apply: contra nink.
    by case/hasP=> e ein /eqP <-; apply: map_f.
  by [].
rewrite /= ranking_erase_fresh // /meta_erase filter_rcons /= eqxx.
split=> //; apply/all_filterP/allP => e ein.
by apply: contraNneq nink => <-; apply: map_f.
Qed.

(** ** The partitioner on a facet that holds points already *)

Lemma partition_outside_any (fc : facet) (s : seq point) :
  let: (distance_, fc', rest) := partition fc s in
  perm_eq (outside_ fc')
          (outside_ fc ++ [seq p <- s | eps < distance fc (coords p)]) /\
  0 <= distance_.
Proof.
rewrite /partition.
elim/last_ind: s => [|s p IH] /=; first by rewrite cats0.
move: (partition_frame fc s); rewrite /partition foldl_rcons.
case: (foldl _ _ s) IH => [[distance_ fc'] rest] [eout ge0].
case=> _ _ [enor eD] _ _.
rewrite /partition_step !filter_rcons.
have ->: distance fc' (coords p) = distance fc (coords p).
  by rewrite /distance enor eD.
case: (ltP eps (distance fc (coords p))) => [lt_eps|le_eps] /=; last by case: ifP.
case: (ltP distance_ (distance fc (coords p))) => [lt_d|le_d] /=.
  split; last exact: le_trans ge0 (ltW lt_d).
  by rewrite -rcons_cat perm_sym perm_rcons perm_cons perm_sym.
by split=> //; rewrite -rcons_cat perm_rcons perm_sym perm_rcons perm_cons perm_sym.
Qed.

(** X9. [partition] loses and duplicates no point, whatever the facet
    holds before: its [outside_] list and the pool left behind are
    together a permutation of the [outside_] list and the pool before;
    the pool keeps its order; the coplanar bag gains the points left in
    the pool whose distance is not below [- eps]; vertices, neighbours
    and the hyperplane are as before; and the value returned is not
    negative. *)
Theorem partition_conserves (fc : facet) (pool : seq point) :
  let: (dmax, fc', pool') := partition fc pool in
  [/\ perm_eq (outside_ fc' ++ pool') (outside_ fc ++ pool),
      subseq pool' pool,
      coplanar_ fc' =
        coplanar_ fc ++ [seq p <- pool' | ~~ (distance fc (coords p) < - eps)],
      [/\ vertices_ fc' = vertices_ fc, neighbours_ fc' = neighbours_ fc,
          normal_ fc' = normal_ fc & D fc' = D fc]
    & 0 <= dmax].
Proof.
move: (partition_frame fc pool) (partition_outside_any fc pool).
case: (partition fc pool) => [[dmax fc'] pool'] [ev en [enor eD] -> ->] [eout ge0].
split=> //.
- rewrite (perm_catr _ eout) -catA perm_cat2l.
  exact/permPl/(perm_filterC (fun p => eps < distance fc (coords p))).
- exact: filter_subseq.
- rewrite -filter_predI; congr (_ ++ _).
  by apply: eq_filter => p /=; rewrite andbC.
Qed.

(** ** The facets of the initial simplex and the inner point *)

Lemma perm_exchange_ends (T : eqType) (s : seq T) : perm_eq (exchange_ends s) s.
Proof.
case: s => [|x [|y s]] //.
have -> : exchange_ends [:: x, y & s] = last y s :: rcons (belast y s) x by [].
rewrite [X in perm_eq _ (_ :: X)]lastI -(rcons_cons (last y s)) perm_rcons.
by rewrite perm_cons perm_sym perm_rcons.
Qed.

Lemma map_exchange_ends (T U : Type) (g : T -> U) (s : seq T) :
  [seq g x | x <- exchange_ends s] = exchange_ends [seq g x | x <- s].
Proof.
case: s => [|x [|y s]] //=; rewrite last_map map_rcons; congr (_ :: rcons _ _).
by elim: s y => [|z s IH] y //=; rewrite IH.
Qed.

Lemma size_exchange_ends (T : Type) (s : seq T) : size (exchange_ends s) = size s.
Proof.
case: s => [|x [|y s]] //=; rewrite size_rcons; congr _.+1.
by elim: s y => [|z s IH] y //=; rewrite IH.
Qed.

Lemma zip_iota_nth (s : seq point) (vp : nat * point) :
  vp \in zip (iota 0 (size s)) s -> vp.2 = nth nil_point s vp.1.
Proof.
case: vp => i p /(nthP (0%N, nil_point))[k]; rewrite size_zip size_iota minnn => ltk.
by rewrite nth_zip ?size_iota // nth_iota // => -[<- <-].
Qed.

(** X10. The facet the simplex constructor builds for the omitted index
    [f] has [dimension_] vertices and neighbours; its neighbours are the
    indices from 0 to [dimension_] other than [f]; and the vertex at a
    position is the point of the simplex whose index is the neighbour at
    that position: each neighbour lies against its vertex.  The point
    lists of the facet are empty. *)
Theorem facet_simplex_against (simplex : seq point) (f : nat) (swap : bool) :
  size simplex = dimension_.+1 -> (f <= dimension_)%N ->
  let fc := facet_simplex simplex f swap in
  [/\ size (vertices_ fc) = dimension_, size (neighbours_ fc) = dimension_,
      vertices_ fc = [seq nth nil_point simplex v | v <- neighbours_ fc],
      perm_eq (f :: neighbours_ fc) (iota 0 dimension_.+1)
    & outside_ fc = [::] /\ coplanar_ fc = [::]].
Proof.
move=> sz lef; rewrite /facet_simplex -sz foldl_skip /=.
set z := zip _ _; set zs := [seq vp <- z | vp.1 != f].
have evs : [seq vp.2 | vp <- zs] = [seq nth nil_point simplex v | v <- [seq vp.1 | vp <- zs]].
  rewrite -map_comp; apply/eq_in_map => vp; rewrite mem_filter => /andP[_].
  exact: zip_iota_nth.
have ens : [seq vp.1 | vp <- zs] = [seq i <- iota 0 (size simplex) | i != f].
  have -> : iota 0 (size simplex) = unzip1 z by rewrite /z unzip1_zip ?size_iota.
  by rewrite /unzip1 filter_map.
have pns : perm_eq (f :: [seq vp.1 | vp <- zs]) (iota 0 (size simplex)).
  rewrite ens sz.
  have fin : f \in iota 0 dimension_.+1 by rewrite mem_iota.
  by rewrite perm_sym -(perm_filterC (pred1 f)) filter_pred1_uniq ?iota_uniq.
have szn : size [seq vp.1 | vp <- zs] = dimension_.
  by have /perm_size := pns; rewrite /= size_iota sz => -[].
case: ifP => _ /=; rewrite ?swap_front_backE; split=> //.
- by rewrite size_exchange_ends size_map -szn size_map.
- by rewrite size_exchange_ends.
- by rewrite evs map_exchange_ends.
- by rewrite (perm_trans _ pns) // perm_cons perm_exchange_ends.
- by rewrite size_map -szn size_map.
Qed.

Lemma nth_centroid_loop (first : seq point) (ip : vector) (i : nat) :
  (dimension_ <= size ip)%N -> (i < dimension_)%N ->
  let ip' :=
    foldl (fun ip it =>
      for_loop 0 dimension_ (fun i ip =>
        set_nth 0 ip i (nth 0 ip i + nth 0 (coords it) i)) ip) ip first in
  size ip' = size ip /\
  nth 0 ip' i = nth 0 ip i + \sum_(p <- first) nth 0 (coords p) i.
Proof.
move=> szd lti /=; elim: first ip szd => [|p s IH] ip szd /=.
  by rewrite big_nil addr0.
pose P q (t : vector) :=
  size t = size ip /\
  forall k, nth 0 t k = if (k < q)%N then nth 0 ip k + nth 0 (coords p) k
                        else nth 0 ip k.
have [sz1 H1] : P dimension_
    (for_loop 0 dimension_ (fun i ip =>
       set_nth 0 ip i (nth 0 ip i + nth 0 (coords p) i)) ip).
  apply: for_loop_ind => // q t /andP[_ ltq] [szt Ht]; split.
    by rewrite size_set_nth szt; apply/maxn_idPr/(leq_trans ltq).
  move=> k; rewrite nth_set_nth /= !Ht ltnn ltnS.
  case: (altP (k =P q)) => [->|ne]; first by rewrite leqnn.
  by rewrite [(k <= q)%N]leq_eqVlt (negPf ne).
move: (for_loop _ _ _ _) sz1 H1 => t sz1 H1.
have szt : (dimension_ <= size t)%N by rewrite sz1.
have [sz2 ->] := IH t szt.
by rewrite sz2 sz1 H1 lti big_cons addrA.
Qed.

Lemma simplex_facet_step_inner_point simplex swap_ f st :
  inner_point_ (simplex_facet_step simplex swap_ f st) = inner_point_ st.
Proof.
rewrite /simplex_facet_step; case: (set_hyperplane_equation _ _ _) => [[m sm] fc].
by case: (partition _ _) => [[dist fc2] out]; rewrite /rank; case: ifP.
Qed.

(** X11. [create_initial_simplex] leaves in [inner_point_] the mean of
    the [dimension_ + 1] points of the simplex, coordinate by coordinate,
    and an empty pool. *)
Theorem create_initial_simplex_inner_point (st : quick_hull)
    (first : seq point) (lastp : point) (i : nat) :
  size first = dimension_ ->
  all (fun p => dimension_ <= size (coords p))%N (lastp :: first) ->
  (i < dimension_)%N ->
  let st' := (create_initial_simplex st first lastp).2 in
  nth 0 (inner_point_ st') i =
    (\sum_(p <- rcons first lastp) nth 0 (coords p) i) / (dimension_.+1)%:R /\
  qh_outside_ st' = [::].
Proof.
move=> sz /andP[szl szf] lti; rewrite /create_initial_simplex.
set st0 := set_inner_point_ st _.
have := hypervolume_same_hull st0 first lastp.
case: (hypervolume st0 first lastp) => volume_ st1 [_ _ _ _ /= eip].
split=> //=.
have -> : inner_point_ (for_loop 0 dimension_.+1
            (simplex_facet_step (rcons first lastp) (volume_ < 0)) st1)
          = inner_point_ st1.
  apply: (@for_loop_ind _ (fun _ t => inner_point_ t = inner_point_ st1)) => //.
  by move=> k t _ <-; apply: simplex_facet_step_inner_point.
rewrite eip /= /centroid.
have szc : (dimension_ <= size (copy_n (coords lastp) dimension_ (inner_point_ st)))%N.
  by rewrite size_copy_n // leq_addr.
have [szs es] := nth_centroid_loop first szc lti.
rewrite /vdiv (nth_map 0) ?szs ?(leq_trans lti) // es nth_copy_n //.
by rewrite -cats1 big_cat big_seq1 /= addrC.
Qed.

(** ** The hash of a ridge *)

Lemma xor_all_rem (x : nat) (s : seq nat) :
  x \in s -> xor_all s = Nat.lxor x (xor_all (rem x s)).
Proof.
elim: s => [|y s IH] //=; rewrite inE eq_sym; case: eqP => [->|_] //= /IH->.
by rewrite -!PeanoNat.Nat.lxor_assoc (PeanoNat.Nat.lxor_comm y x).
Qed.

Lemma xor_all_cat (s t : seq nat) :
  xor_all (s ++ t) = Nat.lxor (xor_all s) (xor_all t).
Proof.
elim: s => [|y s IH] /=; first by rewrite PeanoNat.Nat.lxor_0_l.
by rewrite IH PeanoNat.Nat.lxor_assoc.
Qed.

Lemma xor_all_perm (s t : seq nat) : perm_eq s t -> xor_all s = xor_all t.
Proof.
elim: s t => [|x s IH] t; first by rewrite perm_sym => /perm_nilP->.
move=> pst; have xin : x \in t by rewrite -(perm_mem pst) mem_head.
rewrite (xor_all_rem xin) /=; congr (Nat.lxor _ _); apply: IH.
by rewrite -(perm_cons x) (perm_trans pst) // perm_to_rem.
Qed.

Lemma xor_all_filter (h : nat -> nat) (v : nat) (s : seq nat) :
  uniq s -> v \in s ->
  Nat.lxor (xor_all [seq h u | u <- s]) (h v) =
  xor_all [seq h u | u <- s & u != v].
Proof.
elim: s => [|y s IH] //= /andP[nin us]; rewrite inE eq_sym.
case: (altP (y =P v)) => [e _|ne /= vin].
  rewrite -e /= PeanoNat.Nat.lxor_comm -PeanoNat.Nat.lxor_assoc.
  rewrite PeanoNat.Nat.lxor_nilpotent PeanoNat.Nat.lxor_0_l.
  by congr (xor_all (map _ _)); apply/esym/all_filterP/allP => u uin;
     apply: contraNneq nin => <-.
by rewrite /= PeanoNat.Nat.lxor_assoc IH.
Qed.

(** The first loop of [find_adjacent_facets]. *)
Lemma find_adjacent_hashes (vs : seq point) (skip : nat) (vh0 : seq nat) :
  let acc :=
    for_loop 0 dimension_ (fun v acc =>
      if v != skip then
        let h := point_hash_ (nth nil_point vs v) in
        (set_nth 0%N acc.1 v h, Nat.lxor acc.2 h)
      else acc) (vh0, 0%N) in
  acc.2 = xor_all [seq point_hash_ (nth nil_point vs u)
                  | u <- iota 0 dimension_ & u != skip] /\
  forall v, (v < dimension_)%N -> v != skip ->
    nth 0%N acc.1 v = point_hash_ (nth nil_point vs v).
Proof.
pose P q (acc : seq nat * nat) :=
  acc.2 = xor_all [seq point_hash_ (nth nil_point vs u)
                  | u <- iota 0 q & u != skip] /\
  forall v, (v < q)%N -> v != skip ->
    nth 0%N acc.1 v = point_hash_ (nth nil_point vs v).
apply: (@for_loop_ind _ P) => // q [vh x] _ [/= ex Hvh]; rewrite /P.
rewrite -[q.+1]addn1 iotaD filter_cat map_cat /= add0n.
case: (altP (q =P skip)) => [e|ne] /=.
  rewrite cats0; split=> // v; rewrite addn1 ltnS leq_eqVlt => /orP[/eqP->|ltv].
    by rewrite e eqxx.
  exact: Hvh.
split.
  by rewrite ex xor_all_cat /= PeanoNat.Nat.lxor_0_r.
move=> v; rewrite addn1 ltnS leq_eqVlt nth_set_nth /= => /orP[/eqP->|ltv] nes.
  by rewrite eqxx.
by rewrite (ltn_eqF ltv) Hvh.
Qed.

(** X12. [find_adjacent_facets] looks up and stores the record of
    position [v] of a facet under the exclusive or of the hashes of its
    vertices other than those at [v] and at the apex position.  The hash
    does not depend on the order of these vertices: two records whose
    remaining vertices are the same up to order have the same hash. *)
Theorem find_adjacent_facets_keys (f skip : nat) (st : quick_hull) :
  let vs := vertices_ (nth facet0 (facets_ st) f) in
  (exists vh,
     find_adjacent_facets f skip st =
     for_loop 0 dimension_ (fun v st =>
       if v != skip then match_ridge f v (ridge_key vs skip v) st else st)
       (set_ridges st (unique_ridges_ st) vh)) /\
  (forall vs1 skip1 v1 vs2 skip2 v2,
     perm_eq (ridge_rest vs1 skip1 v1) (ridge_rest vs2 skip2 v2) ->
     ridge_key vs1 skip1 v1 = ridge_key vs2 skip2 v2).
Proof.
move=> vs; split; last first.
  by move=> vs1 s1 v1 vs2 s2 v2 pe; apply: xor_all_perm; apply: perm_map.
rewrite /find_adjacent_facets -/vs.
have [] := find_adjacent_hashes vs skip (vertices_hashes_ st).
case: (for_loop _ _ _ _) => vh x /= ex Hvh; exists vh.
apply: for_loop_ext => v t /andP[_ ltv]; case: (altP (v =P skip)) => //= ne.
rewrite Hvh // ex /ridge_key /ridge_rest -map_comp.
rewrite (@xor_all_filter (fun u => point_hash_ (nth nil_point vs u))).
- by rewrite filter_uniq // iota_uniq.
- by rewrite mem_filter ne mem_iota.
- rewrite -filter_predI; congr (match_ridge _ _ (xor_all (map _ _)) _).
  by apply: eq_filter => u /=; rewrite andbC.
Qed.

(** ** The pool when the initial simplex is built *)

Lemma facet_simplex_outside (simplex : seq point) (f : nat) (swap : bool) :
  outside_ (facet_simplex simplex f swap) = [::].
Proof.
by rewrite /facet_simplex; case: (foldl _ _ _) => vs ns; case: ifP.
Qed.

Lemma rank_outside o f st : qh_outside_ (rank o f st) = qh_outside_ st.
Proof. by rewrite /rank; case: ifP. Qed.

Lemma simplex_facet_step_inv simplex swap_ facets0 pool k t :
  simplex_inv facets0 pool k t ->
  simplex_inv facets0 pool k.+1 (simplex_facet_step simplex swap_ k t).
Proof.
case=> fcs [ef szf eo pe Hout]; rewrite /simplex_facet_step.
move: (set_hyperplane_equation_frame (matrix_ t) (shadow_matrix_ t)
         (facet_simplex simplex k swap_)).
case: (set_hyperplane_equation _ _ _) => [[m sm] fc1] /= e1.
have out1 : outside_ fc1 = [::] by rewrite e1 /= facet_simplex_outside.
move: (partition_frame fc1 (qh_outside_ t)) (partition_outside_any fc1 (qh_outside_ t)).
case: (partition _ _) => [[dist fc2] out] [_ _ [enor eD] eout _] [pout _].
have ed p : above fc2 p = above fc1 p by rewrite /above /distance enor eD.
rewrite out1 /= in pout.
exists (rcons fcs fc2); split.
- by rewrite rank_facets /= ef rcons_cat.
- by rewrite size_rcons szf.
- rewrite rank_outside /=.
  rewrite eout eo -filter_predI; apply: eq_filter => p /=.
  by rewrite has_rcons negb_or ed.
- rewrite rank_outside /=.
  rewrite map_rcons flatten_rcons -catA.
  rewrite (perm_trans _ pe) // perm_cat2l eout (perm_catr _ pout).
  exact/permPl/(perm_filterC (fun p => eps < distance fc1 (coords p))).
- move=> j; rewrite size_rcons ltnS leq_eqVlt => /orP[/eqP->|ltj]; last first.
    by rewrite nth_rcons ltj -cats1 takel_cat ?(ltnW ltj) //; apply: Hout.
  rewrite nth_rcons ltnn eqxx -cats1 take_size_cat //.
  rewrite (perm_all _ pout) all_filter; apply/allP => p; rewrite eo mem_filter.
  by case/andP=> nh _; rewrite /= ed nh andbT; apply/implyP.
Qed.

(** X13. [create_initial_simplex] hands every pool point to the first
    of the new facets it lies above by more than [eps], and drops the
    points that lie above none: the [outside_] lists of the new facets,
    together with the dropped points, are a permutation of the pool
    before the call, and every point of an [outside_] list is above its
    facet and above none of the facets built before it. *)
Theorem create_initial_simplex_outside (st : quick_hull) (first : seq point)
    (lastp : point) :
  let st' := (create_initial_simplex st first lastp).2 in
  let fcs := drop (size (facets_ st)) (facets_ st') in
  [/\ size fcs = dimension_.+1,
      perm_eq (flatten [seq outside_ fc | fc <- fcs] ++
               [seq p <- qh_outside_ st | ~~ has (above^~ p) fcs])
              (qh_outside_ st)
    & forall j, (j <= dimension_)%N ->
        all (fun p => above (nth facet0 fcs j) p &&
                      ~~ has (above^~ p) (take j fcs))
            (outside_ (nth facet0 fcs j))].
Proof.
rewrite /create_initial_simplex.
set st0 := set_inner_point_ st _.
have := hypervolume_same_hull st0 first lastp.
have := hypervolume_outside st0 first lastp.
case: (hypervolume st0 first lastp) => volume_ st1 /= eo1 [[ef _] _ _ _ _].
have inv0 : simplex_inv (facets_ st) (qh_outside_ st) 0 st1.
  by exists [::]; split; rewrite ?cats0 ?filter_predT //= eo1 ?filter_predT.
have [fcs [efs szf eo pe Hout]] :
    simplex_inv (facets_ st) (qh_outside_ st) dimension_.+1
      (for_loop 0 dimension_.+1
         (simplex_facet_step (rcons first lastp) (volume_ < 0)) st1).
  apply: (@for_loop_ind _ (simplex_inv (facets_ st) (qh_outside_ st))) => //.
  by move=> k t _; apply: simplex_facet_step_inv.
rewrite efs drop_size_cat //; split=> //; first by rewrite -eo.
by move=> j lej; apply: Hout; rewrite szf ltnS.
Qed.

(** ** Local convexity *)

Lemma for_return_find (R S : Type) (p : pred nat) (g : nat -> R)
    (body : nat -> S -> R + S) (js : seq nat) (s : S) :
  (forall v t, body v t = if p v then inl (g v) else inr t) ->
  for_return js body s =
  if has p js then inl (g (nth 0%N js (find p js))) else inr s.
Proof. by move=> H; elim: js => [|j js IH] //=; rewrite H; case: ifP. Qed.

Lemma for_return_all (S : Type) (ok : pred nat) (body : nat -> S -> bool + S)
    (js : seq nat) (s : S) :
  (forall n t, body n t = if ok n then inr t else inl false) ->
  for_return js body s = if all ok js then inr s else inl false.
Proof. by move=> H; elim: js => [|j js IH] //=; rewrite H; case: ifP. Qed.

Lemma opposite_vertex_loop (fc nb : facet) (f : nat) :
  size (neighbours_ nb) = dimension_ ->
  for_return (iota 0 dimension_) (opposite_vertex_step fc nb f) tt =
  if f \in neighbours_ nb
  then inl (~~ (eps < distance fc (coords (nth nil_point (vertices_ nb)
                                             (index f (neighbours_ nb))))))
  else inr tt.
Proof.
move=> sz.
pose p v := nth 0%N (neighbours_ nb) v == f.
pose g v := ~~ (eps < distance fc (coords (nth nil_point (vertices_ nb) v))).
rewrite (@for_return_find _ _ p g).
  by move=> v t; rewrite /opposite_vertex_step /p /g; case: ifP => // _; case: ifP.
have ens : neighbours_ nb = [seq nth 0%N (neighbours_ nb) v | v <- iota 0 dimension_].
  by rewrite -sz; apply/esym/mkseq_nth.
have -> : has p (iota 0 dimension_) = (f \in neighbours_ nb).
  by rewrite [in RHS]ens -has_pred1 has_map; apply: eq_has => v /=; rewrite /p eq_sym.
case: ifP => // fin; congr (inl (g _)).
have -> : find p (iota 0 dimension_) = index f (neighbours_ nb).
  rewrite /index [in RHS]ens find_map; apply: eq_find => v /=.
  by rewrite /p eq_sym.
by rewrite nth_iota // -sz index_mem.
Qed.

(** X14. For a facet whose neighbours have [dimension_] neighbours
    each, [check_local_convexity] returns true exactly when every
    neighbour either has a normal whose inner product with the normal of
    the facet is not below one, or does not list the facet among its
    neighbours, or has its vertex opposite to the facet (the vertex at
    the first position whose neighbour is the facet) not above the facet
    by more than [eps]. *)
Theorem check_local_convexity_spec (fs : seq facet) (fc : facet) (f : nat) :
  all (fun n => size (neighbours_ (nth facet0 fs n)) == dimension_)
      (neighbours_ fc) ->
  check_local_convexity fs fc f =
  all (fun n =>
         let nb := nth facet0 fs n in
         [|| 1 <= cos_of_dihedral_angle fc nb, f \notin neighbours_ nb
           | distance fc (coords (nth nil_point (vertices_ nb)
                                    (index f (neighbours_ nb)))) <= eps])
      (neighbours_ fc).
Proof.
rewrite /check_local_convexity; elim: (neighbours_ fc) => [|n ns IH] //=.
case/andP=> /eqP sz /IH {}IH; rewrite /check_neighbour.
rewrite opposite_vertex_loop // leNgt.
case: (_ < 1) => //=; case: ifP => //= _.
by rewrite -leNgt; case: (_ <= eps).
Qed.

(** ** Compaction of the store *)

Lemma eq_perm (T : eqType) (s t : seq T) : s = t -> perm_eq s t.
Proof. by move->. Qed.

Lemma bodies_replace_neighbour fs f from to :
  [seq facet_body fc | fc <- replace_neighbour fs f from to] =
  [seq facet_body fc | fc <- fs].
Proof.
rewrite /replace_neighbour; case: ifP => // /andP[_ ltf].
apply: (@eq_from_nth _ (facet_body facet0)).
  by rewrite !size_map size_set_nth; apply/maxn_idPr.
move=> i; rewrite size_map size_set_nth (maxn_idPr ltf) => lti.
rewrite !(nth_map facet0) ?size_set_nth ?(maxn_idPr ltf) // nth_set_nth /=.
by case: eqP => // ->.
Qed.

Lemma size_pop_back (T : Type) (s : seq T) : size (pop_back s) = (size s).-1.
Proof. by rewrite /pop_back size_take; case: (size s) => [|n] //; rewrite ltnSn. Qed.

Lemma map_pop_back (T U : Type) (g : T -> U) (s : seq T) :
  [seq g x | x <- pop_back s] = pop_back [seq g x | x <- s].
Proof. by rewrite /pop_back map_take size_map. Qed.

(** One iteration on the bodies: the last body goes to [destination]
    unless [destination] is the last index, and the last entry is
    dropped. *)
Lemma compactify_step_bodies st destination :
  (destination < size (facets_ st))%N ->
  let: (st', source) := compactify_step (st, size (facets_ st)) destination in
  [/\ source = (size (facets_ st)).-1, size (facets_ st') = source,
      removed_facets_ st' = removed_facets_ st
    & [seq facet_body fc | fc <- facets_ st'] =
      pop_back (if destination != (size (facets_ st)).-1
                then set_nth (facet_body facet0) [seq facet_body fc | fc <- facets_ st]
                       destination (facet_body (last facet0 (facets_ st)))
                else [seq facet_body fc | fc <- facets_ st])].
Proof.
move=> ltd; rewrite /compactify_step.
case: (altP (destination =P _)) => [e|ne] /=.
  by split; rewrite ?size_pop_back // map_pop_back.
set fs1 := set_nth facet0 (facets_ st) destination _.
set fs2 := for_loop _ _ _ _.
have e2 : [seq facet_body fc | fc <- fs2] = [seq facet_body fc | fc <- fs1].
  rewrite /fs2; set n := size _.
  apply: (@for_loop_ind _ (fun _ t =>
            [seq facet_body fc | fc <- t] = [seq facet_body fc | fc <- fs1])) => //.
  by move=> k t _ <-; rewrite bodies_replace_neighbour.
have sz2 : size fs2 = size (facets_ st).
  have := congr1 size e2; rewrite !size_map => ->.
  by rewrite size_set_nth; apply/maxn_idPr.
have e1 : [seq facet_body fc | fc <- fs1] =
          set_nth (facet_body facet0) [seq facet_body fc | fc <- facets_ st]
            destination (facet_body (last facet0 (facets_ st))).
  apply: (@eq_from_nth _ (facet_body facet0)).
    by rewrite size_map !size_set_nth size_map.
  move=> i; rewrite size_map size_set_nth (maxn_idPr ltd) => lti.
  rewrite (nth_map facet0) ?size_set_nth ?(maxn_idPr ltd) // !nth_set_nth /=.
  by case: eqP => // _; rewrite (nth_map facet0).
case: (meta_find _ _) => [it|] /=; split; rewrite ?size_pop_back ?sz2 //;
  by rewrite map_pop_back e2 e1.
Qed.

(** The entries kept, before and after an iteration. *)
Lemma kept_step (T : eqType) (x0 : T) (B : seq T) (d m : nat) (r : seq nat) :
  size B = m.+1 -> (d <= m)%N -> all (fun i => i < d)%N r ->
  perm_eq [seq nth x0 (take m (if d != m then set_nth x0 B d (nth x0 B m)
                                 else B)) i
          | i <- iota 0 m & i \notin r]
          [seq nth x0 B i | i <- iota 0 m.+1 & i \notin d :: r].
Proof.
move=> szB led ltr.
have nmr : m \notin r by apply/negP => /(allP ltr); rewrite ltnNge led.
have ndr : d \notin r by apply/negP => /(allP ltr); rewrite ltnn.
rewrite -[m.+1]addn1 iotaD add0n filter_cat map_cat /= inE negb_or nmr andbT.
rewrite [m == d]eq_sym.
have efilt : [seq i <- iota 0 m | i \notin d :: r] =
             [seq i <- [seq i <- iota 0 m | i \notin r] | i != d].
  by rewrite -filter_predI; apply: eq_filter => i; rewrite inE negb_or.
case: (altP (d =P m)) => [e|ne] /=.
  rewrite cats0 efilt e; apply/eq_perm.
  have -> : [seq i <- [seq i <- iota 0 m | i \notin r] | i != m] =
            [seq i <- iota 0 m | i \notin r].
    apply/all_filterP/allP => i; rewrite mem_filter mem_iota add0n /=.
    by case/andP=> _ /ltn_eqF->.
  apply/eq_in_map => i; rewrite mem_filter mem_iota add0n /= => /andP[_ lti].
  by rewrite nth_take.
have ltd : (d < m)%N by rewrite ltn_neqAle ne.
set L := [seq i <- iota 0 m | i \notin r].
have dL : d \in L by rewrite mem_filter ndr mem_iota.
have uL : uniq L by rewrite filter_uniq // iota_uniq.
rewrite (permPl (perm_map _ (perm_to_rem dL))) /= rem_filter // efilt -/L.
rewrite nth_take // nth_set_nth /= eqxx.
rewrite perm_sym perm_catC /= perm_cons; apply/eq_perm/eq_in_map => i.
rewrite mem_filter /= => /andP[nei]; rewrite mem_filter mem_iota /= add0n.
by case/andP=> _ lti; rewrite nth_take // nth_set_nth /= (negPf nei).
Qed.

Lemma kept_bodiesE (fs : seq facet) (r : seq nat) :
  kept_bodies fs r =
  [seq nth (facet_body facet0) [seq facet_body fc | fc <- fs] i
  | i <- iota 0 (size fs) & i \notin r].
Proof.
apply/eq_in_map => i; rewrite mem_filter mem_iota add0n /= => /andP[_ lti].
by rewrite (nth_map facet0).
Qed.

(** The loop of [compactify] over a free list in descending order. *)
Lemma compactify_loop (r : seq nat) (st : quick_hull) :
  sorted gtn r -> all (fun i => i < size (facets_ st))%N r ->
  let: (st', source) := foldl compactify_step (st, size (facets_ st)) r in
  [/\ size (facets_ st') = (size (facets_ st) - size r)%N,
      removed_facets_ st' = removed_facets_ st
    & perm_eq [seq facet_body fc | fc <- facets_ st']
              (kept_bodies (facets_ st) r)].
Proof.
elim: r st => [|d r IH] st.
  move=> _ _; rewrite /= subn0; split=> //; apply/eq_perm.
  rewrite kept_bodiesE filter_predT.
  by apply: (@eq_from_nth _ (facet_body facet0)); rewrite !size_map ?size_iota
     // => i lti; rewrite (nth_map 0%N) ?size_iota // nth_iota.
move=> pth /andP[ltd ltr].
rewrite -[foldl _ _ (d :: r)]/(foldl compactify_step
                                 (compactify_step (st, size (facets_ st)) d) r).
have trg : transitive gtn by move=> y x z lt1 lt2; apply: ltn_trans lt2 lt1.
have ltrd : all (fun i => i < d)%N r := order_path_min trg pth.
move: (compactify_step_bodies ltd).
case: (compactify_step _ _) => [st1 source] [es sz1 er1 eb1].
set n := size (facets_ st) in ltd ltr es eb1 *.
have en : n = n.-1.+1 by rewrite prednK // (leq_ltn_trans _ ltd).
have led : (d <= n.-1)%N by rewrite -ltnS -en.
have ltr1 : all (fun i => i < size (facets_ st1))%N r.
  by apply: sub_all ltrd => i lti /=; rewrite sz1 es (leq_trans lti).
move: (IH st1 (path_sorted pth) ltr1); rewrite sz1.
case: (foldl _ _ _) => [st2 source2] [sz2 er2 pe2]; split.
- by rewrite sz2 es /= subnS -subn1 subnAC subn1.
- by rewrite er2.
- rewrite (perm_trans pe2) // !kept_bodiesE sz1 es.
  set B := [seq facet_body fc | fc <- facets_ st].
  have szB : size B = n.-1.+1 by rewrite size_map -en.
  have := kept_step (facet_body facet0) szB led ltrd.
  rewrite -/n -en.
  suff -> : [seq facet_body fc | fc <- facets_ st1] =
            take n.-1 (if d != n.-1
                       then set_nth (facet_body facet0) B d
                              (nth (facet_body facet0) B n.-1)
                       else B) by [].
  rewrite eb1 /pop_back -/B -/n.
  have -> : facet_body (last facet0 (facets_ st)) = nth (facet_body facet0) B n.-1.
    by rewrite (nth_map facet0) -/n ?nth_last // -ltnS -en.
  by case: ifP => _; rewrite ?size_set_nth szB ?(maxn_idPr _) //= ltnS.
Qed.

Lemma sorted_gtn_sort (r : seq nat) : uniq r -> sorted gtn (sort geq r).
Proof.
move=> ur; have srt : sorted geq (sort geq r).
  by apply: sort_sorted => x y; rewrite /geq /= leq_total.
have us : uniq (sort geq r) by rewrite sort_uniq.
move: (sort geq r) srt us => s; case: s => [|x s] //=.
elim: s x => [|y s IH] x //= /andP[ge_xy pth] /and3P[]; rewrite inE negb_or.
case/andP=> ne_xy nin niy us; rewrite IH ?niy // andbT.
by rewrite /gtn /= ltn_neqAle eq_sym ne_xy.
Qed.

(** X15. With a free list of distinct indices of the store,
    [compactify] empties the free list and shrinks the store by the
    number of freed facets; the facets left are, up to their order and
    their neighbour pointers, the facets the free list did not hold. *)
Theorem compactify_keeps (st : quick_hull) :
  uniq (removed_facets_ st) ->
  all (fun f => f < size (facets_ st))%N (removed_facets_ st) ->
  let st' := compactify st in
  [/\ removed_facets_ st' = [::],
      size (facets_ st') = (size (facets_ st) - size (removed_facets_ st))%N
    & perm_eq [seq facet_body fc | fc <- facets_ st']
              (kept_bodies (facets_ st) (removed_facets_ st))].
Proof.
move=> ur ltr; rewrite /compactify.
have ltr' : all (fun f => f < size (facets_ st))%N (sort geq (removed_facets_ st)).
  by rewrite all_sort.
move: (compactify_loop (sorted_gtn_sort ur) ltr').
case: (foldl _ _ _) => [st1 source] [sz1 _ pe]; split=> //=.
  by rewrite sz1 size_sort.
rewrite (perm_trans pe) //; apply/eq_perm.
by rewrite /kept_bodies; congr (map _ _); apply: eq_filter => i; rewrite mem_sort.
Qed.

(** ** The facet store and its free list *)

(** X16. With an empty free list [add_facet] appends the new facet to
    the store and returns its index, the size of the store before.  After
    [unrank f], for an index [f] of the store, [add_facet] builds the new
    facet in slot [f] and returns [f]: the free list is as before
    [unrank], the store keeps its size and its other facets, and slot [f]
    keeps the point lists and the hyperplane it held, with the vertices
    and the neighbour entry it is given. *)
Theorem add_facet_reuses (st : quick_hull) (f : nat) (vs : seq point)
    (against : nat) (apex : point) (neighbour : nat) :
  (f < size (facets_ st))%N ->
  let fresh := add_facet st vs against apex neighbour in
  let reused := add_facet (unrank f st) vs against apex neighbour in
  let slot := nth facet0 (facets_ reused.1) f in
  let old := nth facet0 (facets_ st) f in
  [/\ removed_facets_ st = [::] ->
        fresh.2 = size (facets_ st) /\
        facets_ fresh.1 =
          rcons (facets_ st) (facet_cone vs against apex neighbour),
      reused.2 = f /\ removed_facets_ reused.1 = removed_facets_ st,
      size (facets_ reused.1) = size (facets_ st),
      forall g, g != f ->
        nth facet0 (facets_ reused.1) g = nth facet0 (facets_ st) g
    & [/\ vertices_ slot = set_nth nil_point vs against apex,
          neighbours_ slot = set_nth 0%N (neighbours_ old) against neighbour,
          outside_ slot = outside_ old /\ coplanar_ slot = coplanar_ old
        & normal_ slot = normal_ old /\ D slot = D old]].
Proof.
move=> ltf /=.
have ef : facets_ (unrank f st) = facets_ st.
  by rewrite /unrank; case: (meta_find _ _).
have er : removed_facets_ (unrank f st) = rcons (removed_facets_ st) f.
  by rewrite /unrank; case: (meta_find _ _).
split.
- by rewrite /add_facet => ->.
- rewrite /add_facet er; case e: (rcons _ _) => [|x s].
    by move/(congr1 size): e; rewrite size_rcons.
  by rewrite -e /= last_rcons size_rcons /= -cats1 take_size_cat.
- rewrite /add_facet er; case e: (rcons _ _) => [|x s].
    by move/(congr1 size): e; rewrite size_rcons.
  by rewrite -e /= last_rcons size_set_nth ef; apply/maxn_idPr.
- move=> g /negPf neg; rewrite /add_facet er; case e: (rcons _ _) => [|x s].
    by move/(congr1 size): e; rewrite size_rcons.
  by rewrite -e /= last_rcons nth_set_nth /= neg ef.
- rewrite /add_facet er; case e: (rcons _ _) => [|x s].
    by move/(congr1 size): e; rewrite size_rcons.
  by rewrite -e /= last_rcons nth_set_nth /= eqxx ef.
Qed.

(** ** The point [steal_best] takes *)

Lemma size_vsub (a b : vector) : size (vsub a b) = size a.
Proof. by rewrite /vsub size_mkseq. Qed.

Lemma size_vmul (a b : vector) : size (vmul a b) = size a.
Proof. by rewrite /vmul size_mkseq. Qed.

(** One step of the scan, on scratch rows of the right shape. *)
Lemma steal_best_scan_step rank_ m sm distance_ furthest k p :
  (1 < dimension_)%N -> matrix_wf sm ->
  (dimension_ <= size (coords p))%N ->
  let d_ := projection_distance rank_ m p in
  exists2 sm', matrix_wf sm' &
    steal_best_scan rank_ m (sm, distance_, furthest) (k, p) =
    if distance_ < d_ then (sm', d_, Some k) else (sm', distance_, furthest).
Proof.
move=> d1 wf szp /=; rewrite /steal_best_scan /=.
have d0 : (0 < dimension_)%N := ltnW d1.
case/andP: (wf) => /eqP szsm _.
set back := (size sm).-1.
have ltb : (back < dimension_)%N by rewrite /back szsm prednK.
have neb : back != 0%N by rewrite /back szsm -lt0n -subn1 subn_gt0.
set apex := vsub (take dimension_ (coords p)) (nth [::] m rank_).
have sza : size apex = dimension_ by rewrite size_vsub size_takel.
set sm1 := set_nth [::] sm 0 _.
have e1 : nth [::] sm1 0 = take dimension_ (coords p).
  by rewrite nth_set_nth /= /copy_n drop_oversize ?cats0 // matrix_wf_row.
have wf1 : matrix_wf sm1.
  by apply: matrix_wf_set_nth => //; rewrite size_copy_n // matrix_wf_row // subnn addn0.
set sm2 := set_nth [::] sm1 0 _.
have e2 : nth [::] sm2 0 = apex by rewrite nth_set_nth /= e1.
have wf2 : matrix_wf sm2.
  by apply: matrix_wf_set_nth => //; rewrite size_vsub e1 size_takel.
set sm3 := set_nth [::] sm2 back _.
have wf3 : matrix_wf sm3 by apply: matrix_wf_set_nth => //; rewrite e2.
have e30 : nth [::] sm3 0 = apex by rewrite nth_set_nth /= eq_sym (negPf neb).
have e3b : nth [::] sm3 back = apex by rewrite nth_set_nth /= eqxx.
pose g (pr : vector) i :=
  vsub pr (vscale (inner_product apex (nth [::] m i) 0) (nth [::] m i)).
pose Q q (t : matrix) :=
  [/\ matrix_wf t, nth [::] t 0 = apex
    & nth [::] t back = foldl g apex (iota 0 q)].
have szg q : size (foldl g apex (iota 0 q)) = dimension_.
  elim: q => [|q IH] //; rewrite -addn1 iotaD foldl_cat /= add0n.
  by rewrite /g size_vsub.
set sm4 := for_loop 0 rank_ _ sm3.
have [wf4 e40 e4b] : Q rank_ sm4.
  apply: for_loop_ind => // q t _ [wft et0 etb]; split.
  - by apply: matrix_wf_set_nth => //; rewrite size_vsub etb szg.
  - by rewrite nth_set_nth /= eq_sym (negPf neb).
  - by rewrite -[q.+1]addn1 iotaD foldl_cat nth_set_nth /= eqxx add0n et0 etb.
set sm5 := set_nth [::] sm4 _ _.
have wf5 : matrix_wf sm5.
  by apply: matrix_wf_set_nth => //; rewrite size_vmul e4b szg.
exists sm5 => //.
have -> // : sqrtF (vsum (nth [::] sm5 back)) = projection_distance rank_ m p.
by rewrite /sm5 nth_set_nth /= eqxx e4b.
Qed.

(** The scan of the pool. *)
Lemma steal_best_scan_max rank_ m (out : seq point) sm :
  (1 < dimension_)%N -> matrix_wf sm ->
  all (fun p => dimension_ <= size (coords p))%N out ->
  let dp p := projection_distance rank_ m p in
  let: (sm', distance_, furthest) :=
    foldl (steal_best_scan rank_ m) (sm, 0, None) (zip (iota 0 (size out)) out) in
  [/\ matrix_wf sm',
      forall i, (i < size out)%N -> dp (nth nil_point out i) <= distance_
    & match furthest with
      | None => distance_ = 0
      | Some k =>
          [/\ (k < size out)%N, distance_ = dp (nth nil_point out k),
              0 < distance_
            & forall i, (i < k)%N -> dp (nth nil_point out i) < distance_]
      end].
Proof.
move=> d1 wf; elim/last_ind: out => [|s p IH] /=; first by move=> _; split.
rewrite all_rcons size_rcons -[(size s).+1]addn1 iotaD add0n /= cats1 ?addn1.
case/andP=> szp szs; rewrite zip_rcons ?size_iota // foldl_rcons.
case: (foldl _ _ _) (IH szs) => [[sm1 dist] fur] [wf1 Hle Hfur].
have [sm2 wf2 ->] := steal_best_scan_step rank_ m dist fur (size s) d1 wf1 szp.
set dp := projection_distance rank_ m.
have dist0 : 0 <= dist.
  by case: fur Hfur => [k [_ _ /ltW]|->].
have nths i : (i < size s)%N -> nth nil_point (rcons s p) i = nth nil_point s i.
  by move=> lti; rewrite nth_rcons lti.
have nthp : nth nil_point (rcons s p) (size s) = p.
  by rewrite nth_rcons ltnn eqxx.
case: ltP => [lt|le]; split=> //.
- move=> i; rewrite ltnS leq_eqVlt => /orP[/eqP->|lti]; first by rewrite nthp.
  by rewrite nths //; apply: le_trans (Hle i lti) (ltW lt).
- split; rewrite ?nthp //; first exact: le_lt_trans dist0 lt.
  by move=> i lti; rewrite nths //; apply: le_lt_trans (Hle i lti) lt.
- move=> i; rewrite ltnS leq_eqVlt => /orP[/eqP->|lti]; first by rewrite nthp.
  by rewrite nths //; apply: Hle.
- case: fur Hfur {dist0} => [k [ltk ek gt0 Hk]|//]; split=> //.
  + exact: ltnW.
  + by rewrite nths.
  + by move=> i lti; rewrite nths ?(ltn_trans lti) //; apply: Hk.
Qed.

(** [orthonormalize] keeps the shape of the shadow matrix. *)
Lemma for_return_wf (R := matrix) (js : seq nat)
    (body : nat -> matrix -> matrix + matrix) (P : pred nat) (s : matrix) :
  (forall i t, P i -> matrix_wf t ->
     match body i t with inl r => matrix_wf r | inr r => matrix_wf r end) ->
  all P js -> matrix_wf s ->
  match for_return js body s with inl r => matrix_wf r | inr r => matrix_wf r end.
Proof.
move=> H; elim: js s => [|j js IH] s //= /andP[Pj Pjs] wf.
by move: (H j s Pj wf); case: (body j s) => // t /IH; apply.
Qed.

Lemma orthonormalize_wf (affine_space : seq point) (rank : nat)
    (origin : vector) (sm : matrix) :
  (rank <= dimension_)%N -> matrix_wf sm ->
  (forall r, (r < rank)%N ->
     (dimension_ <= size (coords (nth nil_point affine_space r)))%N) ->
  matrix_wf (orthonormalize affine_space rank origin sm).2.
Proof.
move=> ler wf szs; rewrite /orthonormalize.
set sm1 := for_loop 0 rank _ sm.
have wf1 : matrix_wf sm1.
  have [] : matrix_wf sm1 /\ True; last by [].
  split=> //; rewrite /sm1.
  apply: (@for_loop_ind _ (fun _ t => matrix_wf t)) => // r t /andP[_ ltr] wft.
  apply: matrix_wf_set_nth => //; first exact: leq_trans ltr ler.
  rewrite size_vsub size_copy_n ?szs // matrix_wf_row ?subnn ?addn0 //.
  exact: leq_trans ltr ler.
have := @for_return_wf (iota 0 rank) (orthonormalize_step rank)
          (fun i => i < rank)%N sm1.
case: (for_return _ _ _) => r; apply=> //; try by apply/allP => i; rewrite mem_iota.
- move=> i t lti wft; rewrite /orthonormalize_step.
  have ltid : (i < dimension_)%N := leq_trans lti ler.
  case: ifP => // _; case: ifP => // _.
  apply: matrix_wf_for_loop => [j u /andP[_ ltj] wfu|].
    apply: matrix_wf_for_loop => // k v /andP[_ ltk] wfv.
    by apply: matrix_wf_mset => //; apply: leq_trans ltj ler.
  apply: matrix_wf_for_loop => [k u /andP[_ ltk] wfu|].
    exact: matrix_wf_mset.
  by case: ifP => _; apply: matrix_wf_mset.
- move=> i t lti wft; rewrite /orthonormalize_step.
  have ltid : (i < dimension_)%N := leq_trans lti ler.
  case: ifP => // _; case: ifP => // _.
  apply: matrix_wf_for_loop => [j u /andP[_ ltj] wfu|].
    apply: matrix_wf_for_loop => // k v /andP[_ ltk] wfv.
    by apply: matrix_wf_mset => //; apply: leq_trans ltj ler.
  apply: matrix_wf_for_loop => [k u /andP[_ ltk] wfu|].
    exact: matrix_wf_mset.
  by case: ifP => _; apply: matrix_wf_mset.
Qed.

(** X17. With an empty pool [steal_best] returns false.  When it returns
    true, the point it moves from the pool to the end of the basis has
    the largest distance of all pool points and is the first of the pool
    with that distance, and the distance is positive; the distance is
    measured with the rows the call leaves in [matrix_].  When it
    returns false, basis and pool are as before. *)
Theorem steal_best_furthest (st : quick_hull) (basis : seq point) :
  (1 < dimension_)%N -> matrix_wf (shadow_matrix_ st) ->
  (size basis <= dimension_)%N ->
  all (fun p => dimension_ <= size (coords p))%N (basis ++ qh_outside_ st) ->
  let: (ok, st', basis') := steal_best st basis in
  let dp p := projection_distance (size basis).-1 (matrix_ st') p in
  let out := qh_outside_ st in
  (out = [::] -> ~~ ok) /\
  if ok then
    exists k,
      [/\ (k < size out)%N, basis' = rcons basis (nth nil_point out k),
          qh_outside_ st' = take k out ++ drop k.+1 out,
          0 < dp (nth nil_point out k)
        & (forall i, (i < size out)%N ->
             dp (nth nil_point out i) <= dp (nth nil_point out k)) /\
          (forall i, (i < k)%N ->
             dp (nth nil_point out i) < dp (nth nil_point out k))]
  else basis' = basis /\ qh_outside_ st' = out.
Proof.
move=> d1 wf szb; rewrite all_cat => /andP[szbs szo].
rewrite /steal_best.
set rank_ := (size basis).-1; set m := set_nth [::] (matrix_ st) rank_ _.
have ler : (rank_ <= dimension_)%N by rewrite (leq_trans (leq_pred _)).
have szr r : (r < rank_)%N ->
    (dimension_ <= size (coords (nth nil_point basis r)))%N.
  move=> ltr; apply: (allP szbs); apply: mem_nth.
  by apply: leq_trans ltr (leq_pred _).
move: (orthonormalize_wf (nth [::] m rank_) ler wf szr).
case: (orthonormalize _ _ _ _) => [[] sm] /= wfsm; last by [].
set m' := forward_transformation rank_ m sm.
move: (steal_best_scan_max rank_ m' d1 wfsm szo).
case: (foldl _ _ _) => [[sm' dist] [k|]] /= [wf' Hle]; last by [].
case=> ltk ed gt0 Hk; split; first by move=> e; rewrite e in ltk.
exists k; split=> //; first by rewrite -ed.
by split=> [i lti|i lti]; rewrite -ed; [apply: Hle | apply: Hk].
Qed.

(** ** The orientation of a fitted hyperplane *)

Lemma det_xcol n (i j : 'I_n) (A : 'M[F]_n) :
  i != j -> \det (xcol i j A) = - \det A.
Proof.
move=> ne; rewrite -det_tr tr_xcol xrowE det_mulmx det_perm odd_tperm ne.
by rewrite det_tr expr1 mulN1r.
Qed.

Lemma ones_row_xcol n (i a b : 'I_n) (A : 'M[F]_n) :
  ones_row i (xcol a b A) = xcol a b (ones_row i A).
Proof. by apply/matrixP => r c; rewrite !mxE. Qed.

Lemma nth_exchange_ends (T : Type) (x0 : T) (s : seq T) (c : nat) :
  (1 < size s)%N -> (c < size s)%N ->
  nth x0 (exchange_ends s) c =
  nth x0 s (if c == 0%N then (size s).-1
            else if c == (size s).-1 then 0%N else c).
Proof.
rewrite -swap_front_backE /swap_front_back; case: s => [|x s] // lt1 ltc.
have sz1 : size (set_nth x (x :: s) 0 (last x s)) = (size s).+1 by [].
have sz2 : size (set_nth x (set_nth x (x :: s) 0 (last x s)) (size (x :: s)).-1 x)
           = (size s).+1.
  by rewrite size_set_nth sz1 /=; apply/maxn_idPr.
rewrite (set_nth_default x) ?sz2 // nth_set_nth.
rewrite -[(size (x :: s)).-1]/(size s) -[set_nth x (x :: s) 0 _]/(last x s :: s).
have s0 : (0 < size s)%N by [].
case: (altP (c =P 0%N)) => [->|ne0].
  rewrite /= [_ == _]eq_sym (gtn_eqF s0) /=.
  by case: (s) s0 => [|y s'] //= _; apply: last_nth.
rewrite /=; case: (altP (c =P size s)) => [_|nes] //=.
by case: c ne0 nes ltc => [|c] //= _ _ ltc; apply: set_nth_default.
Qed.

Section Orientation.

Variables (vs : seq point).
Hypothesis d1 : (1 < dimension_)%N.
Hypothesis eps0 : 0 <= eps.
Hypothesis szvs : size vs = dimension_.
Hypothesis fexact : fit_exact vs.
Hypothesis fexact' : fit_exact (exchange_ends vs).

Let A : 'M[F]_dimension_ := block_of (vertex_matrix vs) 0 dimension_.
Let A' : 'M[F]_dimension_ := block_of (vertex_matrix (exchange_ends vs)) 0 dimension_.
Let i0 : 'I_dimension_ := Ordinal (ltnW d1).

Lemma last_ord_proof : (dimension_.-1 < dimension_)%N.
Proof. by rewrite prednK // ltnW. Qed.

Let il : 'I_dimension_ := Ordinal last_ord_proof.

Lemma exchanged_columns : A' = xcol i0 il A.
Proof.
apply/matrixP => r c; rewrite /A' /A block_of_vertex_matrix mxE block_of_vertex_matrix.
rewrite nth_exchange_ends ?szvs //; congr (nth 0 (coords (nth nil_point vs _)) r).
case: tpermP => [->|->|/eqP ne0 /eqP nel] /=.
- by [].
- by rewrite eqxx -[_ == 0%N]/(il == i0) eq_sym -[_ == _]/(0 == dimension_.-1)%N
             -subn1 eq_sym subn_eq0 leqNgt d1.
- by rewrite -[c == 0%N :> nat]/(c == i0) (negPf ne0)
             -[c == dimension_.-1 :> nat]/(c == il) (negPf nel).
Qed.

Lemma ends_differ : i0 != il.
Proof.
by rewrite -val_eqE /= eq_sym -subn1 subn_eq0 leqNgt d1.
Qed.

Lemma fit_offset_exchange : fit_offset (exchange_ends vs) = - fit_offset vs.
Proof.
rewrite !fit_offsetE // -/A -/A' exchanged_columns det_xcol ?ends_differ //.
Qed.

Lemma fit_normal_exchange :
  fit_normal (exchange_ends vs) = [seq - x | x <- fit_normal vs].
Proof.
apply: (@eq_from_nth _ 0) => [|j].
  by rewrite [RHS]size_map !size_fit_normal.
rewrite size_fit_normal => ltj.
rewrite (nth_map 0) ?size_fit_normal //.
rewrite (fit_normalE eps0 fexact' (Ordinal ltj)) (fit_normalE eps0 fexact (Ordinal ltj)).
by rewrite -/A -/A' exchanged_columns ones_row_xcol det_xcol ?ends_differ.
Qed.

Lemma fit_sq_norm_exchange : fit_sq_norm (exchange_ends vs) = fit_sq_norm vs.
Proof.
rewrite /fit_sq_norm fit_normal_exchange !foldl_sum big_map.
by congr (_ + _); apply: eq_bigr => x _; rewrite mulrNN.
Qed.

End Orientation.

(** X18. Exchanging the first and the last vertex of a facet turns the
    fitted hyperplane over: with determinants that are exact for both
    orders of the vertices, [set_hyperplane_equation] gives the opposite
    normal and the opposite offset, so the distance of every point
    changes its sign. *)
Theorem set_hyperplane_equation_orientation (m sm : matrix) (fc fc2 : facet) :
  (1 < dimension_)%N -> 0 <= eps -> matrix_wf sm ->
  size (normal_ fc) = dimension_ -> size (normal_ fc2) = dimension_ ->
  size (vertices_ fc) = dimension_ ->
  all (fun v => dimension_ <= size (coords v))%N (vertices_ fc) ->
  vertices_ fc2 = exchange_ends (vertices_ fc) ->
  fit_exact (vertices_ fc) -> fit_exact (vertices_ fc2) ->
  let r1 := (set_hyperplane_equation m sm fc).2 in
  let r2 := (set_hyperplane_equation m sm fc2).2 in
  [/\ normal_ r2 = [seq - x | x <- normal_ r1], D r2 = - D r1
    & forall p : vector, distance r2 p = - distance r1 p].
Proof.
move=> d1 eps0 wf szn szn2 szv szc ev fe fe2.
have szc1 r : (r < dimension_)%N ->
    (dimension_ <= size (coords (nth nil_point (vertices_ fc) r)))%N.
  by move=> ltr; apply: (allP szc); apply: mem_nth; rewrite szv.
have szc2 r : (r < dimension_)%N ->
    (dimension_ <= size (coords (nth nil_point (vertices_ fc2) r)))%N.
  move=> ltr; apply: (allP szc).
  by rewrite -(perm_mem (perm_exchange_ends _)) -ev mem_nth // ev size_exchange_ends szv.
rewrite /= !set_hyperplane_equationE //= ev.
rewrite ev in fe2.
rewrite fit_normal_exchange // fit_offset_exchange // fit_sq_norm_exchange //.
set N := sqrtF _.
have en : vdiv [seq - x | x <- fit_normal (vertices_ fc)] N =
          [seq - x | x <- vdiv (fit_normal (vertices_ fc)) N].
  by rewrite /vdiv -!map_comp; apply: eq_map => x /=; rewrite mulNr.
split=> //; first by rewrite mulNr.
move=> p; rewrite /distance /= en !inner_product_sum size_map opprD mulNr.
congr (_ + _); rewrite -sumrN; apply: eq_bigr => k _.
by rewrite (nth_map 0) // mulNr.
Qed.

End QuickHull.
(** * Concrete runs

    The numeric type is [rat], handles are natural numbers, a handle is
    dereferenced in a table of points. *)

Definition square_points : seq (seq rat) :=
  [:: [:: 0; 0]; [:: 1; 0]; [:: 1; 1]; [:: 0; 1]; [:: 1 / 2%:R; 1 / 2%:R];
      [:: 0; 2%:R]].

Definition square_coords (p : nat) : seq rat := nth [::] square_points p.

Definition ex_facet (vs ns : seq nat) : facet rat nat :=
  Facet vs ns [::] [::] [:: 0; 0] 0.

Definition ex_store : seq (facet rat nat) :=
  [:: ex_facet [:: 0; 1]%N [:: 1; 2]%N; ex_facet [:: 1; 2]%N [:: 2; 0]%N;
      ex_facet [:: 2; 0]%N [:: 0; 1]%N].

Lemma replace_neighbour_witness :
  (1 < size ex_store)%N /\
  neighbours_ (nth (facet0 rat nat) (replace_neighbour ex_store 1 2 7) 1)
    = [:: 7; 0]%N.
Proof.
have ltf : (1 < size ex_store)%N by [].
refine (conj ltf _).
by have [_ _ _ -> _] := @replace_neighbour_first_occurrence rat nat ex_store 1 2 7 ltf.
Defined.

(** ** Partition

    The facet is the line [y = 1/2] with the normal pointing up, the
    tolerance is [1/10]: the points 2, 3 and 5 of the table are above,
    point 4 is on the line, points 0 and 1 are below. *)

Definition ex_eps : rat := 1 / 10%:R.

Definition ex_line : facet rat nat :=
  Facet [:: 4; 2]%N [:: 0; 0]%N [::] [::] [:: 0; 1] (- (1 / 2%:R)).

Definition ex_pool : seq nat := [:: 0; 1; 2; 3; 4; 5]%N.

Definition ex_parted := partition square_coords ex_eps ex_line ex_pool.

Lemma partition_run :
  [/\ ex_parted.1.1 = 3%:R / 2%:R, outside_ ex_parted.1.2 = [:: 5; 2; 3]%N,
      coplanar_ ex_parted.1.2 = [:: 4]%N & ex_parted.2 = [:: 0; 1; 4]%N].
Proof. by split; vm_compute. Qed.

Lemma partition_outside_witness :
  [/\ 0 <= ex_eps, outside_ ex_line = [::],
      perm_eq (outside_ ex_parted.1.2) [:: 2; 3; 5]%N,
      ex_parted.2 = [:: 0; 1; 4]%N
    & ex_parted.1.1 = distance ex_line (square_coords 5)].
Proof.
have eps0 : 0 <= ex_eps by vm_compute.
have out0 : outside_ ex_line = [::] by [].
move: (@partition_outside rat nat square_coords ex_eps ex_line ex_pool eps0 out0).
have [_] := partition_run; rewrite /ex_parted.
case: (partition _ _ _ _) => [[dmax fc'] pool'] eo _ _ [eout epool emax _].
split.
- exact: eps0.
- exact: out0.
- by apply: (perm_trans eout); vm_compute.
- by rewrite [pool']epool; vm_compute.
- by have [] := emax _ _ eo.
Defined.

Lemma partition_coplanar_witness :
  [/\ (4%N \in ex_pool),
      - ex_eps <= distance ex_line (square_coords 4) <= ex_eps,
      4%N \in coplanar_ ex_parted.1.2 & 4%N \in ex_parted.2].
Proof.
have pin : 4%N \in ex_pool by [].
have near : - ex_eps <= distance ex_line (square_coords 4) <= ex_eps.
  by vm_compute.
move: (@partition_coplanar rat nat square_coords ex_eps ex_line ex_pool 4%N pin near).
rewrite /ex_parted.
case: (partition _ _ _ _) => [[dmax fc'] pool'] [incop inpool].
exact: (And4 pin near incop inpool).
Defined.

(** The point 4 lies on the line; [partition] puts it into the coplanar
    bag, and it is a pool point afterwards as it was before. *)
Lemma partition_coplanar_stays :
  [/\ (4%N \in ex_pool),
      - ex_eps <= distance ex_line (square_coords 4) <= ex_eps,
      4%N \in coplanar_ (partition square_coords ex_eps ex_line ex_pool).1.2
    & 4%N \in (partition square_coords ex_eps ex_line ex_pool).2].
Proof. by split; vm_compute. Qed.

(** ** Ranking

    Facets 0 and 1 are ranked, then facet 0 is taken out again. *)

Definition ex_ranked : quick_hull rat nat :=
  unrank 0 (rank ex_eps (1 / 2%:R) 1
             (rank ex_eps (3%:R / 2%:R) 0 (quick_hull_init rat nat 2))).

Lemma ex_ranked_reachable : ranking_reachable ex_eps ex_ranked.
Proof.
apply: reachable_unrank; apply: reachable_rank; last by vm_compute.
apply: reachable_rank; last by vm_compute.
by apply: reachable_empty; reflexivity.
Qed.

Lemma ranking_consistent_witness :
  [/\ ranking_reachable ex_eps ex_ranked,
      size (ranking_ ex_ranked) = size (ranking_meta_ ex_ranked),
      perm_eq (ranking_pairs ex_ranked) (meta_pairs ex_ranked)
    & uniq (ranked_facets ex_ranked)].
Proof.
have [e1 e2 e3 _ _] := ranking_consistent ex_ranked_reachable.
exact: (And4 ex_ranked_reachable e1 e2 e3).
Defined.

(** ** The ridge matcher

    Two edges in the plane that share the point 1; the record of the
    first edge waits in the set, the record of the second edge arrives. *)

Definition ex_edges : seq (facet rat nat) :=
  [:: ex_facet [:: 0; 1]%N [:: 0; 0]%N; ex_facet [:: 1; 2]%N [:: 0; 0]%N].

Definition ex_pending : quick_hull rat nat :=
  set_ridges (set_facets_ (quick_hull_init rat nat 2) ex_edges)
    [:: Ridge 0 0 1] [:: 0; 0]%N.

Definition ex_matched : quick_hull rat nat := match_ridge 0%N 1 1 1 ex_pending.

Lemma match_ridge_pairs_witness :
  [/\ ridge_wf 2 (facets_ ex_pending) (Ridge 1 1 1),
      all (ridge_wf 2 (facets_ ex_pending)) (unique_ridges_ ex_pending),
      nth 0%N (neighbours_ (nth (facet0 rat nat) (facets_ ex_matched) 0)) 0 = 1%N,
      nth 0%N (neighbours_ (nth (facet0 rat nat) (facets_ ex_matched) 1)) 1 = 0%N
    & unique_ridges_ ex_matched = [::]].
Proof.
have wfx : ridge_wf 2 (facets_ ex_pending) (Ridge 1 1 1) by vm_compute.
have wfrs : all (ridge_wf 2 (facets_ ex_pending)) (unique_ridges_ ex_pending).
  by vm_compute.
move: (@match_ridge_pairs rat nat 0%N 2 ex_pending 1 1 1 wfx wfrs).
cbv zeta; rewrite -/ex_matched.
have -> : [seq y <- unique_ridges_ ex_pending
          | ridge_match (facets_ ex_pending) (Ridge 1 1 1) y] = [:: Ridge 0 0 1].
  by vm_compute.
move=> [n0 n1 _ rs].
exact: (And5 wfx wfrs n0 n1 rs).
Defined.

(** ** Square roots of rationals

    The root of a fraction of squares is exact; other values are rounded
    down in numerator and denominator. *)

Definition nat_sqrt (n : nat) : nat :=
  find (fun k => n < k.+1 * k.+1)%N (iota 0 n.+1).

Definition rat_sqrt (x : rat) : rat :=
  (nat_sqrt `|numq x|)%:R / (nat_sqrt `|denq x|)%:R.

(** ** The affine basis and the initial simplex *)

Definition ex_cloud : quick_hull rat nat :=
  set_qh_outside_ (quick_hull_init rat nat 2) ex_pool.

Definition ex_basis : seq nat * quick_hull rat nat :=
  get_affine_basis rat_sqrt 0%N square_coords 2 ex_eps ex_cloud.

Lemma get_affine_basis_witness :
  [/\ (0 < 2)%N, qh_outside_ ex_cloud != [::],
      (size ex_basis.1 <= 3)%N
    & perm_eq (ex_basis.1 ++ qh_outside_ ex_basis.2) (qh_outside_ ex_cloud)].
Proof.
have d0 : (0 < 2)%N by [].
have ne : qh_outside_ ex_cloud != [::] by [].
move: (@get_affine_basis_permutes rat rat_sqrt nat 0%N square_coords 2 ex_eps
         ex_cloud d0 ne).
rewrite -/ex_basis.
case: (get_affine_basis_run _ _ _ _ _ _) => [[log st'] basis] [-> le pe _ _].
exact: (And4 d0 ne le pe).
Defined.

Lemma get_affine_basis_run_example : ex_basis.1 = [:: 5; 0; 1]%N.
Proof. by vm_compute. Qed.

(** The simplex on the points 0, 1 and 2 of the table. *)
Definition ex_simplex : rat * quick_hull rat nat :=
  create_initial_simplex rat_sqrt 0%N square_coords 2 ex_eps ex_cloud
    [:: 0; 1]%N 2%N.


(** ** Hypervolume

    The length of the segment from point 0 to point 2, and the oriented
    area spanned from point 2 by the points 0 and 1. *)

Lemma hypervolume_cases_witness :
  [/\ matrix_wf 2 (matrix_ ex_cloud),
      all (fun p => 2 <= size (square_coords p))%N [:: 0; 2; 0; 1]%N,
      0 <= ex_eps,
      (hypervolume rat_sqrt 0%N square_coords 2 ex_eps ex_cloud [:: 2]%N 0%N).1 =
        rat_sqrt (det ex_eps (gram_matrix 2
                    (difference_rows square_coords 2 [:: 2]%N 0%N)) 1).1
    & ~~ det_singular ex_eps
           (difference_rows square_coords 2 [:: 0; 1]%N 2%N) 2 /\
      (hypervolume rat_sqrt 0%N square_coords 2 ex_eps ex_cloud [:: 0; 1]%N 2%N).1 =
        \det (difference_block 0%N square_coords 2 [:: 0; 1]%N 2%N 2)].
Proof.
have wf : matrix_wf 2 (matrix_ ex_cloud) by vm_compute.
have sz : all (fun p => 2 <= size (square_coords p))%N [:: 0; 2; 0; 1]%N.
  by vm_compute.
have sz1 : all (fun p => 2 <= size (square_coords p))%N [:: 0; 2]%N by vm_compute.
have sz2 : all (fun p => 2 <= size (square_coords p))%N [:: 2; 0; 1]%N.
  by vm_compute.
have eps0 : 0 <= ex_eps by vm_compute.
have reg : ~~ det_singular ex_eps
                (difference_rows square_coords 2 [:: 0; 1]%N 2%N) 2.
  by vm_compute.
have [_ gram _] :=
  hypervolume_cases rat_sqrt 0%N square_coords 2 ex_eps ex_cloud [:: 2]%N 0%N.
have [_ _ full] :=
  hypervolume_cases rat_sqrt 0%N square_coords 2 ex_eps ex_cloud [:: 0; 1]%N 2%N.
have [root _ _] := gram wf sz1 isT.
have [_ _ exact] := full sz2 isT (erefl _).
exact: (And5 wf sz eps0 root (conj reg (exact eps0 reg))).
Defined.

(** The segment from [(0, 0)] to [(3/10, 0)] with the tolerance [1/10]:
    its Gram determinant is [9/100], of square root [3/10], and its only
    pivot [9/100] is not above the tolerance, so that [det] declares the
    Gram matrix singular and [hypervolume] returns the root of zero. *)
Definition tiny_points : seq (seq rat) :=
  [:: [:: 3%:R / 10%:R; 0]; [:: 0; 0]].

Definition tiny_coords (p : nat) : seq rat := nth [::] tiny_points p.

Lemma hypervolume_gram_threshold :
  let st := quick_hull_init rat nat 2 in
  let V := difference_block 0%N tiny_coords 2 [:: 0]%N 1%N 1 in
  [/\ matrix_wf 2 (matrix_ st),
      all (fun p => 2 <= size (tiny_coords p))%N [:: 1; 0]%N,
      (0 < size [:: 0]%N < 2)%N
    & [/\ \det (V *m V^T) = 9%:R / 100%:R,
          rat_sqrt (\det (V *m V^T)) = 3%:R / 10%:R,
          (hypervolume rat_sqrt 0%N tiny_coords 2 ex_eps st [:: 0]%N 1%N).1 = 0
        & (hypervolume rat_sqrt 0%N tiny_coords 2 ex_eps st [:: 0]%N 1%N).1 <>
          rat_sqrt (\det (V *m V^T))]].
Proof.
move=> st V.
have wf : matrix_wf 2 (matrix_ st) by vm_compute.
have sz : all (fun p => 2 <= size (tiny_coords p))%N [:: 1; 0]%N by vm_compute.
have gramE : \det (V *m V^T) = 9%:R / 100%:R.
  rewrite det_mx11 mxE !big_ord_recl big_ord0 !mxE.
  by vm_compute.
have rootE : rat_sqrt (\det (V *m V^T)) = 3%:R / 10%:R.
  by rewrite gramE; vm_compute.
have hv0 : (hypervolume rat_sqrt 0%N tiny_coords 2 ex_eps st [:: 0]%N 1%N).1 = 0.
  by vm_compute.
have ne : (hypervolume rat_sqrt 0%N tiny_coords 2 ex_eps st [:: 0]%N 1%N).1 <>
          rat_sqrt (\det (V *m V^T)).
  by rewrite hv0 rootE; vm_compute.
exact: (And4 wf sz isT (And4 gramE rootE hv0 ne)).
Qed.

Lemma hypervolume_run :
  (hypervolume rat_sqrt 0%N square_coords 2 ex_eps ex_cloud [::] 0%N).1 = 0 /\
  (hypervolume rat_sqrt 0%N square_coords 2 ex_eps ex_cloud [:: 0; 1]%N 2%N).1 = 1.
Proof. by split; vm_compute. Qed.

(** ** The hyperplane fit

    Two edges in the plane: from [(3, 0)] to [(0, 4)], seen from the
    origin, and from [(4, 0)] to [(0, 1/4)], seen from [(0, -1)]. *)

Definition fit_points : seq (seq rat) :=
  [:: [:: 3%:R; 0]; [:: 0; 4%:R]; [:: 4%:R; 0]; [:: 0; 1 / 4%:R]].

Definition fit_coords (p : nat) : seq rat := nth [::] fit_points p.

Definition zero_matrix : matrix rat := nseq 2 (nseq 2 0).

Definition ex_edge : facet rat nat := ex_facet [:: 0; 1]%N [:: 0; 0]%N.

Definition ex_fit : facet rat nat :=
  (set_hyperplane_equation rat_sqrt 0%N fit_coords 2 ex_eps
     zero_matrix zero_matrix ex_edge).2.

Lemma set_hyperplane_equation_fit_witness :
  [/\ affinely_independent 0%N fit_coords 2 [:: 0; 0] (vertices_ ex_edge),
      fit_exact 0%N fit_coords 2 ex_eps (vertices_ ex_edge),
      rat_sqrt (fit_sq_norm 0%N fit_coords 2 ex_eps (vertices_ ex_edge)) ^+ 2 =
        fit_sq_norm 0%N fit_coords 2 ex_eps (vertices_ ex_edge),
      \sum_(x <- normal_ ex_fit) x ^+ 2 = 1
    & distance ex_fit (fit_coords 0) = 0 /\ distance ex_fit (fit_coords 1) = 0].
Proof.
have d0 : (0 < 2)%N by [].
have eps0 : 0 <= ex_eps by vm_compute.
have wf : matrix_wf 2 zero_matrix by vm_compute.
have szn : size (normal_ ex_edge) = 2%N by [].
have szv : size (vertices_ ex_edge) = 2%N by [].
have szc : all (fun v => 2 <= size (fit_coords v))%N (vertices_ ex_edge).
  by vm_compute.
have ind : affinely_independent 0%N fit_coords 2 [:: 0; 0] (vertices_ ex_edge).
  by apply: (affinely_independent_det eps0); vm_compute.
have exa : fit_exact 0%N fit_coords 2 ex_eps (vertices_ ex_edge).
  by apply: fit_exact_regular; vm_compute.
have sq : rat_sqrt (fit_sq_norm 0%N fit_coords 2 ex_eps (vertices_ ex_edge)) ^+ 2
          = fit_sq_norm 0%N fit_coords 2 ex_eps (vertices_ ex_edge).
  by vm_compute.
have [unit_ on_] :=
  @set_hyperplane_equation_fit rat rat_sqrt nat 0%N fit_coords 2 ex_eps
    zero_matrix zero_matrix ex_edge [:: 0; 0] d0 eps0 wf szn szv szc ind exa sq.
have in0 : 0%N \in vertices_ ex_fit by vm_compute.
have in1 : 1%N \in vertices_ ex_fit by vm_compute.
exact: (And5 ind exa sq unit_ (conj (on_ _ in0) (on_ _ in1))).
Defined.

(** With the tolerance [1/2] the fit of the second edge takes two of its
    three determinants for zero: the line it computes is the axis
    [y = 0], and the vertex [(0, 1/4)] is not on it. *)

Definition ex_wide : rat := 1 / 2%:R.

Definition ex_flat : facet rat nat := ex_facet [:: 2; 3]%N [:: 0; 0]%N.

Definition ex_misfit : facet rat nat :=
  (set_hyperplane_equation rat_sqrt 0%N fit_coords 2 ex_wide
     zero_matrix zero_matrix ex_flat).2.

Lemma set_hyperplane_equation_misfit :
  [/\ affinely_independent 0%N fit_coords 2 [:: 0; -1] (vertices_ ex_flat),
      rat_sqrt (fit_sq_norm 0%N fit_coords 2 ex_wide (vertices_ ex_flat)) ^+ 2 =
        fit_sq_norm 0%N fit_coords 2 ex_wide (vertices_ ex_flat),
      det_singular ex_wide (vertex_matrix 0%N fit_coords 2 (vertices_ ex_flat)) 2,
      (3%N \in vertices_ ex_misfit)
    & distance ex_misfit (fit_coords 3) = 1 / 4%:R].
Proof.
have eps0 : 0 <= ex_wide by vm_compute.
split; first by apply: (affinely_independent_det eps0); vm_compute.
- by vm_compute.
- by vm_compute.
- by vm_compute.
- by vm_compute.
Qed.

(** ** The linear-algebra kernel on small matrices *)

Definition ex_diag : matrix rat := [:: [:: 3%:R; 0]; [:: 0; 4%:R]].

Definition ex_square : matrix rat := [:: [:: 1; 2%:R]; [:: 3%:R; 4%:R]].

Definition ex_wide_a : matrix rat :=
  [:: [:: 1; 2%:R; 5%:R]; [:: 3%:R; 4%:R; 6%:R]; [:: 7%:R; 8%:R; 9%:R]].

Definition ex_wide_b : matrix rat :=
  [:: [:: 1; 2%:R; 0]; [:: 3%:R; 4%:R; 0]; [:: 0; 0; 1]].

Lemma det_determinant_witness :
  [/\ 0 <= ex_eps, ~~ det_singular ex_eps ex_diag 2,
      (det ex_eps ex_diag 2).1 = \det (block_of ex_diag 0 2)
    & (det ex_eps ex_diag 2).1 = 12%:R].
Proof.
have eps0 : 0 <= ex_eps by vm_compute.
have reg : ~~ det_singular ex_eps ex_diag 2 by vm_compute.
have [_ /(_ reg)[e _] _] := @det_determinant rat ex_eps ex_diag 2 eps0.
have ev : (det ex_eps ex_diag 2).1 = 12%:R by vm_compute.
exact: (And4 eps0 reg e ev).
Defined.

Lemma ex_wide_block : block_eq 2 ex_wide_a ex_wide_b.
Proof. by move=> [|[|r]] [|[|c]]. Qed.

Lemma det_leading_block_witness :
  block_eq 2 ex_wide_a ex_wide_b /\
  (det ex_eps ex_wide_a 2).1 = (det ex_eps ex_wide_b 2).1.
Proof.
have [e _ _ _] := @det_leading_block rat 3 ex_eps ex_wide_a ex_wide_b 2 ex_wide_block.
exact: (conj ex_wide_block e).
Defined.

Lemma matrix_transpose_witness :
  matrix_wf 2 ex_square /\
  matrix_transpose 2 (matrix_transpose 2 ex_square) = ex_square.
Proof.
have wf : matrix_wf 2 ex_square by vm_compute.
have [_ _ e] := @matrix_transpose_involutive rat 2 ex_square wf.
exact: (conj wf e).
Defined.

Lemma matrix_restore_witness :
  [/\ matrix_wf 2 ex_diag, matrix_wf 2 ex_square, (1 < 2)%N
    & nth [::] (matrix_restore 2 1 ex_diag ex_square) 1 = nseq 2 1].
Proof.
have wfm : matrix_wf 2 ex_diag by vm_compute.
have wfs : matrix_wf 2 ex_square by vm_compute.
have lt : (1 < 2)%N by [].
have [_ e _] := @matrix_restore_ones rat 2 1 ex_diag ex_square wfm wfs lt.
exact: (And4 wfm wfs lt e).
Defined.

Lemma ex_wide_rows r : (r < 2)%N -> size (nth [::] ex_wide_a r) = 3%N.
Proof. by case: r => [|[|r]]. Qed.

Lemma matrix_sqr_witness :
  (forall r, (r < 2)%N -> size (nth [::] ex_wide_a r) = 3%N) /\
  mget (matrix_sqr 2 ex_wide_a ex_wide_b) 0 1 =
  mget (matrix_sqr 2 ex_wide_a ex_wide_b) 1 0.
Proof.
have [_ sym _] := @matrix_sqr_gram rat 3 2 ex_wide_a ex_wide_b ex_wide_rows.
exact: (conj ex_wide_rows (sym 0%N 1%N isT isT)).
Defined.

(** ** Hypervolume with tolerance zero *)


(** ** The ranking: the best facet and a round trip *)

Definition ex_ranked2 : quick_hull rat nat :=
  rank ex_eps (1 / 2%:R) 1
    (rank ex_eps (3%:R / 2%:R) 0 (quick_hull_init rat nat 2)).

Lemma ex_ranked2_reachable : ranking_reachable ex_eps ex_ranked2.
Proof.
apply: reachable_rank; last by vm_compute.
apply: reachable_rank; last by vm_compute.
by apply: reachable_empty; reflexivity.
Qed.

Lemma get_best_facet_witness :
  [/\ ranking_reachable ex_eps ex_ranked2, ranking_sorted ex_ranked2
    & get_best_facet ex_ranked2 = 0%N].
Proof.
have [srt _] := get_best_facet_furthest ex_ranked2_reachable.
have e : get_best_facet ex_ranked2 = 0%N by vm_compute.
exact: (And3 ex_ranked2_reachable srt e).
Defined.

Lemma rank_unrank_witness :
  [/\ ranking_reachable ex_eps ex_ranked2, (2%N \notin ranked_facets ex_ranked2)
    & ranking_ (unrank 2 (rank ex_eps 1 2 ex_ranked2)) = ranking_ ex_ranked2].
Proof.
have nin : 2%N \notin ranked_facets ex_ranked2 by vm_compute.
have [e _ _] := @rank_unrank rat nat ex_eps ex_ranked2 1 2 ex_ranked2_reachable nin.
exact: (And3 ex_ranked2_reachable nin e).
Defined.

(** ** The simplex constructor and the inner point *)

Lemma facet_simplex_witness :
  [/\ size [:: 0; 1; 2]%N = 3%N, (1 <= 2)%N
    & vertices_ (facet_simplex rat 2 [:: 0; 1; 2]%N 1 false) =
      [seq nth 0%N [:: 0; 1; 2]%N v
      | v <- neighbours_ (facet_simplex rat 2 [:: 0; 1; 2]%N 1 false)]].
Proof.
have sz : size [:: 0; 1; 2]%N = 3%N by [].
have le : (1 <= 2)%N by [].
have [_ _ e _ _] := @facet_simplex_against rat nat 0%N 2 [:: 0; 1; 2]%N 1 false sz le.
exact: (And3 sz le e).
Defined.

Lemma inner_point_witness :
  [/\ size [:: 0; 1]%N = 2%N,
      all (fun p => 2 <= size (square_coords p))%N [:: 2; 0; 1]%N, (0 < 2)%N
    & nth 0 (inner_point_ ex_simplex.2) 0 =
      (\sum_(p <- [:: 0; 1; 2]%N) nth 0 (square_coords p) 0) / 3%:R].
Proof.
have sz : size [:: 0; 1]%N = 2%N by [].
have szc : all (fun p => 2 <= size (square_coords p))%N [:: 2; 0; 1]%N.
  by vm_compute.
have lt : (0 < 2)%N by [].
have [e _] :=
  @create_initial_simplex_inner_point rat rat_sqrt nat 0%N square_coords 2
    ex_eps ex_cloud [:: 0; 1]%N 2%N 0 sz szc lt.
exact: (And4 sz szc lt e).
Defined.

(** ** Local convexity of the initial simplex *)

Lemma check_local_convexity_witness :
  let fs := facets_ ex_simplex.2 in
  let fc := nth (facet0 rat nat) fs 0 in
  all (fun n => size (neighbours_ (nth (facet0 rat nat) fs n)) == 2%N)
      (neighbours_ fc) /\
  check_local_convexity 0%N square_coords 2 ex_eps fs fc 0 =
  all (fun n =>
         let nb := nth (facet0 rat nat) fs n in
         [|| 1 <= cos_of_dihedral_angle fc nb, 0%N \notin neighbours_ nb
           | distance fc (square_coords (nth 0%N (vertices_ nb)
                                          (index 0%N (neighbours_ nb)))) <= ex_eps])
      (neighbours_ fc).
Proof.
move=> fs fc.
have sz : all (fun n => size (neighbours_ (nth (facet0 rat nat) fs n)) == 2%N)
              (neighbours_ fc) by vm_compute.
exact: (conj sz (@check_local_convexity_spec rat nat 0%N square_coords 2 ex_eps
                   fs fc 0 sz)).
Defined.

(** ** The store: compaction and the free list *)

Definition ex_freed : quick_hull rat nat :=
  set_removed_facets_ (set_facets_ (quick_hull_init rat nat 2) ex_store) [:: 0]%N.

Lemma compactify_witness :
  [/\ uniq (removed_facets_ ex_freed),
      all (fun f => f < size (facets_ ex_freed))%N (removed_facets_ ex_freed),
      removed_facets_ (compactify ex_freed) = [::]
    & size (facets_ (compactify ex_freed)) =
      (size (facets_ ex_freed) - size (removed_facets_ ex_freed))%N].
Proof.
have ur : uniq (removed_facets_ ex_freed) by [].
have lt : all (fun f => f < size (facets_ ex_freed))%N (removed_facets_ ex_freed).
  by [].
have [e1 e2 _] := @compactify_keeps rat nat ex_freed ur lt.
exact: (And4 ur lt e1 e2).
Defined.

Lemma add_facet_witness :
  (1 < size (facets_ ex_freed))%N /\
  (add_facet 0%N 2 (unrank 1 ex_freed) [:: 3; 4]%N 0 5%N 2).2 = 1%N.
Proof.
have lt : (1 < size (facets_ ex_freed))%N by [].
have [_ [e _] _ _ _] :=
  @add_facet_reuses rat nat 0%N 2 ex_freed 1 [:: 3; 4]%N 0 5%N 2 lt.
exact: (conj lt e).
Defined.

(** ** The point [steal_best] takes from the pool *)

Lemma steal_best_witness :
  let run := steal_best rat_sqrt 0%N square_coords 2 ex_eps ex_cloud [:: 0]%N in
  [/\ (1 < 2)%N, matrix_wf 2 (shadow_matrix_ ex_cloud), (size [:: 0]%N <= 2)%N,
      all (fun p => 2 <= size (square_coords p))%N ([:: 0]%N ++ qh_outside_ ex_cloud)
    & run.1.1 /\ exists k, run.2 = rcons [:: 0]%N (nth 0%N (qh_outside_ ex_cloud) k)].
Proof.
move=> run.
have d1 : (1 < 2)%N by [].
have wf : matrix_wf 2 (shadow_matrix_ ex_cloud) by vm_compute.
have szb : (size [:: 0]%N <= 2)%N by [].
have szc : all (fun p => 2 <= size (square_coords p))%N
               ([:: 0]%N ++ qh_outside_ ex_cloud) by vm_compute.
have ok : run.1.1 by vm_compute.
refine (And5 d1 wf szb szc (conj ok _)).
move: (@steal_best_furthest rat rat_sqrt nat 0%N square_coords 2 ex_eps ex_cloud
         [:: 0]%N d1 wf szb szc) ok.
rewrite -/run; case: run => [[b st'] basis'] [_ H] okb.
have eb : b = true := okb.
by move: H; rewrite eb => -[k [_ e _ _ _]]; exists k.
Defined.

(** ** The two orientations of an edge *)

Definition ex_edge_back : facet rat nat := ex_facet [:: 1; 0]%N [:: 0; 0]%N.

Lemma orientation_witness :
  [/\ fit_exact 0%N fit_coords 2 ex_eps (vertices_ ex_edge),
      fit_exact 0%N fit_coords 2 ex_eps (vertices_ ex_edge_back),
      vertices_ ex_edge_back = exchange_ends (vertices_ ex_edge)
    & D (set_hyperplane_equation rat_sqrt 0%N fit_coords 2 ex_eps
           zero_matrix zero_matrix ex_edge_back).2 =
      - D (set_hyperplane_equation rat_sqrt 0%N fit_coords 2 ex_eps
             zero_matrix zero_matrix ex_edge).2].
Proof.
have d1 : (1 < 2)%N by [].
have eps0 : 0 <= ex_eps by vm_compute.
have wf : matrix_wf 2 zero_matrix by vm_compute.
have szn : size (normal_ ex_edge) = 2%N by [].
have szn2 : size (normal_ ex_edge_back) = 2%N by [].
have szv : size (vertices_ ex_edge) = 2%N by [].
have szc : all (fun v => 2 <= size (fit_coords v))%N (vertices_ ex_edge).
  by vm_compute.
have ev : vertices_ ex_edge_back = exchange_ends (vertices_ ex_edge) by [].
have fe : fit_exact 0%N fit_coords 2 ex_eps (vertices_ ex_edge).
  by apply: fit_exact_regular; vm_compute.
have fe2 : fit_exact 0%N fit_coords 2 ex_eps (vertices_ ex_edge_back).
  by apply: fit_exact_regular; vm_compute.
have [_ e _] :=
  @set_hyperplane_equation_orientation rat rat_sqrt nat 0%N fit_coords 2 ex_eps
    zero_matrix zero_matrix ex_edge ex_edge_back d1 eps0 wf szn szn2 szv szc ev
    fe fe2.
exact: (And4 fe fe2 ev e).
Defined.
